(** * Shroud: encrypt-then-encode secret wrapper (shroud.go)

    A shallow embedding of the Go package [shroud] and of the parts of the
    Go standard library it calls ([encoding/base64], [encoding/json],
    [crypto/cipher] in GCM mode, [crypto/rand]), followed by the properties
    stated for the package.

    Go [[]byte] is [list byte], Go [string] is [string] (a Go string is a
    byte sequence, and so is a Rocq [string]).  Multiple return values
    [(x, err)] are pairs of options, [nil] being [None]. *)

From Stdlib Require Import String Ascii Strings.Byte NArith ZArith Lia Bool List.
From Stdlib Require DecimalZ DecimalPos DecimalFacts.
Import ListNotations.

Local Open Scope Z_scope.

(** ** Bytes *)

Definition byte_to_Z (b : byte) : Z := Z.of_N (Byte.to_N b).

(** The conversion [byte(z)] of Go: the low eight bits. *)
Definition byte_of_Z (z : Z) : byte :=
  match Byte.of_N (Z.to_N (z mod 256)) with
  | Some b => b
  | None => x00
  end.

Definition char_to_Z (c : ascii) : Z := Z.of_N (N_of_ascii c).
Definition char_of_Z (z : Z) : ascii := ascii_of_N (Z.to_N (z mod 256)).

Lemma byte_to_Z_range (b : byte) : 0 <= byte_to_Z b < 256.
Proof.
  unfold byte_to_Z. pose proof (Byte.to_N_bounded b). lia.
Qed.

Lemma byte_of_to_Z (b : byte) : byte_of_Z (byte_to_Z b) = b.
Proof.
  unfold byte_of_Z. pose proof (byte_to_Z_range b) as R.
  rewrite Z.mod_small by exact R.
  unfold byte_to_Z. rewrite N2Z.id, Byte.of_to_N. reflexivity.
Qed.

Lemma byte_to_of_Z (z : Z) : 0 <= z < 256 -> byte_to_Z (byte_of_Z z) = z.
Proof.
  intros R. unfold byte_of_Z, byte_to_Z. rewrite Z.mod_small by exact R.
  destruct (Byte.of_N (Z.to_N z)) as [b|] eqn:E.
  - apply Byte.to_of_N in E. rewrite E. lia.
  - apply Byte.of_N_None_iff in E. lia.
Qed.

Lemma byte_of_Z_eq (z : Z) (b : byte) : z mod 256 = byte_to_Z b -> byte_of_Z z = b.
Proof.
  intros E. unfold byte_of_Z. rewrite E. unfold byte_to_Z.
  rewrite N2Z.id, Byte.of_to_N. reflexivity.
Qed.

Lemma byte_to_Z_inj (a b : byte) : byte_to_Z a = byte_to_Z b -> a = b.
Proof.
  intros E. rewrite <- (byte_of_to_Z a), <- (byte_of_to_Z b), E. reflexivity.
Qed.

Lemma char_to_Z_range (c : ascii) : 0 <= char_to_Z c < 256.
Proof.
  unfold char_to_Z. pose proof (N_ascii_bounded c). lia.
Qed.

Lemma char_to_of_Z (z : Z) : 0 <= z < 256 -> char_to_Z (char_of_Z z) = z.
Proof.
  intros R. unfold char_to_Z, char_of_Z. rewrite Z.mod_small by exact R.
  rewrite N_ascii_embedding by lia. lia.
Qed.

Lemma char_of_to_Z (c : ascii) : char_of_Z (char_to_Z c) = c.
Proof.
  unfold char_of_Z. rewrite Z.mod_small by apply char_to_Z_range.
  unfold char_to_Z. rewrite N2Z.id. apply ascii_N_embedding.
Qed.

Lemma byte_to_of_Z_mod (z : Z) : byte_to_Z (byte_of_Z z) = z mod 256.
Proof.
  assert (R : 0 <= z mod 256 < 256) by (apply Z.mod_pos_bound; lia).
  rewrite <- (byte_to_of_Z (z mod 256) R). f_equal.
  unfold byte_of_Z. rewrite Z.mod_mod by lia. reflexivity.
Qed.

Lemma byte_testbit_high (b : byte) (n : Z) : 8 <= n -> Z.testbit (byte_to_Z b) n = false.
Proof.
  intros Hn. rewrite <- (Z.mod_small (byte_to_Z b) 256) by apply byte_to_Z_range.
  change 256 with (2 ^ 8). apply Z.mod_pow2_bits_high. lia.
Qed.

Lemma byte_of_Z_testbit (z n : Z) :
  n < 8 -> Z.testbit (byte_to_Z (byte_of_Z z)) n = Z.testbit z n.
Proof.
  intros Hn. rewrite byte_to_of_Z_mod. change 256 with (2 ^ 8).
  apply Z.mod_pow2_bits_low. exact Hn.
Qed.

Lemma firstn_app_len {A : Type} (n : nat) (a b : list A) :
  length a = n -> firstn n (a ++ b) = a.
Proof.
  intros <-. rewrite firstn_app, Nat.sub_diag, firstn_all. cbn [firstn].
  apply app_nil_r.
Qed.

Lemma skipn_app_len {A : Type} (n : nat) (a b : list A) :
  length a = n -> skipn n (a ++ b) = b.
Proof.
  intros <-. rewrite skipn_app, Nat.sub_diag, skipn_all. reflexivity.
Qed.

(** ** Single bits of a byte string *)

(** Bit [k] (0 to 7, from the least significant) of a byte, inverted. *)
Definition flip_byte (k : Z) (b : byte) : byte :=
  byte_of_Z (Z.lxor (byte_to_Z b) (2 ^ k)).

(** Bit [i] of a byte string, inverted: bit [i mod 8] of byte [i / 8]. *)
Fixpoint flip_bit (i : nat) (l : list byte) : list byte :=
  match l with
  | [] => []
  | b :: tl =>
      if (i <? 8)%nat then flip_byte (Z.of_nat i) b :: tl
      else b :: flip_bit (i - 8) tl
  end.

Lemma flip_byte_neq (k : Z) (b : byte) : 0 <= k < 8 -> flip_byte k b <> b.
Proof.
  intros Hk E. apply (f_equal (fun x => Z.testbit (byte_to_Z x) k)) in E.
  unfold flip_byte in E.
  rewrite byte_of_Z_testbit, Z.lxor_spec, Z.pow2_bits_true in E by lia.
  destruct (Z.testbit (byte_to_Z b) k); discriminate E.
Qed.

Lemma flip_bit_length (i : nat) (l : list byte) :
  length (flip_bit i l) = length l.
Proof.
  revert i. induction l as [|b tl IH]; intros i; [reflexivity|].
  cbn [flip_bit]. destruct (i <? 8)%nat; cbn [length]; [reflexivity|].
  rewrite IH. reflexivity.
Qed.

Lemma flip_bit_app_l (i : nat) (a b : list byte) :
  (i < 8 * length a)%nat -> flip_bit i (a ++ b) = flip_bit i a ++ b.
Proof.
  revert i. induction a as [|x a IH]; intros i Hi; cbn [length] in Hi; [lia|].
  cbn [app flip_bit]. destruct (i <? 8)%nat eqn:E; [reflexivity|].
  apply Nat.ltb_ge in E. cbn [app]. rewrite IH by lia. reflexivity.
Qed.

Lemma flip_bit_app_r (i : nat) (a b : list byte) :
  (8 * length a <= i)%nat ->
  flip_bit i (a ++ b) = a ++ flip_bit (i - 8 * length a) b.
Proof.
  revert i. induction a as [|x a IH]; intros i Hi; cbn [length] in Hi.
  - cbn [app length]. rewrite Nat.mul_0_r, Nat.sub_0_r. reflexivity.
  - cbn [app flip_bit]. replace (i <? 8)%nat with false
      by (symmetry; apply Nat.ltb_ge; lia).
    rewrite IH by lia. do 3 f_equal. cbn [length]. lia.
Qed.

Lemma flip_bit_neq (i : nat) (l : list byte) :
  (i < 8 * length l)%nat -> flip_bit i l <> l.
Proof.
  revert i. induction l as [|b tl IH]; intros i Hi; cbn [length] in Hi; [lia|].
  cbn [flip_bit]. destruct (i <? 8)%nat eqn:E.
  - apply Nat.ltb_lt in E. intros H. inversion H as [Hb].
    apply (flip_byte_neq (Z.of_nat i) b); [lia|exact Hb].
  - apply Nat.ltb_ge in E. intros H. inversion H as [Ht].
    apply (IH (i - 8)%nat); [lia|exact Ht].
Qed.

(** ** encoding/base64: [StdEncoding] *)

Module Base64.

(** [const encodeStd]: the 64-character standard alphabet. *)
Definition encodeStd : string :=
  "ABCDEFGHIJKLMNOPQRSTUVWXYZabcdefghijklmnopqrstuvwxyz0123456789+/"%string.

Definition padChar : ascii := "="%char.

(** [enc.encode[v]] for a 6-bit value [v]. *)
Definition encode_char (v : Z) : ascii :=
  match String.get (Z.to_nat v) encodeStd with
  | Some c => c
  | None => padChar
  end.

Fixpoint index_of (c : ascii) (s : string) (i : Z) : option Z :=
  match s with
  | EmptyString => None
  | String d s' => if Ascii.eqb c d then Some i else index_of c s' (i + 1)
  end.

(** [enc.decodeMap[c]]: [None] stands for the entry 0xff. *)
Definition decodeMap (c : ascii) : option Z := index_of c encodeStd 0.

(** One full quantum: three bytes to four characters. *)
Definition encode3 (b1 b2 b3 : byte) : list ascii :=
  let val := byte_to_Z b1 * 65536 + byte_to_Z b2 * 256 + byte_to_Z b3 in
  [ encode_char (val / 262144 mod 64); encode_char (val / 4096 mod 64);
    encode_char (val / 64 mod 64); encode_char (val mod 64) ].

Fixpoint encode_chars (src : list byte) : list ascii :=
  match src with
  | [] => []
  | [b1] =>
      let val := byte_to_Z b1 * 65536 in
      [ encode_char (val / 262144 mod 64); encode_char (val / 4096 mod 64);
        padChar; padChar ]
  | [b1; b2] =>
      let val := byte_to_Z b1 * 65536 + byte_to_Z b2 * 256 in
      [ encode_char (val / 262144 mod 64); encode_char (val / 4096 mod 64);
        encode_char (val / 64 mod 64); padChar ]
  | b1 :: b2 :: b3 :: rest => encode3 b1 b2 b3 ++ encode_chars rest
  end.

(** [StdEncoding.EncodeToString]. *)
Definition EncodeToString (src : list byte) : string :=
  string_of_list_ascii (encode_chars src).

Definition is_newline (c : ascii) : bool :=
  Ascii.eqb c "010"%char || Ascii.eqb c "013"%char.

Fixpoint skip_newlines (s : list ascii) : list ascii :=
  match s with
  | c :: s' => if is_newline c then skip_newlines s' else s
  | [] => []
  end.

(** The bytes a quantum of [dlen] 6-bit values yields ([dlen - 1] of them). *)
Definition quantum_bytes (dbuf : list Z) : list byte :=
  let v j := nth j dbuf 0 in
  let val := v 0%nat * 262144 + v 1%nat * 4096 + v 2%nat * 64 + v 3%nat in
  firstn (length dbuf - 1)
    [ byte_of_Z (val / 65536); byte_of_Z (val / 256); byte_of_Z val ].

(** The loop of [Decode] over [decodeQuantum]: [dbuf] holds the 6-bit values
    read so far in the current quantum.  [None] is [CorruptInputError]. *)
Fixpoint decode_chars (dbuf : list Z) (s : list ascii) : option (list byte) :=
  match s with
  | [] =>
      match dbuf with
      | [] => Some []                       (* j == 0: clean end *)
      | _ => None                           (* incomplete quantum, padding required *)
      end
  | c :: s' =>
      match decodeMap c with
      | Some out =>
          if (length dbuf =? 3)%nat then
            option_map (app (quantum_bytes (dbuf ++ [out]))) (decode_chars [] s')
          else decode_chars (dbuf ++ [out]) s'
      | None =>
          if is_newline c then decode_chars dbuf s'
          else if Ascii.eqb c padChar then
            match dbuf with
            | [_; _] =>
                (* "==" expected, the first "=" is consumed *)
                match skip_newlines s' with
                | c2 :: s2 =>
                    if Ascii.eqb c2 padChar then
                      match skip_newlines s2 with
                      | [] => Some (quantum_bytes dbuf)
                      | _ => None           (* trailing garbage *)
                      end
                    else None               (* incorrect padding *)
                | [] => None                (* not enough padding *)
                end
            | [_; _; _] =>
                match skip_newlines s' with
                | [] => Some (quantum_bytes dbuf)
                | _ => None                 (* trailing garbage *)
                end
            | _ => None                     (* incorrect padding *)
            end
          else None
      end
  end.

(** [StdEncoding.DecodeString]. *)
Definition DecodeString (s : string) : option (list byte) :=
  decode_chars [] (list_ascii_of_string s).

Lemma decodeMap_encode_char (v : Z) :
  0 <= v < 64 -> decodeMap (encode_char v) = Some v.
Proof.
  intros R.
  assert (E : exists n : nat, (n < 64)%nat /\ v = Z.of_nat n).
  { exists (Z.to_nat v). split; lia. }
  destruct E as (n & Hn & ->). clear R.
  do 64 (destruct n as [|n]; [reflexivity|]). lia.
Qed.

Lemma decode_chars_step (v : Z) (dbuf : list Z) (s : list ascii) :
  0 <= v < 64 ->
  decode_chars dbuf (encode_char v :: s) =
  if (length dbuf =? 3)%nat
  then option_map (app (quantum_bytes (dbuf ++ [v]))) (decode_chars [] s)
  else decode_chars (dbuf ++ [v]) s.
Proof.
  intros R. cbn [decode_chars]. rewrite decodeMap_encode_char by exact R.
  reflexivity.
Qed.

Lemma decode_chars_quantum (b1 b2 b3 : byte) (s : list ascii) :
  decode_chars [] (encode3 b1 b2 b3 ++ s) =
  option_map (app [b1; b2; b3]) (decode_chars [] s).
Proof.
  pose proof (byte_to_Z_range b1) as R1.
  pose proof (byte_to_Z_range b2) as R2.
  pose proof (byte_to_Z_range b3) as R3.
  unfold encode3.
  set (val := byte_to_Z b1 * 65536 + byte_to_Z b2 * 256 + byte_to_Z b3).
  cbn [app].
  rewrite !decode_chars_step by (subst val; Z.div_mod_to_equations; lia).
  cbn [length Nat.eqb app].
  unfold quantum_bytes. cbn [length Nat.sub firstn nth].
  assert (E : val / 262144 mod 64 * 262144 + val / 4096 mod 64 * 4096 +
              val / 64 mod 64 * 64 + val mod 64 = val).
  { subst val. Z.div_mod_to_equations. lia. }
  rewrite E.
  rewrite (byte_of_Z_eq (val / 65536) b1), (byte_of_Z_eq (val / 256) b2),
    (byte_of_Z_eq val b3) by (subst val; Z.div_mod_to_equations; lia).
  reflexivity.
Qed.

Lemma decode_encode_chars (src : list byte) :
  decode_chars [] (encode_chars src) = Some src.
Proof.
  assert (H : forall n (l : list byte), (length l < n)%nat ->
              decode_chars [] (encode_chars l) = Some l).
  { induction n as [|n IH]; intros l Hl; [lia|].
    destruct l as [|b1 [|b2 [|b3 rest]]].
    - reflexivity.
    - pose proof (byte_to_Z_range b1) as R1.
      cbn [encode_chars].
      rewrite !decode_chars_step by (Z.div_mod_to_equations; lia).
      cbn. unfold quantum_bytes. cbn [length Nat.sub firstn nth app].
      repeat (f_equal; try (apply byte_of_Z_eq; Z.div_mod_to_equations; lia)).
    - pose proof (byte_to_Z_range b1) as R1.
      pose proof (byte_to_Z_range b2) as R2.
      cbn [encode_chars].
      rewrite !decode_chars_step by (Z.div_mod_to_equations; lia).
      cbn. unfold quantum_bytes. cbn [length Nat.sub firstn nth app].
      repeat (f_equal; try (apply byte_of_Z_eq; Z.div_mod_to_equations; lia)).
    - change (encode_chars (b1 :: b2 :: b3 :: rest))
        with (encode3 b1 b2 b3 ++ encode_chars rest).
      rewrite decode_chars_quantum, IH by (cbn [length] in Hl; lia).
      reflexivity. }
  apply (H (S (length src))). lia.
Qed.

(** Decoding inverts encoding. *)
Lemma DecodeString_EncodeToString (src : list byte) :
  DecodeString (EncodeToString src) = Some src.
Proof.
  unfold DecodeString, EncodeToString.
  rewrite list_ascii_of_string_of_list_ascii. apply decode_encode_chars.
Qed.

Lemma EncodeToString_inj (a b : list byte) :
  EncodeToString a = EncodeToString b -> a = b.
Proof.
  intros E. apply (f_equal DecodeString) in E.
  rewrite !DecodeString_EncodeToString in E. congruence.
Qed.

Lemma EncodeToString_nonempty (src : list byte) :
  src <> [] -> EncodeToString src <> EmptyString.
Proof.
  intros H E. apply H. apply EncodeToString_inj. exact E.
Qed.

End Base64.

(** ** unicode/utf8 and unicode/utf16 *)

Module UTF8.

Definition RuneError : Z := 65533.          (* U+FFFD *)
Definition MaxRune : Z := 1114111.          (* U+10FFFF *)

(** The table [first] together with [acceptRanges]: for a leading byte, the
    length of the sequence and the range accepted for the second byte. *)
Definition first (z0 : Z) : option (Z * Z * Z) :=
  if (194 <=? z0) && (z0 <=? 223) then Some (2, 128, 191)
  else if z0 =? 224 then Some (3, 160, 191)
  else if (225 <=? z0) && (z0 <=? 236) then Some (3, 128, 191)
  else if z0 =? 237 then Some (3, 128, 159)
  else if (238 <=? z0) && (z0 <=? 239) then Some (3, 128, 191)
  else if z0 =? 240 then Some (4, 144, 191)
  else if (241 <=? z0) && (z0 <=? 243) then Some (4, 128, 191)
  else if z0 =? 244 then Some (4, 128, 143)
  else None.

Definition out_of (lo hi z : Z) : bool := (z <? lo) || (hi <? z).

(** [utf8.DecodeRune]: the rune at the head of [p] and its width in bytes;
    [(RuneError, 1)] for an invalid encoding.  Masks and shifts are written
    as [mod] and multiplication. *)
Definition DecodeRune (p : list byte) : Z * nat :=
  match p with
  | [] => (RuneError, 0%nat)
  | p0 :: tl =>
      let z0 := byte_to_Z p0 in
      if z0 <? 128 then (z0, 1%nat)
      else
        match first z0 with
        | None => (RuneError, 1%nat)
        | Some (sz, lo, hi) =>
            match tl with
            | [] => (RuneError, 1%nat)
            | b1 :: tl1 =>
                let z1 := byte_to_Z b1 in
                if out_of lo hi z1 then (RuneError, 1%nat)
                else if sz <=? 2 then (z0 mod 32 * 64 + z1 mod 64, 2%nat)
                else
                  match tl1 with
                  | [] => (RuneError, 1%nat)
                  | b2 :: tl2 =>
                      let z2 := byte_to_Z b2 in
                      if out_of 128 191 z2 then (RuneError, 1%nat)
                      else if sz <=? 3 then
                        (z0 mod 16 * 4096 + z1 mod 64 * 64 + z2 mod 64, 3%nat)
                      else
                        match tl2 with
                        | [] => (RuneError, 1%nat)
                        | b3 :: _ =>
                            let z3 := byte_to_Z b3 in
                            if out_of 128 191 z3 then (RuneError, 1%nat)
                            else
                              (z0 mod 8 * 262144 + z1 mod 64 * 4096 +
                               z2 mod 64 * 64 + z3 mod 64, 4%nat)
                        end
                  end
            end
        end
  end.

Definition encode3 (r : Z) : list byte :=
  [ byte_of_Z (224 + r / 4096); byte_of_Z (128 + r / 64 mod 64);
    byte_of_Z (128 + r mod 64) ].

(** [utf8.EncodeRune]. *)
Definition EncodeRune (r : Z) : list byte :=
  if (0 <=? r) && (r <=? 127) then [byte_of_Z r]
  else if (0 <=? r) && (r <=? 2047) then
    [ byte_of_Z (192 + r / 64); byte_of_Z (128 + r mod 64) ]
  else if (r <? 0) || (MaxRune <? r) || ((55296 <=? r) && (r <=? 57343)) then
    encode3 RuneError
  else if r <=? 65535 then encode3 r
  else
    [ byte_of_Z (240 + r / 262144); byte_of_Z (128 + r / 4096 mod 64);
      byte_of_Z (128 + r / 64 mod 64); byte_of_Z (128 + r mod 64) ].

(** A decoding that is not the error marker: what [utf8.Valid] tests. *)
Definition is_error (d : Z * nat) : bool :=
  (fst d =? RuneError) && (snd d =? 1)%nat.

(** [utf8.Valid]: [skip] counts the bytes of the current rune still to pass. *)
Fixpoint Valid_from (skip : nat) (p : list byte) : bool :=
  match p with
  | [] => true
  | _ :: tl =>
      match skip with
      | S k => Valid_from k tl
      | O =>
          let d := DecodeRune p in
          if is_error d then false else Valid_from (snd d - 1) tl
      end
  end.

Definition Valid (p : list byte) : bool := Valid_from 0 p.

(** [utf8.ValidString]. *)
Definition ValidString (s : string) : bool := Valid (list_byte_of_string s).

(** [utf16.IsSurrogate]. *)
Definition IsSurrogate (r : Z) : bool := (55296 <=? r) && (r <? 57344).

(** [utf16.DecodeRune]. *)
Definition DecodeSurrogates (r1 r2 : Z) : Z :=
  if (55296 <=? r1) && (r1 <? 56320) && (56320 <=? r2) && (r2 <? 57344)
  then (r1 - 55296) * 1024 + (r2 - 56320) + 65536
  else RuneError.

Ltac by_ranges :=
  repeat match goal with
         | b : byte |- _ =>
             lazymatch goal with
             | H : 0 <= byte_to_Z b < 256 |- _ => fail
             | _ => pose proof (byte_to_Z_range b)
             end
         end;
  Z.div_mod_to_equations; lia.

Ltac split_tests :=
  repeat match goal with
         | H : context [if ?c then _ else _] |- _ => destruct c eqn:?
         | H : (_, _) = (_, _) |- _ => inversion H; subst; clear H
         | H : Some _ = Some _ |- _ => inversion H; subst; clear H
         | H : None = Some _ |- _ => discriminate H
         | H : Some _ = None |- _ => discriminate H
         end.

Lemma first_size (z0 sz lo hi : Z) :
  first z0 = Some (sz, lo, hi) -> 2 <= sz <= 4.
Proof.
  unfold first. intros H. split_tests; lia.
Qed.

(** A decoded rune is never wider than the input. *)
Lemma DecodeRune_size (p : list byte) :
  (snd (DecodeRune p) <= length p)%nat.
Proof.
  destruct p as [|p0 [|b1 [|b2 [|b3 tl]]]]; cbn [DecodeRune length snd];
    repeat match goal with
           | |- context [if ?c then _ else _] => destruct c
           | |- context [match ?x with _ => _ end] => destruct x
           end; cbn [snd]; lia.
Qed.

Lemma DecodeRune_size_pos (p : list byte) :
  p <> [] -> (1 <= snd (DecodeRune p))%nat.
Proof.
  destruct p as [|p0 [|b1 [|b2 [|b3 tl]]]]; [congruence|..]; intros _;
    cbn [DecodeRune snd];
    repeat match goal with
           | |- context [if ?c then _ else _] => destruct c
           | |- context [match ?x with _ => _ end] => destruct x
           end; cbn [snd]; lia.
Qed.

(** Re-encoding a validly decoded rune gives back the bytes it was read from. *)
Lemma EncodeRune_DecodeRune (p : list byte) :
  p <> [] -> is_error (DecodeRune p) = false ->
  EncodeRune (fst (DecodeRune p)) = firstn (snd (DecodeRune p)) p.
Proof.
  intros Hp He.
  destruct p as [|p0 tl]; [congruence|]. clear Hp.
  unfold DecodeRune in *. cbv zeta in *.
  destruct (byte_to_Z p0 <? 128) eqn:E0.
  { cbn [fst snd firstn]. unfold EncodeRune.
    replace ((0 <=? byte_to_Z p0) && (byte_to_Z p0 <=? 127)) with true by by_ranges.
    rewrite byte_of_to_Z. reflexivity. }
  destruct (first (byte_to_Z p0)) as [[[sz lo] hi]|] eqn:F; [|vm_compute in He; discriminate He].
  cbv beta iota in *.
  destruct tl as [|b1 tl1]; [vm_compute in He; discriminate He|].
  destruct (out_of lo hi (byte_to_Z b1)) eqn:O1; [vm_compute in He; discriminate He|].
  unfold first in F. unfold out_of in O1.
  destruct (sz <=? 2) eqn:S2.
  { cbn [fst snd firstn]. unfold EncodeRune.
    split_tests; try lia;
    match goal with
    | |- context [if ?c then _ else _] => replace c with false by by_ranges
    end;
    match goal with
    | |- context [if ?c then _ else _] => replace c with true by by_ranges
    end;
    (f_equal; [|f_equal]; apply byte_of_Z_eq; by_ranges). }
  destruct tl1 as [|b2 tl2]; [vm_compute in He; discriminate He|].
  destruct (out_of 128 191 (byte_to_Z b2)) eqn:O2; [vm_compute in He; discriminate He|].
  unfold out_of in O2.
  destruct (sz <=? 3) eqn:S3.
  { cbn [fst snd firstn]. unfold EncodeRune, is_error, RuneError, MaxRune, encode3 in *.
    cbn [fst snd] in He.
    split_tests; try lia;
    repeat match goal with
    | |- context [if ?c then _ else _] =>
        first [ replace c with false by by_ranges | replace c with true by by_ranges ]
    end;
    (f_equal; [|f_equal; [|f_equal]]; apply byte_of_Z_eq; by_ranges). }
  destruct tl2 as [|b3 tl3]; [vm_compute in He; discriminate He|].
  destruct (out_of 128 191 (byte_to_Z b3)) eqn:O3; [vm_compute in He; discriminate He|].
  unfold out_of in O3.
  cbn [fst snd firstn]. unfold EncodeRune, is_error, RuneError, MaxRune, encode3 in *.
  cbn [fst snd] in He.
  split_tests; try lia;
  repeat match goal with
  | |- context [if ?c then _ else _] =>
      first [ replace c with false by by_ranges | replace c with true by by_ranges ]
  end;
  (f_equal; [|f_equal; [|f_equal; [|f_equal]]]; apply byte_of_Z_eq; by_ranges).
Qed.

(** Decoding looks only at the bytes of the rune it returns. *)
Lemma DecodeRune_prefix (p q : list byte) :
  p <> [] -> is_error (DecodeRune p) = false ->
  DecodeRune (firstn (snd (DecodeRune p)) p ++ q) = DecodeRune p.
Proof.
  intros Hp He.
  destruct p as [|p0 tl]; [congruence|]. clear Hp.
  destruct (DecodeRune (p0 :: tl)) as [r n] eqn:D. cbn [snd].
  unfold DecodeRune in D. cbv zeta in D.
  destruct (byte_to_Z p0 <? 128) eqn:E0.
  { inversion D; subst. cbn [firstn app]. unfold DecodeRune. rewrite E0. reflexivity. }
  destruct (first (byte_to_Z p0)) as [[[sz lo] hi]|] eqn:F;
    [|inversion D; subst; vm_compute in He; discriminate He].
  cbv beta iota in D.
  destruct tl as [|b1 tl1]; [inversion D; subst; vm_compute in He; discriminate He|].
  destruct (out_of lo hi (byte_to_Z b1)) eqn:O1;
    [inversion D; subst; vm_compute in He; discriminate He|].
  destruct (sz <=? 2) eqn:S2.
  { inversion D; subst. cbn [firstn app]. unfold DecodeRune.
    rewrite E0, F, O1, S2. reflexivity. }
  destruct tl1 as [|b2 tl2]; [inversion D; subst; vm_compute in He; discriminate He|].
  destruct (out_of 128 191 (byte_to_Z b2)) eqn:O2;
    [inversion D; subst; vm_compute in He; discriminate He|].
  destruct (sz <=? 3) eqn:S3.
  { inversion D; subst. cbn [firstn app]. unfold DecodeRune.
    rewrite E0, F, O1, S2, O2, S3. reflexivity. }
  destruct tl2 as [|b3 tl3]; [inversion D; subst; vm_compute in He; discriminate He|].
  destruct (out_of 128 191 (byte_to_Z b3)) eqn:O3;
    [inversion D; subst; vm_compute in He; discriminate He|].
  inversion D; subst. cbn [firstn app]. unfold DecodeRune.
  rewrite E0, F, O1, S2, O2, S3, O3. reflexivity.
Qed.

(** A rune of two bytes or more starts with a byte above 0x7f. *)
Lemma DecodeRune_ascii (p0 : byte) (tl : list byte) :
  byte_to_Z p0 < 128 -> DecodeRune (p0 :: tl) = (byte_to_Z p0, 1%nat).
Proof.
  intros H. unfold DecodeRune.
  replace (byte_to_Z p0 <? 128) with true by lia. reflexivity.
Qed.

Lemma Valid_from_skipn (k : nat) (p : list byte) :
  (k <= length p)%nat -> Valid_from k p = Valid_from 0 (skipn k p).
Proof.
  revert p. induction k as [|k IH]; intros p Hk; [reflexivity|].
  destruct p as [|b tl]; cbn [length] in Hk; [lia|].
  cbn [Valid_from skipn]. apply IH. lia.
Qed.

(** Induction over a valid UTF-8 string, one rune at a time. *)
Lemma Valid_ind (P : list byte -> Prop) :
  P [] ->
  (forall p, p <> [] -> is_error (DecodeRune p) = false ->
             Valid (skipn (snd (DecodeRune p)) p) = true ->
             P (skipn (snd (DecodeRune p)) p) -> P p) ->
  forall p, Valid p = true -> P p.
Proof.
  intros Hnil Hstep.
  assert (H : forall n p, (length p < n)%nat -> Valid p = true -> P p).
  { induction n as [|n IH]; intros p Hn Hv; [lia|].
    destruct p as [|b tl]; [exact Hnil|].
    pose proof (DecodeRune_size (b :: tl)) as Hs.
    pose proof (DecodeRune_size_pos (b :: tl) ltac:(discriminate)) as Hp.
    unfold Valid in Hv. cbn [Valid_from] in Hv.
    destruct (is_error (DecodeRune (b :: tl))) eqn:He; [discriminate|].
    cbn [length] in Hs, Hn.
    rewrite Valid_from_skipn in Hv by lia.
    assert (Hk : skipn (snd (DecodeRune (b :: tl)) - 1) tl
                 = skipn (snd (DecodeRune (b :: tl))) (b :: tl)).
    { destruct (snd (DecodeRune (b :: tl))) as [|k]; [lia|].
      cbn [skipn]. f_equal. lia. }
    rewrite Hk in Hv.
    apply Hstep; [discriminate|exact He|exact Hv|].
    apply IH; [|exact Hv].
    rewrite length_skipn. cbn [length]. lia. }
  intros p. apply (H (S (length p))). lia.
Qed.

End UTF8.

(** ** encoding/json: the text format *)

Module JSONText.

Import UTF8.

(** The syntax tree of a JSON text.  A number keeps the bytes of its literal,
    as the decoder does until it knows the type it stores into; strings and
    keys are unquoted. *)
#[local] Unset Elimination Schemes.

Inductive jvalue : Type :=
| JNull
| JBool (b : bool)
| JNumber (lit : list byte)
| JString (s : string)
| JArray (elems : list jvalue)
| JObject (members : list (string * jvalue)).

#[local] Set Elimination Schemes.

(** Induction over a tree, with the property known of every element of an
    array and of every member of an object. *)
Definition jvalue_ind (P : jvalue -> Prop)
  (fnull : P JNull) (fbool : forall b, P (JBool b))
  (fnumber : forall lit, P (JNumber lit)) (fstring : forall s, P (JString s))
  (farray : forall l, Forall P l -> P (JArray l))
  (fobject : forall m, Forall (fun kv => P (snd kv)) m -> P (JObject m))
  : forall j, P j :=
  fix F (j : jvalue) : P j :=
    match j with
    | JNull => fnull
    | JBool b => fbool b
    | JNumber lit => fnumber lit
    | JString s => fstring s
    | JArray l =>
        farray l ((fix G (l : list jvalue) : Forall P l :=
                     match l with
                     | [] => Forall_nil _
                     | x :: l' => Forall_cons _ (F x) (G l')
                     end) l)
    | JObject m =>
        fobject m ((fix G (m : list (string * jvalue))
                      : Forall (fun kv => P (snd kv)) m :=
                      match m with
                      | [] => Forall_nil _
                      | kv :: m' => Forall_cons _ (F (snd kv)) (G m')
                      end) m)
    end.

Definition bytes (s : string) : list byte := list_byte_of_string s.

(** The bytes of a text in which an apostrophe stands for a double quote;
    for writing JSON in examples. *)
Definition text (s : string) : list byte :=
  map (fun b => if Byte.eqb b "'"%byte then x22 else b) (bytes s).

Definition hex : list byte := bytes "0123456789abcdef".

Definition hex_digit (v : Z) : byte := nth (Z.to_nat v) hex x00.

(** [htmlSafeSet[b]] for [b] below 0x80: the bytes [Marshal] copies as they
    are. *)
Definition htmlSafe (z : Z) : bool :=
  (32 <=? z) && negb (z =? 34) && negb (z =? 92)
  && negb (z =? 60) && negb (z =? 62) && negb (z =? 38).

(** The escape [appendString] writes for a byte below 0x80 that is not safe. *)
Definition escape_byte (b : byte) : list byte :=
  let z := byte_to_Z b in
  if (z =? 92) || (z =? 34) then ["\"%byte; b]
  else if z =? 8 then bytes "\b"
  else if z =? 12 then bytes "\f"
  else if z =? 10 then bytes "\n"
  else if z =? 13 then bytes "\r"
  else if z =? 9 then bytes "\t"
  else bytes "\u00" ++ [hex_digit (z / 16); hex_digit (z mod 16)].

(** The loop of [appendString] (with [escapeHTML] set, as [Marshal] does).
    [skip] counts the bytes of the current rune that are already written. *)
Fixpoint quote_loop (skip : nat) (src : list byte) : list byte :=
  match src with
  | [] => []
  | b :: tl =>
      match skip with
      | S k => quote_loop k tl
      | O =>
          let z := byte_to_Z b in
          if z <? 128 then
            (if htmlSafe z then [b] else escape_byte b) ++ quote_loop 0 tl
          else
            let d := DecodeRune src in
            if is_error d then bytes "\ufffd" ++ quote_loop 0 tl
            else if (fst d =? 8232) || (fst d =? 8233) then
              bytes "\u202" ++ [hex_digit (fst d mod 16)]
              ++ quote_loop (snd d - 1) tl
            else firstn (snd d) src ++ quote_loop (snd d - 1) tl
      end
  end.

(** [appendString]: a Go string as a JSON string literal. *)
Definition quote (s : string) : list byte :=
  x22 :: quote_loop 0 (list_byte_of_string s) ++ [x22].

(** The value of a hexadecimal digit, as [getu4] reads it. *)
Definition hex_value (b : byte) : option Z :=
  let z := byte_to_Z b in
  if (48 <=? z) && (z <=? 57) then Some (z - 48)
  else if (97 <=? z) && (z <=? 102) then Some (z - 97 + 10)
  else if (65 <=? z) && (z <=? 70) then Some (z - 65 + 10)
  else None.

(** [getu4] on the four digits after a backslash and a 'u'. *)
Definition getu4 (h1 h2 h3 h4 : byte) : option Z :=
  match hex_value h1, hex_value h2, hex_value h3, hex_value h4 with
  | Some a, Some b, Some c, Some d => Some (a * 4096 + b * 256 + c * 16 + d)
  | _, _, _, _ => None
  end.

(** The character a one-letter escape stands for. *)
Definition simple_escape (e : byte) : option byte :=
  let z := byte_to_Z e in
  if (z =? 34) || (z =? 92) || (z =? 47) then Some e
  else if z =? 98 then Some x08
  else if z =? 102 then Some x0c
  else if z =? 110 then Some x0a
  else if z =? 114 then Some x0d
  else if z =? 116 then Some x09
  else None.

Definition prepend {A B : Type} (pre : list A) (r : option (list A * B))
  : option (list A * B) :=
  match r with
  | Some (l, rest) => Some (pre ++ l, rest)
  | None => None
  end.

(** A string literal after its opening quote: the scanner's string states
    together with [unquote].  Returns the unquoted bytes and the input after
    the closing quote; [None] is a syntax error. *)
Fixpoint string_body (skip : nat) (s : list byte)
  : option (list byte * list byte) :=
  match s with
  | [] => None
  | c :: tl =>
      match skip with
      | S k => string_body k tl
      | O =>
          let z := byte_to_Z c in
          if z =? 34 then Some ([], tl)
          else if z =? 92 then
            match tl with
            | [] => None
            | e :: tl1 =>
                match simple_escape e with
                | Some out => prepend [out] (string_body 0 tl1)
                | None =>
                    if byte_to_Z e =? 117 then
                      match tl1 with
                      | h1 :: h2 :: h3 :: h4 :: tl5 =>
                          match getu4 h1 h2 h3 h4 with
                          | None => None
                          | Some rr =>
                              if IsSurrogate rr then
                                match tl5 with
                                | bs :: u :: g1 :: g2 :: g3 :: g4 :: tl11 =>
                                    match
                                      (if (byte_to_Z bs =? 92) && (byte_to_Z u =? 117)
                                       then getu4 g1 g2 g3 g4 else None)
                                    with
                                    | Some rr1 =>
                                        let dec := DecodeSurrogates rr rr1 in
                                        if dec =? RuneError then
                                          prepend (EncodeRune RuneError) (string_body 0 tl5)
                                        else
                                          prepend (EncodeRune dec) (string_body 0 tl11)
                                    | None =>
                                        prepend (EncodeRune RuneError) (string_body 0 tl5)
                                    end
                                | _ => prepend (EncodeRune RuneError) (string_body 0 tl5)
                                end
                              else prepend (EncodeRune rr) (string_body 0 tl5)
                          end
                      | _ => None
                      end
                    else None
                end
            end
          else if z <? 32 then None
          else if z <? 128 then prepend [c] (string_body 0 tl)
          else
            let d := DecodeRune s in
            prepend (EncodeRune (fst d)) (string_body (snd d - 1) tl)
      end
  end.

Example quote_plain : quote "hello" = text "'hello'".
Proof. reflexivity. Qed.

Example quote_escapes :
  quote (string_of_list_byte ["a"%byte; x0a; "<"%byte; x01; x22])
  = text "'a\n\u003c\u0001\''".
Proof. reflexivity. Qed.

(** An invalid byte is written as the replacement character. *)
Example quote_invalid_utf8 :
  quote (string_of_list_byte [xff]) = text "'\ufffd'".
Proof. reflexivity. Qed.

Example string_body_surrogates :
  string_body 0 (text "\ud83d\udc4b!'rest")
  = Some ([xf0; x9f; x91; x8b; "!"%byte], bytes "rest").
Proof. reflexivity. Qed.

Lemma quote_loop_skip (k : nat) (p : list byte) :
  (k <= length p)%nat -> quote_loop k p = quote_loop 0 (skipn k p).
Proof.
  revert p. induction k as [|k IH]; intros p Hk; [reflexivity|].
  destruct p as [|b tl]; cbn [length] in Hk; [lia|].
  cbn [quote_loop skipn]. apply IH. lia.
Qed.

Lemma string_body_skip (pre s : list byte) :
  string_body (length pre) (pre ++ s) = string_body 0 s.
Proof.
  induction pre as [|b pre IH]; [reflexivity|].
  cbn [length app string_body]. exact IH.
Qed.

(** Unquoting undoes the escape written for a byte below 0x80. *)
Lemma string_body_ascii (b : byte) (r : list byte) :
  byte_to_Z b < 128 ->
  string_body 0 ((if htmlSafe (byte_to_Z b) then [b] else escape_byte b) ++ r)
  = prepend [b] (string_body 0 r).
Proof.
  destruct b; intros H; try (exfalso; revert H; vm_compute; congruence);
    clear H; reflexivity.
Qed.

Lemma skipn_pred_tl (n : nat) (b : byte) (tl : list byte) :
  (1 <= n)%nat -> skipn (n - 1) tl = skipn n (b :: tl).
Proof.
  intros H. destruct n as [|k]; [lia|]. cbn [skipn]. f_equal. lia.
Qed.

Lemma firstn_cons_pred (n : nat) (b : byte) (tl : list byte) :
  (1 <= n)%nat -> firstn n (b :: tl) = b :: firstn (n - 1) tl.
Proof.
  intros H. destruct n as [|k]; [lia|]. cbn [firstn]. do 2 f_equal. lia.
Qed.

(** Reading back a quoted valid UTF-8 string gives the string. *)
Lemma string_body_quote_loop (p rest : list byte) :
  Valid p = true ->
  string_body 0 (quote_loop 0 p ++ x22 :: rest) = Some (p, rest).
Proof.
  intros Hv. revert rest. pattern p. revert p Hv. apply Valid_ind.
  - intros rest. reflexivity.
  - intros p Hp He Hv IH rest.
    destruct p as [|b tl]; [congruence|]. clear Hp.
    pose proof (DecodeRune_size (b :: tl)) as Hs.
    pose proof (DecodeRune_size_pos (b :: tl) ltac:(discriminate)) as Hpos.
    cbn [length] in Hs.
    cbn [quote_loop]. cbv zeta.
    destruct (byte_to_Z b <? 128) eqn:E0.
    + rewrite DecodeRune_ascii in IH by lia. cbn [snd skipn] in IH.
      rewrite <- app_assoc, string_body_ascii by lia.
      rewrite IH. reflexivity.
    + rewrite He.
      pose proof (EncodeRune_DecodeRune (b :: tl) ltac:(discriminate) He) as Henc.
      set (d := DecodeRune (b :: tl)) in *.
      assert (Hsplit : firstn (snd d) (b :: tl) ++ skipn (snd d) (b :: tl) = b :: tl)
        by apply firstn_skipn.
      rewrite quote_loop_skip by lia.
      rewrite (skipn_pred_tl _ b) by lia.
      destruct ((fst d =? 8232) || (fst d =? 8233)) eqn:E1.
      * assert (Hc : fst d = 8232 \/ fst d = 8233) by lia.
        rewrite <- !app_assoc.
        assert (Hesc : forall r, string_body 0
                         (bytes "\u202" ++ [hex_digit (fst d mod 16)] ++ r)
                       = prepend (EncodeRune (fst d)) (string_body 0 r)).
        { intros r. destruct Hc as [-> | ->]; reflexivity. }
        rewrite Hesc, IH, Henc. cbn [prepend]. rewrite Hsplit. reflexivity.
      * rewrite <- app_assoc.
        set (X := quote_loop 0 (skipn (snd d) (b :: tl)) ++ x22 :: rest).
        assert (Hd : DecodeRune (firstn (snd d) (b :: tl) ++ X) = d).
        { apply DecodeRune_prefix; [discriminate|exact He]. }
        rewrite firstn_cons_pred in Hd |- * by lia.
        cbn [app string_body]. cbv zeta.
        replace (byte_to_Z b =? 34) with false by lia.
        replace (byte_to_Z b =? 92) with false by lia.
        replace (byte_to_Z b <? 32) with false by lia.
        rewrite E0.
        change (b :: firstn (snd d - 1) tl ++ X)
          with ((b :: firstn (snd d - 1) tl) ++ X).
        rewrite Hd.
        assert (Hlen : length (firstn (snd d - 1) tl) = (snd d - 1)%nat)
          by (rewrite length_firstn; lia).
        rewrite <- Hlen at 1.
        rewrite string_body_skip. subst X. rewrite IH, Henc. cbn [prepend].
        rewrite Hsplit. reflexivity.
Qed.

(** *** Numbers *)

Definition is_digit (c : byte) : bool :=
  (48 <=? byte_to_Z c) && (byte_to_Z c <=? 57).

Definition is_byte (c : byte) (z : Z) : bool := byte_to_Z c =? z.

Fixpoint span_digits (s : list byte) : list byte * list byte :=
  match s with
  | c :: tl =>
      if is_digit c then let (d, r) := span_digits tl in (c :: d, r)
      else ([], s)
  | [] => ([], [])
  end.

(** The integer part: a single 0, or a digit from 1 to 9 and more digits. *)
Definition scan_int (s : list byte) : option (list byte * list byte) :=
  match s with
  | c :: tl =>
      if is_byte c 48 then Some ([c], tl)
      else if is_digit c then let (d, r) := span_digits tl in Some (c :: d, r)
      else None
  | [] => None
  end.

(** An optional fraction: a dot and at least one digit. *)
Definition scan_frac (s : list byte) : option (list byte * list byte) :=
  match s with
  | c :: tl =>
      if is_byte c 46 then
        match span_digits tl with
        | ([], _) => None
        | (d, r) => Some (c :: d, r)
        end
      else Some ([], s)
  | [] => Some ([], s)
  end.

(** An optional exponent: e or E, an optional sign, at least one digit. *)
Definition scan_exp (s : list byte) : option (list byte * list byte) :=
  match s with
  | c :: tl =>
      if is_byte c 101 || is_byte c 69 then
        let (sign, tl') :=
          match tl with
          | g :: tl2 => if is_byte g 43 || is_byte g 45 then ([g], tl2) else ([], tl)
          | [] => ([], tl)
          end in
        match span_digits tl' with
        | ([], _) => None
        | (d, r) => Some (c :: sign ++ d, r)
        end
      else Some ([], s)
  | [] => Some ([], s)
  end.

(** The scanner's number states: the literal at the head of [s] and the
    input after it. *)
Definition scan_number (s : list byte) : option (list byte * list byte) :=
  let (sign, s1) :=
    match s with
    | c :: tl => if is_byte c 45 then ([c], tl) else ([], s)
    | [] => ([], s)
    end in
  match scan_int s1 with
  | None => None
  | Some (i, s2) =>
      match scan_frac s2 with
      | None => None
      | Some (f, s3) =>
          match scan_exp s3 with
          | None => None
          | Some (e, s4) => Some (sign ++ i ++ f ++ e, s4)
          end
      end
  end.

(** A well-formed number literal. *)
Definition is_number (lit : list byte) : bool :=
  match scan_number lit with
  | Some (_, []) => true
  | _ => false
  end.

(** *** strconv: integers in base 10 *)

Fixpoint bytes_of_uint (d : Decimal.uint) : list byte :=
  match d with
  | Decimal.Nil => []
  | Decimal.D0 d => "0"%byte :: bytes_of_uint d
  | Decimal.D1 d => "1"%byte :: bytes_of_uint d
  | Decimal.D2 d => "2"%byte :: bytes_of_uint d
  | Decimal.D3 d => "3"%byte :: bytes_of_uint d
  | Decimal.D4 d => "4"%byte :: bytes_of_uint d
  | Decimal.D5 d => "5"%byte :: bytes_of_uint d
  | Decimal.D6 d => "6"%byte :: bytes_of_uint d
  | Decimal.D7 d => "7"%byte :: bytes_of_uint d
  | Decimal.D8 d => "8"%byte :: bytes_of_uint d
  | Decimal.D9 d => "9"%byte :: bytes_of_uint d
  end.

(** [strconv.AppendInt(nil, n, 10)]. *)
Definition FormatInt (n : Z) : list byte :=
  match Z.to_int n with
  | Decimal.Pos d => bytes_of_uint d
  | Decimal.Neg d => "-"%byte :: bytes_of_uint d
  end.

Definition digit_cons (c : byte) : option (Decimal.uint -> Decimal.uint) :=
  match byte_to_Z c - 48 with
  | 0 => Some Decimal.D0 | 1 => Some Decimal.D1 | 2 => Some Decimal.D2
  | 3 => Some Decimal.D3 | 4 => Some Decimal.D4 | 5 => Some Decimal.D5
  | 6 => Some Decimal.D6 | 7 => Some Decimal.D7 | 8 => Some Decimal.D8
  | 9 => Some Decimal.D9
  | _ => None
  end.

Fixpoint uint_of_bytes (s : list byte) : option Decimal.uint :=
  match s with
  | [] => Some Decimal.Nil
  | c :: tl =>
      match digit_cons c, uint_of_bytes tl with
      | Some f, Some d => Some (f d)
      | _, _ => None
      end
  end.

Definition minInt64 : Z := - 2 ^ 63.
Definition maxInt64 : Z := 2 ^ 63 - 1.

Definition in_int64 (n : Z) : bool := (minInt64 <=? n) && (n <=? maxInt64).

(** [strconv.ParseInt(s, 10, 64)]; [None] is a syntax or a range error. *)
Definition ParseInt (s : list byte) : option Z :=
  let (neg, ds) :=
    match s with
    | c :: tl =>
        if is_byte c 45 then (true, tl)
        else if is_byte c 43 then (false, tl)
        else (false, s)
    | [] => (false, s)
    end in
  match ds with
  | [] => None
  | _ =>
      match uint_of_bytes ds with
      | Some d =>
          let n := if neg then - Z.of_uint d else Z.of_uint d in
          if in_int64 n then Some n else None
      | None => None
      end
  end.

Lemma uint_of_bytes_of_uint (d : Decimal.uint) :
  uint_of_bytes (bytes_of_uint d) = Some d.
Proof.
  induction d; cbn [bytes_of_uint uint_of_bytes]; try reflexivity;
    rewrite IHd; reflexivity.
Qed.

Lemma bytes_of_uint_digits (d : Decimal.uint) :
  span_digits (bytes_of_uint d) = (bytes_of_uint d, []).
Proof.
  induction d; cbn [bytes_of_uint span_digits]; try reflexivity;
    rewrite IHd; reflexivity.
Qed.

Lemma to_uint_unorm (p : positive) :
  Decimal.unorm (Pos.to_uint p) = Pos.to_uint p.
Proof.
  rewrite <- DecimalPos.Unsigned.to_of, DecimalPos.Unsigned.of_to. reflexivity.
Qed.

(** The decimal digits of a positive number do not start with a zero. *)
Lemma to_uint_head (p : positive) :
  exists c tl, bytes_of_uint (Pos.to_uint p) = c :: tl /\
               is_byte c 48 = false /\ is_digit c = true /\
               is_byte c 45 = false /\ is_byte c 43 = false /\
               span_digits tl = (tl, []).
Proof.
  pose proof (to_uint_unorm p) as Hn.
  pose proof (DecimalPos.Unsigned.to_uint_nonnil p) as Hnil.
  pose proof (DecimalPos.Unsigned.to_uint_nonzero p) as Hz.
  destruct (Pos.to_uint p) as [|d|d|d|d|d|d|d|d|d|d]; [congruence|..];
    try (eexists _, _; split; [reflexivity|];
         repeat split; try reflexivity; apply bytes_of_uint_digits).
  exfalso. rewrite DecimalFacts.unorm_D0 in Hn.
  destruct d as [|d|d|d|d|d|d|d|d|d|d]; try congruence;
    match type of Hn with
    | Decimal.unorm ?u = _ =>
        pose proof (DecimalFacts.nb_digits_unorm u ltac:(discriminate)) as Hl;
        rewrite Hn in Hl; cbn [Decimal.nb_digits] in Hl; lia
    end.
Qed.

Lemma is_number_FormatInt (n : Z) : is_number (FormatInt n) = true.
Proof.
  unfold FormatInt, Z.to_int. destruct n as [|p|p]; [reflexivity|..];
    cbv beta iota;
    destruct (to_uint_head p) as (c & tl & E & H0 & Hd & Hm & _ & Hs). all: rewrite E.
  - unfold is_number, scan_number. rewrite Hm. cbn [scan_int].
    rewrite H0, Hd, Hs. reflexivity.
  - unfold is_number, scan_number. change (is_byte "-"%byte 45) with true.
    cbv iota. cbn [scan_int]. rewrite H0, Hd, Hs. reflexivity.
Qed.

Lemma ParseInt_FormatInt (n : Z) :
  in_int64 n = true -> ParseInt (FormatInt n) = Some n.
Proof.
  intros Hr. pose proof (DecimalZ.of_to n) as Hz.
  unfold FormatInt, ParseInt. unfold Z.to_int, Z.of_int in *.
  destruct n as [|p|p].
  - reflexivity.
  - cbv beta iota in *.
    destruct (to_uint_head p) as (c & tl & E & H0 & Hd & Hm & Hp & Hs).
    rewrite E, Hm, Hp. cbv beta iota. rewrite <- E.
    rewrite uint_of_bytes_of_uint, Hz, Hr. reflexivity.
  - cbv beta iota in *. change (is_byte "-"%byte 45) with true. cbv iota.
    destruct (to_uint_head p) as (c & tl & E & _).
    rewrite uint_of_bytes_of_uint.
    replace (Z.of_uint (Pos.to_uint p)) with (- Z.neg p) by lia.
    cbn [Z.opp]. rewrite Hr. rewrite E. reflexivity.
Qed.

(** *** Printing *)

Fixpoint join (sep : list byte) (l : list (list byte)) : list byte :=
  match l with
  | [] => []
  | [x] => x
  | x :: l' => x ++ sep ++ join sep l'
  end.

(** The compact text of a tree, as the encoder writes it. *)
Fixpoint print (j : jvalue) : list byte :=
  match j with
  | JNull => bytes "null"
  | JBool true => bytes "true"
  | JBool false => bytes "false"
  | JNumber lit => lit
  | JString s => quote s
  | JArray l => "["%byte :: join [","%byte] (map print l) ++ ["]"%byte]
  | JObject m =>
      "{"%byte
      :: join [","%byte]
           (map (fun kv => quote (fst kv) ++ ":"%byte :: print (snd kv)) m)
      ++ ["}"%byte]
  end.

(** *** Parsing *)

Definition is_space (c : byte) : bool :=
  is_byte c 32 || is_byte c 9 || is_byte c 13 || is_byte c 10.

Fixpoint skip_space (s : list byte) : list byte :=
  match s with
  | c :: tl => if is_space c then skip_space tl else s
  | [] => []
  end.

(** [maxNestingDepth] of the scanner: arrays and objects nested deeper are
    a syntax error ("exceeded max depth"). *)
Definition maxNestingDepth : nat := Z.to_nat 10000.

Definition parser : Type := list byte -> option (jvalue * list byte).

(** The elements of a non-empty array, up to the closing bracket; [pv] reads
    one value.  [fuel] bounds the number of elements by its length; the input
    itself is enough. *)
Fixpoint parse_elems (pv : parser) (fuel : list byte) (s : list byte)
  : option (list jvalue * list byte) :=
  match fuel with
  | [] => None
  | _ :: n =>
      match pv s with
      | None => None
      | Some (v, s1) =>
          match skip_space s1 with
          | c :: s2 =>
              if is_byte c 44 then
                match parse_elems pv n (skip_space s2) with
                | Some (vs, r) => Some (v :: vs, r)
                | None => None
                end
              else if is_byte c 93 then Some ([v], s2)
              else None
          | [] => None
          end
      end
  end.

(** An array after its opening bracket. *)
Definition parse_array (pv : parser) (s : list byte)
  : option (jvalue * list byte) :=
  match skip_space s with
  | c :: s1 =>
      if is_byte c 93 then Some (JArray [], s1)
      else
        match parse_elems pv s (skip_space s) with
        | Some (vs, r) => Some (JArray vs, r)
        | None => None
        end
  | [] => None
  end.

(** The members of a non-empty object, up to the closing brace. *)
Fixpoint parse_members (pv : parser) (fuel : list byte) (s : list byte)
  : option (list (string * jvalue) * list byte) :=
  match fuel with
  | [] => None
  | _ :: n =>
      match s with
      | q :: s0 =>
          if is_byte q 34 then
            match string_body 0 s0 with
            | None => None
            | Some (key, s1) =>
                match skip_space s1 with
                | c :: s2 =>
                    if is_byte c 58 then
                      match pv (skip_space s2) with
                      | None => None
                      | Some (v, s3) =>
                          match skip_space s3 with
                          | c' :: s4 =>
                              if is_byte c' 44 then
                                match parse_members pv n (skip_space s4) with
                                | Some (kvs, r) =>
                                    Some ((string_of_list_byte key, v) :: kvs, r)
                                | None => None
                                end
                              else if is_byte c' 125 then
                                Some ([(string_of_list_byte key, v)], s4)
                              else None
                          | [] => None
                          end
                      end
                    else None
                | [] => None
                end
            end
          else None
      | [] => None
      end
  end.

(** An object after its opening brace. *)
Definition parse_object (pv : parser) (s : list byte)
  : option (jvalue * list byte) :=
  match skip_space s with
  | c :: s1 =>
      if is_byte c 125 then Some (JObject [], s1)
      else
        match parse_members pv s (skip_space s) with
        | Some (kvs, r) => Some (JObject kvs, r)
        | None => None
        end
  | [] => None
  end.

(** The rest of a literal name after its first letter. *)
Fixpoint expect (name : list byte) (s : list byte) : option (list byte) :=
  match name with
  | [] => Some s
  | n :: name' =>
      match s with
      | c :: tl => if Byte.eqb c n then expect name' tl else None
      | [] => None
      end
  end.

(** One value at the head of [s] (which does not start with a space), with
    [d] levels of nesting still allowed. *)
Fixpoint parse_value (d : nat) (s : list byte) {struct d}
  : option (jvalue * list byte) :=
  match s with
  | [] => None
  | c :: tl =>
      if is_byte c 34 then
        match string_body 0 tl with
        | Some (str, r) => Some (JString (string_of_list_byte str), r)
        | None => None
        end
      else if is_byte c 91 then
        match d with
        | O => None
        | S d' => parse_array (parse_value d') tl
        end
      else if is_byte c 123 then
        match d with
        | O => None
        | S d' => parse_object (parse_value d') tl
        end
      else if is_byte c 116 then
        option_map (pair (JBool true)) (expect (bytes "rue") tl)
      else if is_byte c 102 then
        option_map (pair (JBool false)) (expect (bytes "alse") tl)
      else if is_byte c 110 then
        option_map (pair JNull) (expect (bytes "ull") tl)
      else if is_byte c 45 || is_digit c then
        match scan_number s with
        | Some (lit, r) => Some (JNumber lit, r)
        | None => None
        end
      else None
  end.

(** [checkValid] and the tree it validates: one value, spaces around it
    allowed, nothing after it.  [None] is a [SyntaxError]. *)
Definition parse (data : list byte) : option jvalue :=
  match parse_value maxNestingDepth (skip_space data) with
  | Some (j, r) =>
      match skip_space r with
      | [] => Some j
      | _ => None
      end
  | None => None
  end.

Example parse_nested :
  parse (text " {'a': [1, -2.5e3, true, null], 'b' : {} } ")
  = Some (JObject [("a"%string, JArray [JNumber (bytes "1"); JNumber (bytes "-2.5e3");
                                 JBool true; JNull]);
                   ("b"%string, JObject [])]).
Proof. vm_compute. reflexivity. Qed.

Example parse_rejects :
  map parse [[]; text "01"; text "[1,]"; text "{'a':1,}"; text "tru";
             text "1 2"; text "'a"; text "-"; text "1."; text "[1"]
  = repeat None 10.
Proof. vm_compute. reflexivity. Qed.

Example print_nested :
  print (JObject [("a"%string, JArray [JNumber (bytes "1"); JString "x"]);
                  ("b"%string, JNull)])
  = text "{'a':[1,'x'],'b':null}".
Proof. reflexivity. Qed.

(** *** Printing then parsing *)

(** Trees the encoder can produce: number literals are well formed, strings
    and keys are valid UTF-8. *)
Fixpoint wf_json (j : jvalue) : bool :=
  match j with
  | JNull | JBool _ => true
  | JNumber lit => is_number lit
  | JString s => ValidString s
  | JArray l => forallb wf_json l
  | JObject m => forallb (fun kv => ValidString (fst kv) && wf_json (snd kv)) m
  end.

(** The number of arrays and objects around the innermost value. *)
Fixpoint depth (j : jvalue) : nat :=
  match j with
  | JArray l => S (list_max (map depth l))
  | JObject m => S (list_max (map (fun kv => depth (snd kv)) m))
  | _ => O
  end.

(** What may follow a value: the end of the input, or a byte that cannot
    continue a number. *)
Definition number_char (c : byte) : bool :=
  is_digit c || is_byte c 46 || is_byte c 101 || is_byte c 69
  || is_byte c 43 || is_byte c 45.

Definition delimited (rest : list byte) : Prop :=
  match rest with
  | [] => True
  | c :: _ => number_char c = false
  end.

(** A printed value starts with a byte that is neither a space nor a
    closing bracket. *)
Definition starts_ok (p : list byte) : Prop :=
  match p with
  | c :: _ => is_space c = false /\ is_byte c 93 = false
  | [] => False
  end.

Lemma skip_space_starts_ok (p rest : list byte) :
  starts_ok p -> skip_space (p ++ rest) = p ++ rest.
Proof.
  destruct p as [|c tl]; cbn [starts_ok]; [tauto|].
  intros [H _]. cbn [app skip_space]. rewrite H. reflexivity.
Qed.

Lemma starts_ok_length (p : list byte) : starts_ok p -> (1 <= length p)%nat.
Proof.
  destruct p; cbn [starts_ok length]; [tauto|lia].
Qed.

Ltac byte_tests :=
  unfold number_char, is_space, is_digit, is_byte in *;
  repeat match goal with
         | b : byte |- _ =>
             lazymatch goal with
             | H : 0 <= byte_to_Z b < 256 |- _ => fail
             | _ => pose proof (byte_to_Z_range b)
             end
         end.

Lemma span_digits_app (s rest d r : list byte) :
  span_digits s = (d, r) -> delimited rest ->
  span_digits (s ++ rest) = (d, r ++ rest).
Proof.
  revert d r. induction s as [|c tl IH]; intros d r H Hr.
  - inversion H; subst. cbn [app].
    destruct rest as [|c tl]; [reflexivity|].
    cbn [span_digits]. cbn [delimited] in Hr.
    replace (is_digit c) with false; [reflexivity|].
    unfold number_char in Hr. destruct (is_digit c); [discriminate|reflexivity].
  - cbn [app span_digits] in *. destruct (is_digit c).
    + destruct (span_digits tl) as [d' r'] eqn:E.
      inversion H; subst. rewrite (IH d' r eq_refl Hr). reflexivity.
    + inversion H; subst. reflexivity.
Qed.

Lemma span_digits_split (s d r : list byte) :
  span_digits s = (d, r) -> s = d ++ r.
Proof.
  revert d r. induction s as [|c tl IH]; intros d r H; cbn [span_digits] in H.
  - inversion H. reflexivity.
  - destruct (is_digit c).
    + destruct (span_digits tl) as [d' r'] eqn:E. inversion H; subst.
      cbn [app]. f_equal. apply IH. reflexivity.
    + inversion H. reflexivity.
Qed.

Lemma scan_int_app (s rest i r : list byte) :
  scan_int s = Some (i, r) -> delimited rest ->
  scan_int (s ++ rest) = Some (i, r ++ rest).
Proof.
  intros H Hr. destruct s as [|c tl]; [discriminate H|].
  cbn [app scan_int] in *. destruct (is_byte c 48).
  - inversion H; subst. reflexivity.
  - destruct (is_digit c); [|discriminate H].
    destruct (span_digits tl) as [d r'] eqn:E. inversion H; subst.
    rewrite (span_digits_app _ _ _ _ E Hr). reflexivity.
Qed.

Lemma scan_frac_app (s rest f r : list byte) :
  scan_frac s = Some (f, r) -> delimited rest ->
  scan_frac (s ++ rest) = Some (f, r ++ rest).
Proof.
  intros H Hr. destruct s as [|c tl].
  - inversion H; subst. cbn [app]. destruct rest as [|c tl]; [reflexivity|].
    cbn [scan_frac]. cbn [delimited] in Hr.
    replace (is_byte c 46) with false; [reflexivity|].
    unfold number_char in Hr. destruct (is_byte c 46); [|reflexivity].
    rewrite ?orb_true_r in Hr. discriminate.
  - cbn [app scan_frac] in *. destruct (is_byte c 46).
    + destruct (span_digits tl) as [d r'] eqn:E.
      rewrite (span_digits_app _ _ _ _ E Hr).
      destruct d; [discriminate H|]. inversion H; subst. reflexivity.
    + inversion H; subst. reflexivity.
Qed.

Lemma scan_exp_app (s rest e r : list byte) :
  scan_exp s = Some (e, r) -> delimited rest ->
  scan_exp (s ++ rest) = Some (e, r ++ rest).
Proof.
  intros H Hr. destruct s as [|c tl].
  - inversion H; subst. cbn [app]. destruct rest as [|c tl]; [reflexivity|].
    cbn [scan_exp]. cbn [delimited] in Hr.
    replace (is_byte c 101 || is_byte c 69) with false; [reflexivity|].
    unfold number_char in Hr.
    destruct (is_byte c 101), (is_byte c 69); rewrite ?orb_true_r in Hr;
      cbn in Hr |- *; congruence.
  - cbn [app scan_exp] in *. destruct (is_byte c 101 || is_byte c 69).
    + destruct tl as [|g tl2].
      * cbn in H. discriminate H.
      * cbn [app]. destruct (is_byte g 43 || is_byte g 45).
        -- destruct (span_digits tl2) as [d r'] eqn:E.
           rewrite (span_digits_app _ _ _ _ E Hr).
           destruct d; [discriminate H|]. inversion H; subst. reflexivity.
        -- destruct (span_digits (g :: tl2)) as [d r'] eqn:E.
           change (g :: tl2 ++ rest) with ((g :: tl2) ++ rest).
           rewrite (span_digits_app _ _ _ _ E Hr).
           destruct d; [discriminate H|]. inversion H; subst. reflexivity.
    + inversion H; subst. reflexivity.
Qed.

Lemma scan_number_app (s rest lit r : list byte) :
  scan_number s = Some (lit, r) -> delimited rest ->
  scan_number (s ++ rest) = Some (lit, r ++ rest).
Proof.
  intros H Hr. unfold scan_number in *.
  destruct s as [|c tl]; [discriminate H|].
  cbn [app].
  assert (G : forall sign s1,
             match scan_int s1 with
             | Some (i, s2) =>
                 match scan_frac s2 with
                 | Some (f, s3) =>
                     match scan_exp s3 with
                     | Some (e, s4) => Some (sign ++ i ++ f ++ e, s4)
                     | None => None
                     end
                 | None => None
                 end
             | None => None
             end = Some (lit, r) ->
             match scan_int (s1 ++ rest) with
             | Some (i, s2) =>
                 match scan_frac s2 with
                 | Some (f, s3) =>
                     match scan_exp s3 with
                     | Some (e, s4) => Some (sign ++ i ++ f ++ e, s4)
                     | None => None
                     end
                 | None => None
                 end
             | None => None
             end = Some (lit, r ++ rest)).
  { intros sign s1 G.
    destruct (scan_int s1) as [[i s2]|] eqn:E1; [|discriminate G].
    rewrite (scan_int_app _ _ _ _ E1 Hr).
    destruct (scan_frac s2) as [[f s3]|] eqn:E2; [|discriminate G].
    rewrite (scan_frac_app _ _ _ _ E2 Hr).
    destruct (scan_exp s3) as [[e s4]|] eqn:E3; [|discriminate G].
    rewrite (scan_exp_app _ _ _ _ E3 Hr).
    inversion G; subst. reflexivity. }
  destruct (is_byte c 45).
  - apply G. exact H.
  - change (c :: tl ++ rest) with ((c :: tl) ++ rest). apply G. exact H.
Qed.

Lemma scan_int_split (s i r : list byte) :
  scan_int s = Some (i, r) -> s = i ++ r.
Proof.
  destruct s as [|c tl]; [discriminate|]. cbn [scan_int].
  destruct (is_byte c 48); [intros H; inversion H; reflexivity|].
  destruct (is_digit c); [|discriminate].
  destruct (span_digits tl) as [d r'] eqn:E. intros H; inversion H; subst.
  cbn [app]. f_equal. apply span_digits_split. exact E.
Qed.

Lemma scan_frac_split (s f r : list byte) :
  scan_frac s = Some (f, r) -> s = f ++ r.
Proof.
  destruct s as [|c tl]; [intros H; inversion H; reflexivity|]. cbn [scan_frac].
  destruct (is_byte c 46); [|intros H; inversion H; reflexivity].
  destruct (span_digits tl) as [d r'] eqn:E.
  destruct d; [discriminate|]. intros H; inversion H; subst.
  cbn [app]. f_equal. apply (span_digits_split _ _ _ E).
Qed.

Lemma scan_exp_split (s e r : list byte) :
  scan_exp s = Some (e, r) -> s = e ++ r.
Proof.
  destruct s as [|c tl]; [intros H; inversion H; reflexivity|]. cbn [scan_exp].
  destruct (is_byte c 101 || is_byte c 69); [|intros H; inversion H; reflexivity].
  destruct tl as [|g tl2]; [cbn; discriminate|].
  destruct (is_byte g 43 || is_byte g 45).
  - destruct (span_digits tl2) as [d r'] eqn:E.
    destruct d; [discriminate|]. intros H; inversion H; subst.
    cbn [app]. do 2 f_equal. apply (span_digits_split _ _ _ E).
  - destruct (span_digits (g :: tl2)) as [d r'] eqn:E.
    destruct d; [discriminate|]. intros H; inversion H; subst.
    cbn [app]. f_equal. apply (span_digits_split _ _ _ E).
Qed.

Lemma scan_number_split (s lit r : list byte) :
  scan_number s = Some (lit, r) -> s = lit ++ r.
Proof.
  unfold scan_number. intros H.
  set (p := match s with
            | c :: tl => if is_byte c 45 then ([c], tl) else ([], s)
            | [] => ([], s)
            end) in *.
  assert (Hp : s = fst p ++ snd p).
  { subst p. destruct s as [|c tl]; [reflexivity|].
    destruct (is_byte c 45); reflexivity. }
  destruct p as [sign s1]. cbn [fst snd] in Hp.
  destruct (scan_int s1) as [[i s2]|] eqn:E1; [|discriminate H].
  destruct (scan_frac s2) as [[f s3]|] eqn:E2; [|discriminate H].
  destruct (scan_exp s3) as [[e s4]|] eqn:E3; [|discriminate H].
  inversion H; subst.
  rewrite (scan_int_split _ _ _ E1), (scan_frac_split _ _ _ E2),
    (scan_exp_split _ _ _ E3).
  rewrite <- !app_assoc. reflexivity.
Qed.

(** A well-formed literal is read back whole when a delimiter follows. *)
Lemma scan_number_literal (lit rest : list byte) :
  is_number lit = true -> delimited rest ->
  scan_number (lit ++ rest) = Some (lit, rest).
Proof.
  unfold is_number. intros H Hr.
  destruct (scan_number lit) as [[l r]|] eqn:E; [|discriminate H].
  destruct r; [|discriminate H].
  pose proof (scan_number_split _ _ _ E) as Hs. rewrite app_nil_r in Hs. subst l.
  apply (scan_number_app _ _ _ _ E Hr).
Qed.

Lemma is_number_head (lit : list byte) :
  is_number lit = true ->
  exists c tl, lit = c :: tl /\ (is_byte c 45 || is_digit c) = true.
Proof.
  unfold is_number, scan_number. intros H.
  destruct lit as [|c tl]; [discriminate H|].
  exists c, tl. split; [reflexivity|].
  destruct (is_byte c 45) eqn:E; [reflexivity|]. cbn [orb].
  cbn [scan_int] in H.
  destruct (is_byte c 48) eqn:E0.
  - unfold is_byte in E0. unfold is_digit. lia.
  - destruct (is_digit c); [reflexivity|discriminate H].
Qed.

Lemma parse_value_number (d : nat) (c : byte) (tl : list byte) :
  (is_byte c 45 || is_digit c) = true ->
  parse_value d (c :: tl)
  = match scan_number (c :: tl) with
    | Some (lit, r) => Some (JNumber lit, r)
    | None => None
    end.
Proof.
  intros H.
  assert (T : is_byte c 34 = false /\ is_byte c 91 = false /\ is_byte c 123 = false
              /\ is_byte c 116 = false /\ is_byte c 102 = false
              /\ is_byte c 110 = false).
  { byte_tests. lia. }
  destruct T as (T1 & T2 & T3 & T4 & T5 & T6).
  destruct d; cbn [parse_value]; rewrite T1, T2, T3, T4, T5, T6, H; reflexivity.
Qed.

Lemma starts_ok_quote (s : string) : starts_ok (quote s).
Proof. unfold quote. cbn [starts_ok]. split; reflexivity. Qed.

Lemma parse_value_string (d : nat) (s : string) (rest : list byte) :
  ValidString s = true ->
  parse_value d (quote s ++ rest) = Some (JString s, rest).
Proof.
  intros Hv. unfold quote. cbn [app].
  assert (E : parse_value d
                (x22 :: (quote_loop 0 (list_byte_of_string s) ++ [x22]) ++ rest)
              = match string_body 0
                        ((quote_loop 0 (list_byte_of_string s) ++ [x22]) ++ rest) with
                | Some (str, r) => Some (JString (string_of_list_byte str), r)
                | None => None
                end) by (destruct d; reflexivity).
  rewrite E, <- app_assoc. cbn [app].
  rewrite string_body_quote_loop by exact Hv.
  rewrite string_of_list_byte_of_string. reflexivity.
Qed.

Section Elements.

Variable pv : parser.

Lemma parse_elems_join (l : list jvalue) (rest : list byte) (fuel : list byte) :
  l <> [] -> (length l <= length fuel)%nat ->
  Forall (fun x => starts_ok (print x) /\
                   forall r, delimited r -> pv (print x ++ r) = Some (x, r)) l ->
  parse_elems pv fuel (join [","%byte] (map print l) ++ "]"%byte :: rest)
  = Some (l, rest).
Proof.
  revert fuel. induction l as [|x l IH]; intros fuel Hne Hf HF; [congruence|].
  clear Hne. inversion HF as [|? ? [Hx1 Hx2] HF']; subst.
  destruct fuel as [|f0 n]; cbn [length] in Hf; [lia|].
  cbn [parse_elems].
  destruct l as [|y l].
  - cbn [map join]. rewrite Hx2 by reflexivity. reflexivity.
  - change (join [","%byte] (map print (x :: y :: l)))
      with (print x ++ [","%byte] ++ join [","%byte] (map print (y :: l))).
    rewrite <- !app_assoc. rewrite Hx2 by reflexivity.
    cbn [app skip_space].
    change (is_space ","%byte) with false. cbv iota.
    change (is_byte ","%byte 44) with true. cbv iota.
    assert (Hy : starts_ok (join [","%byte] (map print (y :: l)))).
    { inversion HF' as [|? ? [Hy1 _] _]; subst.
      cbn [map join]. destruct (print y) as [|c tl]; [destruct Hy1|].
      destruct (map print l); exact Hy1. }
    rewrite skip_space_starts_ok by exact Hy.
    rewrite IH; [reflexivity|discriminate|cbn [length] in *; lia|exact HF'].
Qed.

Lemma parse_members_join (m : list (string * jvalue)) (rest : list byte)
      (fuel : list byte) :
  m <> [] -> (length m <= length fuel)%nat ->
  Forall (fun kv => ValidString (fst kv) = true /\ starts_ok (print (snd kv)) /\
                    forall r, delimited r ->
                              pv (print (snd kv) ++ r) = Some (snd kv, r)) m ->
  parse_members pv fuel
    (join [","%byte] (map (fun kv => quote (fst kv) ++ ":"%byte :: print (snd kv)) m)
     ++ "}"%byte :: rest)
  = Some (m, rest).
Proof.
  revert fuel. induction m as [|[k v] m IH]; intros fuel Hne Hf HF; [congruence|].
  clear Hne. inversion HF as [|? ? (Hk & Hv1 & Hv2) HF']; subst.
  cbn [fst snd] in *.
  destruct fuel as [|f0 n]; cbn [length] in Hf; [lia|].
  assert (Hstep : forall X, delimited X ->
            parse_members pv (f0 :: n) (quote k ++ ":"%byte :: print v ++ X)
            = match skip_space X with
              | c' :: s4 =>
                  if is_byte c' 44 then
                    match parse_members pv n (skip_space s4) with
                    | Some (kvs, r) => Some ((k, v) :: kvs, r)
                    | None => None
                    end
                  else if is_byte c' 125 then Some ([(k, v)], s4)
                  else None
              | [] => None
              end).
  { intros X HX. unfold quote. cbn [app parse_members].
    change (is_byte x22 34) with true. cbv iota.
    rewrite <- app_assoc. cbn [app].
    rewrite string_body_quote_loop by exact Hk.
    cbn [skip_space]. change (is_space ":"%byte) with false. cbv iota.
    change (is_byte ":"%byte 58) with true. cbv iota.
    rewrite skip_space_starts_ok by exact Hv1.
    rewrite Hv2 by exact HX.
    rewrite string_of_list_byte_of_string. reflexivity. }
  destruct m as [|kv' m].
  - cbn [map join fst snd]. rewrite <- app_assoc. cbn [app].
    rewrite Hstep by reflexivity. reflexivity.
  - change (join [","%byte]
              (map (fun kv => quote (fst kv) ++ ":"%byte :: print (snd kv))
                 ((k, v) :: kv' :: m)))
      with ((quote k ++ ":"%byte :: print v) ++ [","%byte]
            ++ join [","%byte]
                 (map (fun kv => quote (fst kv) ++ ":"%byte :: print (snd kv))
                    (kv' :: m))).
    rewrite <- !app_assoc. cbn [app].
    rewrite Hstep by reflexivity.
    cbn [skip_space]. change (is_space ","%byte) with false. cbv iota.
    change (is_byte ","%byte 44) with true. cbv iota.
    assert (Hy : starts_ok (join [","%byte]
                   (map (fun kv => quote (fst kv) ++ ":"%byte :: print (snd kv))
                      (kv' :: m)))).
    { cbn [map join]. destruct (map _ m); split; reflexivity. }
    rewrite skip_space_starts_ok by exact Hy.
    rewrite IH; [reflexivity|discriminate|cbn [length] in *; lia|exact HF'].
Qed.

End Elements.

Lemma length_join_ge (l : list jvalue) :
  Forall (fun x => starts_ok (print x)) l ->
  (length l <= length (join [","%byte] (map print l)))%nat.
Proof.
  induction 1 as [|x l Hx _ IH]; [reflexivity|].
  apply starts_ok_length in Hx.
  cbn [map join length]. destruct (map print l) eqn:E.
  - destruct l; [cbn [length]; lia|discriminate E].
  - rewrite !length_app. cbn [length] in *. lia.
Qed.

Lemma length_join_members_ge (m : list (string * jvalue)) :
  (length m
   <= length (join [","%byte]
                (map (fun kv => quote (fst kv) ++ ":"%byte :: print (snd kv)) m)))%nat.
Proof.
  induction m as [|kv m IH]; [reflexivity|].
  cbn [map join length].
  destruct (map (fun kv => quote (fst kv) ++ ":"%byte :: print (snd kv)) m) eqn:E.
  - destruct m; [|discriminate E]. unfold quote. cbn [length app]. lia.
  - rewrite !length_app. unfold quote. cbn [length app] in *. lia.
Qed.

Lemma list_max_map_le {A : Type} (f : A -> nat) (l : list A) (n : nat) :
  (list_max (map f l) <= n)%nat -> Forall (fun x => (f x <= n)%nat) l.
Proof.
  intros H. apply list_max_le in H. rewrite Forall_map in H. exact H.
Qed.

(** Parsing the text printed for a tree gives the tree back, provided the
    tree is not nested deeper than the parser allows. *)
Lemma parse_value_print (j : jvalue) :
  wf_json j = true ->
  starts_ok (print j) /\
  forall d rest, (depth j <= d)%nat -> delimited rest ->
                 parse_value d (print j ++ rest) = Some (j, rest).
Proof.
  induction j as [ |b|lit|s|l IH|m IH] using jvalue_ind; intros Hwf.
  - split; [split; reflexivity|]. intros d rest _ _. destruct d; reflexivity.
  - split; [destruct b; split; reflexivity|].
    intros d rest _ _. destruct b, d; reflexivity.
  - cbn [wf_json] in Hwf. destruct (is_number_head lit Hwf) as (c & tl & -> & Hc).
    split.
    + cbn [print starts_ok]. byte_tests. lia.
    + intros d rest _ Hr. cbn [print app].
      rewrite parse_value_number by exact Hc.
      change (c :: tl ++ rest) with ((c :: tl) ++ rest).
      rewrite scan_number_literal by assumption. reflexivity.
  - cbn [wf_json] in Hwf. split; [apply starts_ok_quote|].
    intros d rest _ _. cbn [print]. apply parse_value_string. exact Hwf.
  - cbn [wf_json] in Hwf. rewrite forallb_forall in Hwf.
    split; [split; reflexivity|].
    intros d rest Hd Hr. cbn [depth] in Hd.
    destruct d as [|d']; [lia|].
    apply le_S_n, list_max_map_le in Hd.
    cbn [print app]. rewrite <- app_assoc. cbn [app].
    assert (E : forall X, parse_value (S d') ("["%byte :: X)
                          = parse_array (parse_value d') X) by reflexivity.
    rewrite E. clear E.
    assert (HF : Forall (fun x => starts_ok (print x) /\
                  forall r, delimited r ->
                            parse_value d' (print x ++ r) = Some (x, r)) l).
    { rewrite Forall_forall in IH, Hd |- *. intros x Hx.
      destruct (IH x Hx (Hwf x Hx)) as [H1 H2].
      split; [exact H1|]. intros r Hr'. apply H2; [apply Hd; exact Hx|exact Hr']. }
    destruct l as [|x l]; [reflexivity|].
    assert (Hs : starts_ok (join [","%byte] (map print (x :: l)))).
    { inversion HF as [|? ? [Hx1 _] _]; subst.
      cbn [map join]. destruct (print x) as [|c tl]; [destruct Hx1|].
      destruct (map print l); exact Hx1. }
    unfold parse_array.
    rewrite skip_space_starts_ok by exact Hs.
    destruct (join [","%byte] (map print (x :: l))) as [|c tl] eqn:Ej;
      [destruct Hs|].
    cbn [app]. destruct Hs as [_ Hs]. rewrite Hs.
    change (c :: tl ++ "]"%byte :: rest) with ((c :: tl) ++ "]"%byte :: rest).
    rewrite <- Ej.
    rewrite parse_elems_join; [reflexivity|discriminate| |exact HF].
    rewrite length_app.
    pose proof (length_join_ge (x :: l)) as Hl.
    specialize (Hl ltac:(eapply Forall_impl; [|exact HF]; cbn; tauto)).
    lia.
  - cbn [wf_json] in Hwf. rewrite forallb_forall in Hwf.
    split; [split; reflexivity|].
    intros d rest Hd Hr. cbn [depth] in Hd.
    destruct d as [|d']; [lia|].
    apply le_S_n, list_max_map_le in Hd.
    cbn [print app]. rewrite <- app_assoc. cbn [app].
    assert (E : forall X, parse_value (S d') ("{"%byte :: X)
                          = parse_object (parse_value d') X) by reflexivity.
    rewrite E. clear E.
    assert (HF : Forall (fun kv => ValidString (fst kv) = true /\
                  starts_ok (print (snd kv)) /\
                  forall r, delimited r ->
                            parse_value d' (print (snd kv) ++ r) = Some (snd kv, r)) m).
    { rewrite Forall_forall in IH, Hd |- *. intros kv Hkv.
      specialize (Hwf kv Hkv). apply andb_true_iff in Hwf. destruct Hwf as [Hk Hv].
      destruct (IH kv Hkv Hv) as [H1 H2].
      split; [exact Hk|]. split; [exact H1|].
      intros r Hr'. apply H2; [apply Hd; exact Hkv|exact Hr']. }
    destruct m as [|kv m]; [reflexivity|].
    set (J := join [","%byte]
                (map (fun kv => quote (fst kv) ++ ":"%byte :: print (snd kv)) (kv :: m))).
    assert (Hs : exists tl, J = x22 :: tl).
    { subst J. cbn [map join]. unfold quote at 1.
      destruct (map _ m); cbn [app]; eexists; reflexivity. }
    destruct Hs as [tl Ej].
    unfold parse_object. rewrite Ej. cbn [app skip_space].
    change (is_space x22) with false. cbv iota.
    change (is_byte x22 125) with false. cbv iota.
    change (x22 :: tl ++ "}"%byte :: rest)
      with ((x22 :: tl) ++ "}"%byte :: rest).
    rewrite <- Ej. subst J.
    rewrite parse_members_join; [reflexivity|discriminate| |exact HF].
    rewrite length_app.
    pose proof (length_join_members_ge (kv :: m)). lia.
Qed.

(** [parse] inverts [print] on trees of depth at most [maxNestingDepth]. *)
Lemma parse_print (j : jvalue) :
  wf_json j = true -> (depth j <= maxNestingDepth)%nat ->
  parse (print j) = Some j.
Proof.
  intros Hwf Hd. destruct (parse_value_print j Hwf) as [Hs Hp].
  unfold parse.
  rewrite <- (app_nil_r (print j)) at 1.
  rewrite skip_space_starts_ok by exact Hs.
  rewrite Hp by (exact Hd || exact I). reflexivity.
Qed.

End JSONText.

(** ** encoding/json: values, [Marshal] and [Unmarshal] *)

(** The type [float64] is a parameter: no property below depends on
    floating-point arithmetic. *)
Class Float64 : Type := float64 : Type.

(** [strconv.ParseFloat] and the float formatting of the encoder, also
    parameters.  [FormatFloat] is [None] for NaN and the infinities, which
    have no JSON text. *)
Class Strconv {T : Float64} : Type := {
  ParseFloat : list byte -> option float64;
  FormatFloat : float64 -> option (list byte)
}.

Module JSON.

Import JSONText.

(** The types of the destinations [Unmarshal] stores into:
    [bool], [int64], [float64], [string], [[]T], [map[string]T],
    [interface{}]. *)
Inductive GoType : Type :=
| TBool
| TInt64
| TFloat64
| TString
| TSlice (elem : GoType)
| TMap (elem : GoType)
| TAny.

Fixpoint type_name (t : GoType) : string :=
  match t with
  | TBool => "bool"
  | TInt64 => "int64"
  | TFloat64 => "float64"
  | TString => "string"
  | TSlice e => "[]" ++ type_name e
  | TMap e => "map[string]" ++ type_name e
  | TAny => "interface {}"
  end.

(** The errors of the package. *)
Inductive Error : Type :=
| SyntaxError
| InvalidUnmarshalError
| UnmarshalTypeError (value : string) (type : string)
| UnsupportedTypeError (type : string)
| UnsupportedValueError.

(** Maps with string keys, kept as association lists in increasing key
    order, the order in which [Marshal] writes them. *)
Section Maps.

Context {A : Type}.

Fixpoint map_insert (k : string) (v : A) (m : list (string * A))
  : list (string * A) :=
  match m with
  | [] => [(k, v)]
  | (k', v') :: m' =>
      match String.compare k k' with
      | Lt => (k, v) :: m
      | Eq => (k, v) :: m'
      | Gt => (k', v') :: map_insert k v m'
      end
  end.

Definition key_lt (k k' : string) : bool :=
  match String.compare k k' with
  | Lt => true
  | _ => false
  end.

(** Every key is below all the keys after it. *)
Fixpoint keys_increasing (m : list (string * A)) : bool :=
  match m with
  | [] => true
  | (k, _) :: m' => forallb (fun kv => key_lt k (fst kv)) m' && keys_increasing m'
  end.

Lemma map_insert_last (k : string) (v : A) (m : list (string * A)) :
  forallb (fun kv => key_lt (fst kv) k) m = true ->
  map_insert k v m = m ++ [(k, v)].
Proof.
  induction m as [|[k' v'] m IH]; intros H; [reflexivity|].
  cbn [forallb fst] in H. apply andb_true_iff in H. destruct H as [H1 H2].
  cbn [map_insert app]. unfold key_lt in H1.
  rewrite String.compare_antisym.
  destruct (String.compare k' k); try discriminate H1.
  cbn [CompOpp]. rewrite IH by exact H2. reflexivity.
Qed.

Lemma keys_increasing_app (p : list (string * A)) (x : string * A)
      (m : list (string * A)) :
  keys_increasing (p ++ x :: m) = true ->
  forallb (fun kv => key_lt (fst kv) (fst x)) p = true.
Proof.
  induction p as [|[k v] p IH]; intros H; [reflexivity|].
  cbn [app keys_increasing] in H. apply andb_true_iff in H. destruct H as [H1 H2].
  cbn [forallb fst]. rewrite IH by exact H2.
  rewrite forallb_app in H1. apply andb_true_iff in H1. destruct H1 as [_ H1].
  cbn [forallb] in H1. apply andb_true_iff in H1. destruct H1 as [H1 _].
  rewrite H1. reflexivity.
Qed.

End Maps.

Section WithStrconv.

Context {T : Float64} {F : Strconv}.

#[local] Unset Elimination Schemes.

(** Go values, as [Marshal] sees them and [Unmarshal] builds them.  [VNil]
    is the nil interface, slice or map; a struct is the list of its fields
    in declaration order. *)
Inductive GoValue : Type :=
| VNil
| VBool (b : bool)
| VInt (n : Z)
| VFloat64 (f : float64)
| VString (s : string)
| VSlice (elems : list GoValue)
| VMap (entries : list (string * GoValue))
| VStruct (fields : list (string * GoValue))
| VChan
| VFunc
| VComplex128.

#[local] Set Elimination Schemes.

Definition GoValue_ind (P : GoValue -> Prop)
  (fnil : P VNil) (fbool : forall b, P (VBool b)) (fint : forall n, P (VInt n))
  (ffloat : forall f, P (VFloat64 f)) (fstring : forall s, P (VString s))
  (fslice : forall l, Forall P l -> P (VSlice l))
  (fmap : forall m, Forall (fun kv => P (snd kv)) m -> P (VMap m))
  (fstruct : forall m, Forall (fun kv => P (snd kv)) m -> P (VStruct m))
  (fchan : P VChan) (ffunc : P VFunc) (fcomplex : P VComplex128)
  : forall v, P v :=
  fix G (v : GoValue) : P v :=
    match v with
    | VNil => fnil
    | VBool b => fbool b
    | VInt n => fint n
    | VFloat64 f => ffloat f
    | VString s => fstring s
    | VSlice l =>
        fslice l ((fix H (l : list GoValue) : Forall P l :=
                     match l with
                     | [] => Forall_nil _
                     | x :: l' => Forall_cons _ (G x) (H l')
                     end) l)
    | VMap m =>
        fmap m ((fix H (m : list (string * GoValue))
                   : Forall (fun kv => P (snd kv)) m :=
                   match m with
                   | [] => Forall_nil _
                   | kv :: m' => Forall_cons _ (G (snd kv)) (H m')
                   end) m)
    | VStruct m =>
        fstruct m ((fix H (m : list (string * GoValue))
                      : Forall (fun kv => P (snd kv)) m :=
                      match m with
                      | [] => Forall_nil _
                      | kv :: m' => Forall_cons _ (G (snd kv)) (H m')
                      end) m)
    | VChan => fchan
    | VFunc => ffunc
    | VComplex128 => fcomplex
    end.

(** A struct field is exported when its name starts with an upper-case
    letter; the encoder leaves the other fields out. *)
Definition exported (name : string) : bool :=
  match name with
  | String c _ => (65 <=? char_to_Z c) && (char_to_Z c <=? 90)
  | EmptyString => false
  end.

(** *** Marshal *)

(** The tree the encoder writes for a value, or the first error it meets. *)
Fixpoint to_json (v : GoValue) : Error + jvalue :=
  match v with
  | VNil => inr JNull
  | VBool b => inr (JBool b)
  | VInt n => inr (JNumber (FormatInt n))
  | VFloat64 f =>
      match FormatFloat f with
      | Some lit => inr (JNumber lit)
      | None => inl UnsupportedValueError
      end
  | VString s => inr (JString s)
  | VSlice l =>
      match
        (fix elems (l : list GoValue) : Error + list jvalue :=
           match l with
           | [] => inr []
           | x :: l' =>
               match to_json x with
               | inl e => inl e
               | inr j =>
                   match elems l' with
                   | inl e => inl e
                   | inr js => inr (j :: js)
                   end
               end
           end) l
      with
      | inl e => inl e
      | inr js => inr (JArray js)
      end
  | VMap m =>
      match
        (fix members (m : list (string * GoValue)) : Error + list (string * jvalue) :=
           match m with
           | [] => inr []
           | (k, x) :: m' =>
               match to_json x with
               | inl e => inl e
               | inr j =>
                   match members m' with
                   | inl e => inl e
                   | inr js => inr ((k, j) :: js)
                   end
               end
           end) m
      with
      | inl e => inl e
      | inr js => inr (JObject js)
      end
  | VStruct m =>
      match
        (fix fields (m : list (string * GoValue)) : Error + list (string * jvalue) :=
           match m with
           | [] => inr []
           | (k, x) :: m' =>
               if exported k then
                 match to_json x with
                 | inl e => inl e
                 | inr j =>
                     match fields m' with
                     | inl e => inl e
                     | inr js => inr ((k, j) :: js)
                     end
                 end
               else fields m'
           end) m
      with
      | inl e => inl e
      | inr js => inr (JObject js)
      end
  | VChan => inl (UnsupportedTypeError "chan")
  | VFunc => inl (UnsupportedTypeError "func")
  | VComplex128 => inl (UnsupportedTypeError "complex128")
  end.

(** [json.Marshal]. *)
Definition Marshal (v : GoValue) : list byte * option Error :=
  match to_json v with
  | inr j => (print j, None)
  | inl e => ([], Some e)
  end.

(** *** Unmarshal *)

(** The zero value of a type; the zero of [float64] is the float that the
    literal 0 denotes. *)
Definition zero (t : GoType) : GoValue :=
  match t with
  | TBool => VBool false
  | TInt64 => VInt 0
  | TFloat64 =>
      match ParseFloat (bytes "0") with
      | Some f => VFloat64 f
      | None => VNil
      end
  | TString => VString EmptyString
  | TSlice _ | TMap _ | TAny => VNil
  end.

Definition number_error (lit : list byte) (t : string) : Error :=
  UnmarshalTypeError ("number " ++ string_of_list_byte lit) t.

(** [valueInterface]: the value an empty interface receives.  A number
    becomes a [float64]; one that does not fit is an error and leaves nil. *)
Fixpoint valueInterface (j : jvalue) : GoValue * list Error :=
  match j with
  | JNull => (VNil, [])
  | JBool b => (VBool b, [])
  | JNumber lit =>
      match ParseFloat lit with
      | Some f => (VFloat64 f, [])
      | None => (VNil, [number_error lit "float64"])
      end
  | JString s => (VString s, [])
  | JArray l =>
      let r := map valueInterface l in
      (VSlice (map fst r), concat (map snd r))
  | JObject m =>
      let r := map (fun kv => (fst kv, valueInterface (snd kv))) m in
      (VMap (fold_left (fun acc kr => map_insert (fst kr) (fst (snd kr)) acc) r []),
       concat (map (fun kr => snd (snd kr)) r))
  end.

(** The loop of [decodeState.array] over the elements: element [i] is
    decoded into the old element [i] when the slice has one, into a zero
    element when the slice has to grow.  [st] stores one element, [z] is the
    zero value of the element type. *)
Fixpoint store_elems (st : jvalue -> GoValue -> GoValue * list Error)
    (z : GoValue) (l : list jvalue) (olds : list GoValue)
  : list GoValue * list Error :=
  match l with
  | [] => ([], [])
  | x :: l' =>
      let r1 := st x (hd z olds) in
      let r2 := store_elems st z l' (tl olds) in
      (fst r1 :: fst r2, snd r1 ++ snd r2)
  end.

(** The loop of [decodeState.object] over the members, for a map: each
    value is decoded into a zero element and then put in the map. *)
Fixpoint store_members (st : jvalue -> GoValue * list Error)
    (m : list (string * jvalue)) (acc : list (string * GoValue))
  : list (string * GoValue) * list Error :=
  match m with
  | [] => (acc, [])
  | (k, x) :: m' =>
      let r1 := st x in
      let r2 := store_members st m' (map_insert k (fst r1) acc) in
      (fst r2, snd r1 ++ snd r2)
  end.

(** [decodeState.value] into a destination of type [t] that holds [old].
    A value that does not fit the type is recorded as an error and skipped;
    decoding goes on, so the result can be partly written.  Returns the new
    content and the errors in the order they were met. *)
Fixpoint store (t : GoType) (j : jvalue) (old : GoValue) {struct j}
  : GoValue * list Error :=
  match j with
  | JNull =>
      match t with
      | TSlice _ | TMap _ | TAny => (VNil, [])
      | _ => (old, [])
      end
  | JBool b =>
      match t with
      | TBool | TAny => (VBool b, [])
      | _ => (old, [UnmarshalTypeError "bool" (type_name t)])
      end
  | JString s =>
      match t with
      | TString | TAny => (VString s, [])
      | _ => (old, [UnmarshalTypeError "string" (type_name t)])
      end
  | JNumber lit =>
      match t with
      | TInt64 =>
          match ParseInt lit with
          | Some n => (VInt n, [])
          | None => (old, [number_error lit (type_name t)])
          end
      | TFloat64 | TAny =>
          match ParseFloat lit with
          | Some f => (VFloat64 f, [])
          | None => (old, [number_error lit "float64"])
          end
      | _ => (old, [UnmarshalTypeError "number" (type_name t)])
      end
  | JArray l =>
      match t with
      | TSlice e =>
          let r := store_elems (store e) (zero e) l
                     (match old with VSlice o => o | _ => [] end) in
          (VSlice (fst r), snd r)
      | TAny => valueInterface j
      | _ => (old, [UnmarshalTypeError "array" (type_name t)])
      end
  | JObject m =>
      match t with
      | TMap e =>
          let r := store_members (fun x => store e x (zero e)) m
                     (match old with VMap o => o | _ => [] end) in
          (VMap (fst r), snd r)
      | TAny => valueInterface j
      | _ => (old, [UnmarshalTypeError "object" (type_name t)])
      end
  end.

(** The destination handed to [Unmarshal]: nil, or a pointer to a variable
    of type [t] with its current content. *)
Inductive Dest : Type :=
| DestNil
| DestPtr (t : GoType) (cur : GoValue).

(** [json.Unmarshal]: the text is validated as a whole first; then the
    destination must be a non-nil pointer; then the value is stored, and the
    first recorded error is returned.  The result is the destination after
    the call and the error. *)
Definition Unmarshal (data : list byte) (dest : Dest) : Dest * option Error :=
  match parse data with
  | None => (dest, Some SyntaxError)
  | Some j =>
      match dest with
      | DestNil => (DestNil, Some InvalidUnmarshalError)
      | DestPtr t old =>
          let r := store t j old in
          (DestPtr t (fst r), hd_error (snd r))
      end
  end.

(** *** The JSON data model *)

(** The element type of a container type; an empty interface holds
    containers of empty interfaces. *)
Definition elem_type (t : GoType) : GoType :=
  match t with
  | TSlice e | TMap e => e
  | _ => TAny
  end.

Definition is_some {A : Type} (o : option A) : bool :=
  match o with
  | Some _ => true
  | None => false
  end.

(** [in_model t v]: [v] is a value that a destination of type [t] takes,
    built from nil, booleans, 64-bit integers, floats, valid UTF-8 strings,
    slices and maps with string keys.  An integer held in an empty
    interface or exposed into a [float64] must have a [float64] reading,
    which every [int64] has in Go; a float must have a text that is a JSON
    number and that [ParseFloat] reads, which every finite [float64] has in
    Go. *)
Fixpoint in_model (t : GoType) (v : GoValue) {struct v} : bool :=
  match v with
  | VNil =>
      match t with
      | TSlice _ | TMap _ | TAny => true
      | _ => false
      end
  | VBool _ =>
      match t with
      | TBool | TAny => true
      | _ => false
      end
  | VInt n =>
      match t with
      | TInt64 => in_int64 n
      | TFloat64 | TAny => in_int64 n && is_some (ParseFloat (FormatInt n))
      | _ => false
      end
  | VFloat64 f =>
      match t with
      | TFloat64 | TAny =>
          match FormatFloat f with
          | Some lit => is_number lit && is_some (ParseFloat lit)
          | None => false
          end
      | _ => false
      end
  | VString s =>
      match t with
      | TString | TAny => UTF8.ValidString s
      | _ => false
      end
  | VSlice l =>
      match t with
      | TSlice _ | TAny => forallb (in_model (elem_type t)) l
      | _ => false
      end
  | VMap m =>
      match t with
      | TMap _ | TAny =>
          keys_increasing m
          && forallb (fun kv => UTF8.ValidString (fst kv)
                                && in_model (elem_type t) (snd kv)) m
      | _ => false
      end
  | _ => false
  end.

(** How deep slices and maps are nested in a value. *)
Fixpoint nesting (v : GoValue) : nat :=
  match v with
  | VSlice l => S (list_max (map nesting l))
  | VMap m | VStruct m => S (list_max (map (fun kv => nesting (snd kv)) m))
  | _ => O
  end.

(** The numeric-type collapse: an integer stored into an empty interface
    or into a [float64] comes back as the [float64] its text denotes, and a
    float comes back as the [float64] its text denotes. *)
Fixpoint collapse (t : GoType) (v : GoValue) {struct v} : GoValue :=
  match v with
  | VInt n =>
      match t with
      | TFloat64 | TAny =>
          match ParseFloat (FormatInt n) with
          | Some f => VFloat64 f
          | None => VNil
          end
      | _ => v
      end
  | VFloat64 f =>
      match FormatFloat f with
      | Some lit =>
          match ParseFloat lit with
          | Some f' => VFloat64 f'
          | None => v
          end
      | None => v
      end
  | VSlice l => VSlice (map (collapse (elem_type t)) l)
  | VMap m => VMap (map (fun kv => (fst kv, collapse (elem_type t) (snd kv))) m)
  | _ => v
  end.

(** The tree of a value of the data model. *)
Fixpoint tree (v : GoValue) : jvalue :=
  match v with
  | VBool b => JBool b
  | VInt n => JNumber (FormatInt n)
  | VFloat64 f =>
      match FormatFloat f with
      | Some lit => JNumber lit
      | None => JNull
      end
  | VString s => JString s
  | VSlice l => JArray (map tree l)
  | VMap m => JObject (map (fun kv => (fst kv, tree (snd kv))) m)
  | _ => JNull
  end.

(** A float of the model has a text, which is a JSON number that
    [ParseFloat] reads. *)
Lemma in_model_float (t : GoType) (f : float64) :
  in_model t (VFloat64 f) = true ->
  exists lit f', FormatFloat f = Some lit /\ is_number lit = true /\
                 ParseFloat lit = Some f'.
Proof.
  cbn [in_model]. intros H.
  assert (H' : match FormatFloat f with
               | Some lit => is_number lit && is_some (ParseFloat lit)
               | None => false
               end = true)
    by (destruct t; (discriminate H || exact H)).
  destruct (FormatFloat f) as [lit|]; [|discriminate H'].
  apply andb_true_iff in H'. destruct H' as [H1 H2].
  destruct (ParseFloat lit) as [f'|] eqn:Ep; [|discriminate H2].
  exists lit, f'. auto.
Qed.

Lemma to_json_tree (v : GoValue) :
  forall t, in_model t v = true -> to_json v = inr (tree v).
Proof.
  induction v as [ |b|n|f|s|l IH|m IH|m IH| | | ] using GoValue_ind;
    intros t Hm; try reflexivity; try discriminate Hm.
  - destruct (in_model_float t f Hm) as (lit & f' & Ef & _ & _).
    cbn [to_json tree]. rewrite Ef. reflexivity.
  - cbn [in_model] in Hm.
    assert (Hl : forallb (in_model (elem_type t)) l = true)
      by (destruct t; (discriminate Hm || exact Hm)).
    clear Hm. cbn [to_json tree].
    induction l as [|x l IHl]; [reflexivity|].
    inversion IH as [|? ? Hx IH']; subst.
    cbn [forallb] in Hl. apply andb_true_iff in Hl. destruct Hl as [H1 H2].
    rewrite (Hx _ H1). specialize (IHl IH' H2).
    cbn [map].
    match type of IHl with
    | match ?X with _ => _ end = _ => destruct X as [e|js]
    end; [discriminate IHl|].
    inversion IHl; subst. reflexivity.
  - cbn [in_model] in Hm.
    assert (Hl : forallb (fun kv => UTF8.ValidString (fst kv)
                                    && in_model (elem_type t) (snd kv)) m = true).
    { destruct t; try discriminate Hm;
        apply andb_true_iff in Hm; destruct Hm as [_ Hm]; exact Hm. }
    clear Hm. cbn [to_json tree].
    induction m as [|[k x] m IHm]; [reflexivity|].
    inversion IH as [|? ? Hx IH']; subst.
    cbn [forallb fst snd] in Hl, Hx.
    apply andb_true_iff in Hl. destruct Hl as [H1 H2].
    apply andb_true_iff in H1. destruct H1 as [_ H1].
    rewrite (Hx _ H1). specialize (IHm IH' H2).
    cbn [map fst snd].
    match type of IHm with
    | match ?X with _ => _ end = _ => destruct X as [e|js]
    end; [discriminate IHm|].
    inversion IHm; subst. reflexivity.
Qed.

Lemma wf_json_tree (v : GoValue) :
  forall t, in_model t v = true -> wf_json (tree v) = true.
Proof.
  induction v as [ |b|n|f|s|l IH|m IH|m IH| | | ] using GoValue_ind;
    intros t Hm; try reflexivity; try discriminate Hm.
  - apply is_number_FormatInt.
  - destruct (in_model_float t f Hm) as (lit & f' & Ef & Hn & _).
    cbn [tree]. rewrite Ef. exact Hn.
  - cbn [in_model] in Hm. cbn [tree wf_json].
    destruct t; (discriminate Hm || exact Hm).
  - cbn [in_model] in Hm.
    assert (Hl : forallb (in_model (elem_type t)) l = true)
      by (destruct t; (discriminate Hm || exact Hm)).
    cbn [tree wf_json]. rewrite forallb_forall in Hl |- *.
    rewrite Forall_forall in IH.
    intros j Hj. apply in_map_iff in Hj. destruct Hj as (x & <- & Hx).
    apply (IH x Hx _ (Hl x Hx)).
  - cbn [in_model] in Hm.
    assert (Hl : forallb (fun kv => UTF8.ValidString (fst kv)
                                    && in_model (elem_type t) (snd kv)) m = true).
    { destruct t; try discriminate Hm;
        apply andb_true_iff in Hm; destruct Hm as [_ Hm]; exact Hm. }
    cbn [tree wf_json]. rewrite forallb_forall in Hl |- *.
    rewrite Forall_forall in IH.
    intros kj Hj. apply in_map_iff in Hj. destruct Hj as (kv & <- & Hkv).
    specialize (Hl kv Hkv). apply andb_true_iff in Hl. destruct Hl as [H1 H2].
    cbn [fst snd]. rewrite H1. apply (IH kv Hkv _ H2).
Qed.

Lemma depth_tree (v : GoValue) :
  forall t, in_model t v = true -> depth (tree v) = nesting v.
Proof.
  induction v as [ |b|n|f|s|l IH|m IH|m IH| | | ] using GoValue_ind;
    intros t Hm; try reflexivity; try discriminate Hm.
  - cbn [tree nesting]. destruct (FormatFloat f); reflexivity.
  - cbn [in_model] in Hm.
    assert (Hl : forallb (in_model (elem_type t)) l = true)
      by (destruct t; (discriminate Hm || exact Hm)).
    cbn [tree depth nesting]. f_equal. f_equal. rewrite map_map.
    apply map_ext_in. intros x Hx.
    rewrite Forall_forall in IH. rewrite forallb_forall in Hl.
    apply (IH x Hx _ (Hl x Hx)).
  - cbn [in_model] in Hm.
    assert (Hl : forallb (fun kv => UTF8.ValidString (fst kv)
                                    && in_model (elem_type t) (snd kv)) m = true).
    { destruct t; try discriminate Hm;
        apply andb_true_iff in Hm; destruct Hm as [_ Hm]; exact Hm. }
    cbn [tree depth nesting]. f_equal. f_equal. rewrite map_map.
    apply map_ext_in. intros kv Hkv. cbn [snd].
    rewrite Forall_forall in IH. rewrite forallb_forall in Hl.
    specialize (Hl kv Hkv). apply andb_true_iff in Hl. destruct Hl as [_ H2].
    apply (IH kv Hkv _ H2).
Qed.

Lemma in_model_slice (t : GoType) (l : list GoValue) :
  in_model t (VSlice l) = true -> forallb (in_model (elem_type t)) l = true.
Proof.
  cbn [in_model]. destruct t; intros H; (discriminate H || exact H).
Qed.

Lemma in_model_map (t : GoType) (m : list (string * GoValue)) :
  in_model t (VMap m) = true ->
  keys_increasing m = true /\
  forallb (fun kv => UTF8.ValidString (fst kv)
                     && in_model (elem_type t) (snd kv)) m = true.
Proof.
  cbn [in_model]. destruct t; intros H; try discriminate H;
    apply andb_true_iff in H; exact H.
Qed.

Lemma fold_left_map_compose {A B C : Type} (f : C -> B -> C) (g : A -> B)
      (l : list A) (c : C) :
  fold_left f (map g l) c = fold_left (fun acc x => f acc (g x)) l c.
Proof.
  revert c. induction l as [|x l IH]; intros c; [reflexivity|].
  cbn [map fold_left]. apply IH.
Qed.

(** Inserting the entries of a map in key order rebuilds the map. *)
Lemma fold_insert_sorted {A B : Type} (f : string * A -> string * B)
      (p m : list (string * A)) :
  (forall kv, fst (f kv) = fst kv) ->
  keys_increasing (p ++ m) = true ->
  fold_left (fun acc kv => map_insert (fst (f kv)) (snd (f kv)) acc) m (map f p)
  = map f (p ++ m).
Proof.
  intros Hf. revert p. induction m as [|x m IH]; intros p Hk.
  - rewrite app_nil_r. reflexivity.
  - cbn [fold_left].
    rewrite map_insert_last.
    + replace (map f p ++ [(fst (f x), snd (f x))]) with (map f (p ++ [x]))
        by (rewrite map_app; cbn [map]; destruct (f x); reflexivity).
      rewrite IH by (rewrite <- app_assoc; exact Hk).
      rewrite <- app_assoc. reflexivity.
    + pose proof (keys_increasing_app p x m Hk) as H.
      rewrite forallb_forall in H |- *.
      intros kv Hkv. apply in_map_iff in Hkv. destruct Hkv as (kv0 & <- & Hkv0).
      rewrite !Hf. apply H. exact Hkv0.
Qed.

(** What an empty interface receives from the text of a value of the model. *)
Lemma valueInterface_tree (v : GoValue) :
  in_model TAny v = true -> valueInterface (tree v) = (collapse TAny v, []).
Proof.
  induction v as [ |b|n|f|s|l IH|m IH|m IH| | | ] using GoValue_ind;
    intros Hm; try reflexivity; try discriminate Hm.
  - cbn [in_model] in Hm. apply andb_true_iff in Hm. destruct Hm as [_ Hm].
    cbn [tree valueInterface collapse].
    destruct (ParseFloat (FormatInt n)); [reflexivity|discriminate Hm].
  - destruct (in_model_float TAny f Hm) as (lit & f' & Ef & _ & Ep).
    cbn [tree collapse]. rewrite Ef. cbn [valueInterface]. rewrite Ep. reflexivity.
  - apply in_model_slice in Hm. cbn [elem_type] in Hm.
    cbn [tree valueInterface collapse elem_type].
    rewrite forallb_forall in Hm. rewrite Forall_forall in IH.
    assert (E : map valueInterface (map tree l)
                = map (fun x => (collapse TAny x, [])) l).
    { rewrite map_map. apply map_ext_in. intros x Hx. apply IH; auto. }
    rewrite E, !map_map. cbn [fst snd]. f_equal.
    clear. induction l as [|x l IHl]; [reflexivity|exact IHl].
  - apply in_model_map in Hm. cbn [elem_type] in Hm. destruct Hm as [Hk Hm].
    cbn [tree valueInterface collapse elem_type].
    rewrite forallb_forall in Hm. rewrite Forall_forall in IH.
    assert (E : map (fun kv => (fst kv, valueInterface (snd kv)))
                  (map (fun kv => (fst kv, tree (snd kv))) m)
                = map (fun kv => (fst kv, (collapse TAny (snd kv), []))) m).
    { rewrite map_map. apply map_ext_in. intros kv Hkv. cbn [fst snd].
      specialize (Hm kv Hkv). apply andb_true_iff in Hm. destruct Hm as [_ Hm].
      rewrite IH by assumption. reflexivity. }
    rewrite E, !map_map. cbn [fst snd]. f_equal.
    + f_equal. rewrite fold_left_map_compose.
      apply (fold_insert_sorted (fun kv => (fst kv, collapse TAny (snd kv))) [] m);
        [reflexivity|exact Hk].
    + clear. induction m as [|x m IHm]; [reflexivity|exact IHm].
Qed.

(** Storing into an empty interface is [valueInterface] on such a text. *)
Lemma store_any_tree (v old : GoValue) :
  in_model TAny v = true -> store TAny (tree v) old = valueInterface (tree v).
Proof.
  destruct v; intros Hm; try reflexivity; try discriminate Hm.
  - cbn [in_model] in Hm. apply andb_true_iff in Hm. destruct Hm as [_ Hm].
    cbn [tree store valueInterface].
    destruct (ParseFloat (FormatInt n)); [reflexivity|discriminate Hm].
  - destruct (in_model_float TAny f Hm) as (lit & f' & Ef & _ & Ep).
    cbn [tree]. rewrite Ef. cbn [store valueInterface]. rewrite Ep. reflexivity.
Qed.

(** Storing the text of a number of the model into a [float64]. *)
Lemma store_float_tree (v old : GoValue) :
  in_model TFloat64 v = true ->
  store TFloat64 (tree v) old = (collapse TFloat64 v, []).
Proof.
  destruct v; intros Hm; try discriminate Hm.
  - cbn [in_model] in Hm. apply andb_true_iff in Hm. destruct Hm as [_ Hm].
    cbn [tree store collapse].
    destruct (ParseFloat (FormatInt n)); [reflexivity|discriminate Hm].
  - destruct (in_model_float TFloat64 f Hm) as (lit & f' & Ef & _ & Ep).
    cbn [tree collapse]. rewrite Ef. cbn [store]. rewrite Ep. reflexivity.
Qed.

(** Storing the text of a value of the model into a fresh destination of
    its type gives the value back, up to the numeric collapse. *)
Lemma store_tree (v : GoValue) :
  forall t, in_model t v = true ->
            store t (tree v) (zero t) = (collapse t v, []).
Proof.
  induction v as [ |b|n|f|s|l IH|m IH|m IH| | | ] using GoValue_ind;
    intros t Hm; try discriminate Hm.
  - destruct t; (discriminate Hm || reflexivity).
  - destruct t; (discriminate Hm || reflexivity).
  - destruct t; try discriminate Hm.
    + cbn [in_model] in Hm. cbn [tree store collapse].
      rewrite ParseInt_FormatInt by exact Hm. reflexivity.
    + apply store_float_tree. exact Hm.
    + rewrite store_any_tree by exact Hm. apply valueInterface_tree. exact Hm.
  - destruct t; try discriminate Hm.
    + apply store_float_tree. exact Hm.
    + rewrite store_any_tree by exact Hm. apply valueInterface_tree. exact Hm.
  - destruct t; (discriminate Hm || reflexivity).
  - destruct t; try discriminate Hm.
    + apply in_model_slice in Hm. cbn [elem_type] in Hm.
      cbn [tree store collapse elem_type zero].
      rewrite forallb_forall in Hm. rewrite Forall_forall in IH.
      assert (E : forall l', (forall x, In x l' -> In x l) ->
                store_elems (store t) (zero t) (map tree l') []
                = (map (collapse t) l', [])).
      { induction l' as [|x l' IHl]; intros Hin; [reflexivity|].
        cbn [map store_elems hd tl].
        rewrite IH by (try apply Hm; apply Hin; left; reflexivity).
        rewrite IHl by (intros y Hy; apply Hin; right; exact Hy).
        reflexivity. }
      rewrite E by auto. reflexivity.
    + rewrite store_any_tree by exact Hm. apply valueInterface_tree. exact Hm.
  - destruct t; try discriminate Hm.
    + apply in_model_map in Hm. cbn [elem_type] in Hm. destruct Hm as [Hk Hm].
      cbn [tree store collapse elem_type zero].
      rewrite forallb_forall in Hm. rewrite Forall_forall in IH.
      assert (E : forall m' p, (forall kv, In kv m' -> In kv m) ->
                keys_increasing (p ++ m') = true ->
                store_members (fun x => store t x (zero t))
                  (map (fun kv => (fst kv, tree (snd kv))) m')
                  (map (fun kv => (fst kv, collapse t (snd kv))) p)
                = (map (fun kv => (fst kv, collapse t (snd kv))) (p ++ m'), [])).
      { induction m' as [|[k x] m' IHm]; intros p' Hin Hk'.
        - rewrite app_nil_r. reflexivity.
        - cbn [map fst snd store_members].
          assert (Hx : in_model t x = true).
          { specialize (Hm (k, x) (Hin _ (or_introl eq_refl))).
            apply andb_true_iff in Hm. destruct Hm as [_ Hm]. exact Hm. }
          pose proof (IH (k, x) (Hin _ (or_introl eq_refl)) t Hx) as Hst.
          cbn [snd] in Hst. rewrite Hst. cbn [fst snd app].
          rewrite map_insert_last.
          + replace (map (fun kv => (fst kv, collapse t (snd kv))) p'
                     ++ [(k, collapse t x)])
              with (map (fun kv => (fst kv, collapse t (snd kv))) (p' ++ [(k, x)]))
              by (rewrite map_app; reflexivity).
            rewrite IHm.
            * rewrite <- app_assoc. reflexivity.
            * intros kv Hkv. apply Hin. right. exact Hkv.
            * rewrite <- app_assoc. exact Hk'.
          + pose proof (keys_increasing_app p' (k, x) m' Hk') as H.
            rewrite forallb_forall in H |- *.
            intros kv Hkv. apply in_map_iff in Hkv.
            destruct Hkv as (kv0 & <- & Hkv0). cbn [fst]. apply H. exact Hkv0. }
      pose proof (E m [] (fun kv H => H) Hk) as E'. cbn [map app] in E'.
      rewrite E'. reflexivity.
    + rewrite store_any_tree by exact Hm. apply valueInterface_tree. exact Hm.
Qed.

(** [Marshal] followed by [Unmarshal] into a fresh destination of the
    value's type gives the value back (up to the numeric collapse), as long
    as the value is not nested deeper than [maxNestingDepth]. *)
Theorem Unmarshal_Marshal (t : GoType) (v : GoValue) :
  in_model t v = true -> (nesting v <= maxNestingDepth)%nat ->
  exists data, Marshal v = (data, None) /\ data <> [] /\
               Unmarshal data (DestPtr t (zero t))
               = (DestPtr t (collapse t v), None).
Proof.
  intros Hm Hd. exists (print (tree v)).
  unfold Marshal. rewrite (to_json_tree v t Hm).
  split; [reflexivity|]. split.
  - destruct (parse_value_print (tree v) (wf_json_tree v t Hm)) as [Hs _].
    destruct (print (tree v)); [destruct Hs|discriminate].
  - unfold Unmarshal.
    rewrite parse_print
      by (try apply (wf_json_tree v t Hm); rewrite (depth_tree v t Hm); exact Hd).
    rewrite store_tree by exact Hm. reflexivity.
Qed.

(** The errors recorded while storing are all type mismatches. *)
Definition is_type_error (e : Error) : Prop :=
  match e with
  | UnmarshalTypeError _ _ => True
  | _ => False
  end.

Lemma valueInterface_errors (j : jvalue) :
  Forall is_type_error (snd (valueInterface j)).
Proof.
  induction j as [ |b|lit|s|l IH|m IH] using jvalue_ind;
    cbn [valueInterface snd]; try (constructor; fail).
  - destruct (ParseFloat lit); cbn [snd]; repeat constructor.
  - induction IH as [|x l Hx _ IHl]; cbn [map concat]; [constructor|].
    apply Forall_app. split; assumption.
  - induction IH as [|x l Hx _ IHl]; cbn [map concat snd]; [constructor|].
    apply Forall_app. split; assumption.
Qed.

Lemma store_errors (j : jvalue) :
  forall t old, Forall is_type_error (snd (store t j old)).
Proof.
  induction j as [ |b|lit|s|l IH|m IH] using jvalue_ind; intros t old.
  - destruct t; cbn [store snd]; constructor.
  - destruct t; cbn [store snd]; repeat constructor.
  - destruct t; cbn [store snd]; repeat constructor;
      try (destruct (ParseInt lit); cbn [snd]; repeat constructor; fail);
      destruct (ParseFloat lit); cbn [snd]; repeat constructor.
  - destruct t; cbn [store snd]; repeat constructor.
  - destruct t; try (cbn [store snd]; repeat constructor; fail).
    + cbn [store snd].
      generalize (match old with VSlice o => o | _ => [] end). intros olds.
      revert olds. induction IH as [|x l Hx _ IHl]; intros olds;
        cbn [store_elems snd]; [constructor|].
      apply Forall_app. split; [apply Hx|apply IHl].
    + apply (valueInterface_errors (JArray l)).
  - destruct t; try (cbn [store snd]; repeat constructor; fail).
    + cbn [store snd].
      generalize (match old with VMap o => o | _ => [] end). intros acc.
      revert acc. induction IH as [|[k x] m Hx _ IHm]; intros acc;
        cbn [store_members snd]; [constructor|].
      apply Forall_app. split; [apply Hx|apply IHm].
    + apply (valueInterface_errors (JObject m)).
Qed.

(** What [Unmarshal] does to the destination when it fails: a syntax error
    or a nil destination leaves it as it was; only a type mismatch can
    come with a written destination. *)
Lemma Unmarshal_failure (data : list byte) (dest dest' : Dest) (e : Error) :
  Unmarshal data dest = (dest', Some e) ->
  (e = SyntaxError /\ dest' = dest) \/
  (e = InvalidUnmarshalError /\ dest' = dest) \/
  is_type_error e.
Proof.
  unfold Unmarshal. destruct (parse data) as [j|].
  - destruct dest as [|t old].
    + intros H. inversion H; subst. right. left. split; reflexivity.
    + intros H. inversion H as [[Hd He]]. right. right.
      pose proof (store_errors j t old) as HF.
      destruct (snd (store t j old)) as [|e0 errs]; [discriminate He|].
      inversion He; subst. inversion HF. assumption.
  - intros H. inversion H; subst. left. split; reflexivity.
Qed.

(** [strconv] writes a float with the digits that read back as the same
    float. *)
Definition floats_reparse : Prop :=
  forall f lit, FormatFloat f = Some lit -> ParseFloat lit = Some f.

(** No integer sits in an empty interface or in a [float64]: the
    destination's type says which numeric type to store, and the value has
    it. *)
Fixpoint numbers_typed (t : GoType) (v : GoValue) {struct v} : bool :=
  match v with
  | VInt _ =>
      match t with
      | TFloat64 | TAny => false
      | _ => true
      end
  | VSlice l => forallb (numbers_typed (elem_type t)) l
  | VMap m => forallb (fun kv => numbers_typed (elem_type t) (snd kv)) m
  | _ => true
  end.

Lemma collapse_numbers_typed (v : GoValue) :
  floats_reparse ->
  forall t, numbers_typed t v = true -> collapse t v = v.
Proof.
  intros Hf.
  induction v as [ |b|n|f|s|l IH|m IH|m IH| | | ] using GoValue_ind;
    intros t Ht; try reflexivity.
  - destruct t; (discriminate Ht || reflexivity).
  - cbn [collapse]. destruct (FormatFloat f) as [lit|] eqn:Ef; [|reflexivity].
    rewrite (Hf f lit Ef). reflexivity.
  - cbn [numbers_typed] in Ht. cbn [collapse]. f_equal.
    rewrite forallb_forall in Ht. rewrite Forall_forall in IH.
    rewrite <- (map_id l) at 2. apply map_ext_in. intros x Hx. apply IH; auto.
  - cbn [numbers_typed] in Ht. cbn [collapse]. f_equal.
    rewrite forallb_forall in Ht. rewrite Forall_forall in IH.
    rewrite <- (map_id m) at 2. apply map_ext_in. intros [k x] Hx.
    cbn [fst snd]. f_equal. apply (IH (k, x) Hx). apply (Ht (k, x) Hx).
Qed.

(** A function, a channel or a complex number somewhere in a value, in a
    field of any name. *)
Fixpoint contains_unsupported (v : GoValue) : bool :=
  match v with
  | VChan | VFunc | VComplex128 => true
  | VSlice l => existsb contains_unsupported l
  | VMap m | VStruct m => existsb (fun kv => contains_unsupported (snd kv)) m
  | _ => false
  end.

(** A function, a channel or a complex number where the encoder looks:
    the value itself, an element of a slice, a value of a map, or an
    exported field of a struct. *)
Fixpoint reaches_unsupported (v : GoValue) : bool :=
  match v with
  | VChan | VFunc | VComplex128 => true
  | VSlice l => existsb reaches_unsupported l
  | VMap m => existsb (fun kv => reaches_unsupported (snd kv)) m
  | VStruct m =>
      existsb (fun kv => exported (fst kv) && reaches_unsupported (snd kv)) m
  | _ => false
  end.

(** The encoder fails on a value in which it reaches an unsupported one. *)
Lemma to_json_unsupported (v : GoValue) :
  reaches_unsupported v = true -> exists e, to_json v = inl e.
Proof.
  induction v as [ |b|n|f|s|l IH|m IH|m IH| | | ] using GoValue_ind;
    intros H; try discriminate H; try (eexists; reflexivity).
  - cbn [reaches_unsupported] in H. cbn [to_json].
    induction l as [|x l IHl]; [discriminate H|].
    inversion IH as [|? ? Hx IH']; subst.
    cbn [existsb] in H. apply orb_true_iff in H.
    destruct (to_json x) as [e|j] eqn:Ex; [eexists; reflexivity|].
    destruct H as [H|H]; [destruct (Hx H) as [e He]; discriminate He|].
    destruct (IHl IH' H) as [e He].
    match type of He with
    | match ?X with _ => _ end = _ => destruct X as [e'|js]
    end; [eexists; reflexivity|discriminate He].
  - cbn [reaches_unsupported] in H. cbn [to_json].
    induction m as [|[k x] m IHm]; [discriminate H|].
    inversion IH as [|? ? Hx IH']; subst. cbn [snd] in Hx.
    cbn [existsb snd] in H. apply orb_true_iff in H.
    destruct (to_json x) as [e|j] eqn:Ex; [eexists; reflexivity|].
    destruct H as [H|H]; [destruct (Hx H) as [e He]; discriminate He|].
    destruct (IHm IH' H) as [e He].
    match type of He with
    | match ?X with _ => _ end = _ => destruct X as [e'|js]
    end; [eexists; reflexivity|discriminate He].
  - cbn [reaches_unsupported] in H. cbn [to_json].
    induction m as [|[k x] m IHm]; [discriminate H|].
    inversion IH as [|? ? Hx IH']; subst. cbn [snd] in Hx.
    cbn [existsb fst snd] in H. apply orb_true_iff in H.
    destruct (exported k) eqn:Ek.
    + destruct (to_json x) as [e|j] eqn:Ex; [eexists; reflexivity|].
      destruct H as [H|H]; [destruct (Hx H) as [e He]; discriminate He|].
      destruct (IHm IH' H) as [e He].
      match type of He with
      | match ?X with _ => _ end = _ => destruct X as [e'|js]
      end; [eexists; reflexivity|discriminate He].
    + destruct H as [H|H]; [discriminate H|]. apply (IHm IH' H).
Qed.

End WithStrconv.

End JSON.

(** ** crypto/aes and crypto/cipher: AES in Galois/counter mode *)

(** The two primitives GCM is built from, for a key and a nonce: the
    counter-mode keystream, xored onto the text, and the authenticator that
    computes the 16-byte tag of a ciphertext (no additional data is used by
    the package).  The laws are those of any counter mode and of any GCM
    tag; they do not include unforgeability. *)
Class GCM : Type := {
  ctr : list byte -> list byte -> list byte -> list byte;
  auth : list byte -> list byte -> list byte -> list byte;
  ctr_length : forall key nonce text, length (ctr key nonce text) = length text;
  ctr_involutive : forall key nonce text, ctr key nonce (ctr key nonce text) = text;
  auth_length : forall key nonce ct, length (auth key nonce ct) = 16%nat
}.

Fixpoint bytes_eqb (a b : list byte) : bool :=
  match a, b with
  | [], [] => true
  | x :: a', y :: b' => Byte.eqb x y && bytes_eqb a' b'
  | _, _ => false
  end.

Lemma bytes_eqb_eq (a b : list byte) : bytes_eqb a b = true <-> a = b.
Proof.
  revert b. induction a as [|x a IH]; intros [|y b]; cbn [bytes_eqb];
    try (split; (discriminate || reflexivity)).
  rewrite andb_true_iff, IH. split.
  - intros [H1 H2]. apply Byte.byte_dec_bl in H1. congruence.
  - intros H. inversion H; subst. split; [apply Byte.byte_dec_lb|]; reflexivity.
Qed.

Module Cipher.

Section WithGCM.

Context {G : GCM}.

(** [aes.KeySizeError]. *)
Inductive KeySizeError : Type := mkKeySizeError (n : nat).

(** A [cipher.Block] made by [aes.NewCipher]: AES under a key. *)
Record Block : Type := { block_key : list byte }.

(** [aes.NewCipher]: the key must be 16, 24 or 32 bytes long. *)
Definition NewCipher (key : list byte) : Block + KeySizeError :=
  match length key with
  | 16%nat | 24%nat | 32%nat => inl {| block_key := key |}
  | n => inr (mkKeySizeError n)
  end.

(** A [cipher.AEAD] made by [cipher.NewGCM]. *)
Record AEAD : Type := { gcm_key : list byte }.

(** [cipher.NewGCM]: it fails only for a block size other than 16 bytes,
    which no AES block has. *)
Definition NewGCM (b : Block) : AEAD + unit := inl {| gcm_key := block_key b |}.

(** [gcm.NonceSize()] and [gcm.Overhead()]. *)
Definition NonceSize (g : AEAD) : nat := 12.
Definition Overhead (g : AEAD) : nat := 16.

(** [gcm.Seal(dst, nonce, plaintext, nil)]: the ciphertext and its tag,
    appended to [dst]. *)
Definition Seal (g : AEAD) (dst nonce plaintext : list byte) : list byte :=
  let ct := ctr (gcm_key g) nonce plaintext in
  dst ++ ct ++ auth (gcm_key g) nonce ct.

(** [gcm.Open(nil, nonce, ciphertext, nil)]: [None] is the error
    "message authentication failed". *)
Definition Open (g : AEAD) (nonce ciphertext : list byte) : option (list byte) :=
  if (length ciphertext <? Overhead g)%nat then None
  else
    let n := (length ciphertext - Overhead g)%nat in
    let ct := firstn n ciphertext in
    let tag := skipn n ciphertext in
    if bytes_eqb (auth (gcm_key g) nonce ct) tag
    then Some (ctr (gcm_key g) nonce ct)
    else None.

End WithGCM.

End Cipher.

(** ** crypto/rand and io *)

(** [rand.Reader] is a source of random bytes; it is modelled by the bytes
    it will deliver, and reading moves along them. *)
Definition Reader : Type := list byte.

Inductive ReadError : Type := EOF | ErrUnexpectedEOF.

(** [io.ReadFull(r, buf)] for a buffer of [n] bytes: the bytes read, or the
    error when the source delivers fewer; and the source afterwards. *)
Definition ReadFull (r : Reader) (n : nat) : (list byte + ReadError) * Reader :=
  if (n <=? length r)%nat then (inl (firstn n r), skipn n r)
  else (inr (match r with [] => EOF | _ => ErrUnexpectedEOF end), []).

(** ** package shroud *)

(** The error values of the package: its three sentinels, and the errors
    [fmt.Errorf] builds around an error of a library ("...: %w"). *)
Inductive cause : Type :=
| JSONError (e : JSON.Error)
| AESKeySizeError (e : Cipher.KeySizeError)
| GCMError
| RandError (e : ReadError).

Inductive error : Type :=
| ErrInvalidKey
| ErrInvalidSecret
| ErrEmptyValue
| Errorf (msg : string) (wrapped : cause).

(** [type Client struct]. *)
Record Client : Type := { encryptionKey : list byte }.

(** [type Secret struct]: the token and the client that can decrypt it. *)
Record Secret : Type := { encrypted : string; client : Client }.

(** [func NewSecretClient(encryptionKey []byte)], returning a [*Client] and
    an [error]. *)
Definition NewSecretClient (encryptionKey : list byte)
  : option Client * option error :=
  if negb (length encryptionKey =? 32)%nat then (None, Some ErrInvalidKey)
  else (Some {| encryptionKey := encryptionKey |}, None).

(** [func (s *Secret) EncryptedValue() string]. *)
Definition EncryptedValue (s : Secret) : string := encrypted s.

Section Package.

Context {T : Float64} {F : Strconv} {G : GCM}.

Import JSON.

(** [func (c *Client) Shroud(value any)], returning a [*Secret] and an
    [error].  The random source is threaded through the call. *)
Definition Shroud (c : Client) (value : GoValue) (rand : Reader)
  : (option Secret * option error) * Reader :=
  (* Convert value to JSON bytes *)
  let (jsonData, err) := Marshal value in
  match err with
  | Some e => ((None, Some (Errorf "failed to marshal value" (JSONError e))), rand)
  | None =>
      if (length jsonData =? 0)%nat then ((None, Some ErrEmptyValue), rand)
      else
        (* Create cipher *)
        match Cipher.NewCipher (encryptionKey c) with
        | inr e =>
            ((None, Some (Errorf "failed to create cipher" (AESKeySizeError e))), rand)
        | inl block =>
            match Cipher.NewGCM block with
            | inr _ => ((None, Some (Errorf "failed to create GCM" GCMError)), rand)
            | inl gcm =>
                (* Create nonce *)
                match ReadFull rand (Cipher.NonceSize gcm) with
                | (inr e, rand') =>
                    ((None, Some (Errorf "failed to generate nonce" (RandError e))),
                     rand')
                | (inl nonce, rand') =>
                    (* Encrypt the value *)
                    let ciphertext := Cipher.Seal gcm nonce nonce jsonData in
                    let encrypted := Base64.EncodeToString ciphertext in
                    ((Some {| encrypted := encrypted; client := c |}, None), rand')
                end
            end
        end
  end.

(** [func (c *Client) CreateFromEncrypted(encrypted string)], returning a
    [*Secret] and an [error]. *)
Definition CreateFromEncrypted (c : Client) (encrypted : string)
  : option Secret * option error :=
  if String.eqb encrypted EmptyString then (None, Some ErrEmptyValue)
  else
    (* Validate the encrypted format *)
    match Base64.DecodeString encrypted with
    | None => (None, Some ErrInvalidSecret)
    | Some _ => (Some {| encrypted := encrypted; client := c |}, None)
    end.

(** [func (s *Secret) Expose(dest any) error].  The destination is returned
    as the call leaves it, next to the error. *)
Definition Expose (s : Secret) (dest : Dest) : Dest * option error :=
  (* Decode the base64 encrypted value *)
  match Base64.DecodeString (encrypted s) with
  | None => (dest, Some ErrInvalidSecret)
  | Some ciphertext =>
      (* Create cipher *)
      match Cipher.NewCipher (encryptionKey (client s)) with
      | inr e => (dest, Some (Errorf "failed to create cipher" (AESKeySizeError e)))
      | inl block =>
          match Cipher.NewGCM block with
          | inr _ => (dest, Some (Errorf "failed to create GCM" GCMError))
          | inl gcm =>
              (* Extract nonce and ciphertext *)
              let nonceSize := Cipher.NonceSize gcm in
              if (length ciphertext <? nonceSize)%nat then (dest, Some ErrInvalidSecret)
              else
                let nonce := firstn nonceSize ciphertext in
                let ciphertext := skipn nonceSize ciphertext in
                (* Decrypt the value *)
                match Cipher.Open gcm nonce ciphertext with
                | None => (dest, Some ErrInvalidSecret)
                | Some plaintext =>
                    (* Unmarshal the JSON data into the destination *)
                    match Unmarshal plaintext dest with
                    | (dest', Some e) =>
                        (dest', Some (Errorf "failed to unmarshal value" (JSONError e)))
                    | (dest', None) => (dest', None)
                    end
                end
          end
      end
  end.

End Package.

(** ** A reference instance of the libraries

    An instance of [GCM] built from xor, and one of [Strconv] in which a
    [float64] is the integer it was read from.  They have the laws of the
    interfaces (not the secrecy of AES) and let the package run on concrete
    inputs. *)

Module Reference.

Definition xor_byte (a b : byte) : byte :=
  byte_of_Z (Z.lxor (byte_to_Z a) (byte_to_Z b)).

(** The keystream repeats the bytes of [cycle]; [cur] is what is left of
    the current round. *)
Fixpoint xor_stream (cycle cur : list byte) (text : list byte) : list byte :=
  match text with
  | [] => []
  | b :: tl =>
      match cur with
      | k :: cur' => xor_byte b k :: xor_stream cycle cur' tl
      | [] =>
          match cycle with
          | k :: cur' => xor_byte b k :: xor_stream cycle cur' tl
          | [] => b :: xor_stream cycle [] tl
          end
      end
  end.

(** The xor of all the bytes of a string. *)
Fixpoint checksum (l : list byte) : Z :=
  match l with
  | [] => 0
  | b :: tl => Z.lxor (byte_to_Z b) (checksum tl)
  end.

(** A 16-byte tag: the checksum of key, nonce and ciphertext, then zeros. *)
Definition xor_tag (key nonce ct : list byte) : list byte :=
  byte_of_Z (checksum (key ++ nonce ++ ct)) :: repeat x00 15.

Lemma xor_byte_involutive (a p : byte) : xor_byte (xor_byte a p) p = a.
Proof.
  apply byte_to_Z_inj. apply Z.bits_inj'. intros n Hn.
  destruct (Z.lt_ge_cases n 8) as [Hlt|Hge].
  - unfold xor_byte. rewrite byte_of_Z_testbit, Z.lxor_spec by exact Hlt.
    rewrite byte_of_Z_testbit, Z.lxor_spec by exact Hlt.
    destruct (Z.testbit (byte_to_Z a) n), (Z.testbit (byte_to_Z p) n); reflexivity.
  - rewrite !byte_testbit_high by exact Hge. reflexivity.
Qed.

Lemma xor_stream_length (cycle cur text : list byte) :
  length (xor_stream cycle cur text) = length text.
Proof.
  revert cur. induction text as [|b tl IH]; intros cur; [reflexivity|].
  cbn [xor_stream]. destruct cur as [|k cur]; [destruct cycle as [|k cur]|];
    cbn [length]; rewrite IH; reflexivity.
Qed.

Lemma xor_stream_involutive (cycle cur text : list byte) :
  xor_stream cycle cur (xor_stream cycle cur text) = text.
Proof.
  revert cur. induction text as [|b tl IH]; intros cur; [reflexivity|].
  cbn [xor_stream]. destruct cur as [|k cur]; [destruct cycle as [|k cur]|];
    cbn [xor_stream]; rewrite ?xor_byte_involutive, IH; reflexivity.
Qed.

Lemma checksum_app (a b : list byte) :
  checksum (a ++ b) = Z.lxor (checksum a) (checksum b).
Proof.
  induction a as [|x a IH]; [reflexivity|].
  cbn [app checksum]. rewrite IH, Z.lxor_assoc. reflexivity.
Qed.

Lemma byte_to_Z_flip_byte (k : Z) (b : byte) :
  0 <= k < 8 -> byte_to_Z (flip_byte k b) = Z.lxor (byte_to_Z b) (2 ^ k).
Proof.
  intros Hk. apply Z.bits_inj'. intros n Hn.
  destruct (Z.lt_ge_cases n 8) as [Hlt|Hge].
  - unfold flip_byte. rewrite byte_of_Z_testbit by exact Hlt. reflexivity.
  - rewrite Z.lxor_spec, !byte_testbit_high by exact Hge.
    rewrite Z.pow2_bits_false by lia. reflexivity.
Qed.

(** Inverting bit [i] of a string inverts bit [i mod 8] of its checksum. *)
Lemma checksum_flip_bit (i : nat) (l : list byte) :
  (i < 8 * length l)%nat ->
  checksum (flip_bit i l) = Z.lxor (checksum l) (2 ^ Z.of_nat (i mod 8)).
Proof.
  revert i. induction l as [|b tl IH]; intros i Hi; cbn [length] in Hi; [lia|].
  cbn [flip_bit]. destruct (i <? 8)%nat eqn:E.
  - apply Nat.ltb_lt in E. rewrite Nat.mod_small by exact E.
    cbn [checksum]. rewrite byte_to_Z_flip_byte by lia.
    rewrite !Z.lxor_assoc. f_equal. apply Z.lxor_comm.
  - apply Nat.ltb_ge in E.
    cbn [checksum]. rewrite IH by lia.
    replace ((i - 8) mod 8)%nat with (i mod 8)%nat.
    + rewrite Z.lxor_assoc. reflexivity.
    + replace i with ((i - 8) + 1 * 8)%nat at 1 by lia.
      rewrite Nat.Div0.mod_add. reflexivity.
Qed.

(** The checksum tag tells single-bit changes apart, under every key. *)
Lemma xor_tag_single_bit (key nonce ct : list byte) (i : nat) :
  (i < 8 * length (nonce ++ ct))%nat ->
  xor_tag key (firstn 12 (flip_bit i (nonce ++ ct)))
              (skipn 12 (flip_bit i (nonce ++ ct)))
  <> xor_tag key nonce ct.
Proof.
  intros Hi E. unfold xor_tag in E.
  apply (f_equal (hd x00)) in E. cbn [hd] in E. rename E into Hb.
  rewrite firstn_skipn in Hb.
  set (k := Z.of_nat (i mod 8)).
  assert (Hk : 0 <= k < 8).
  { subst k. pose proof (Nat.mod_upper_bound i 8). lia. }
  apply (f_equal (fun x => Z.testbit (byte_to_Z x) k)) in Hb.
  rewrite !byte_of_Z_testbit in Hb by lia.
  rewrite !checksum_app, checksum_flip_bit in Hb by exact Hi.
  rewrite <- checksum_app in Hb. fold k in Hb.
  rewrite !Z.lxor_spec, Z.pow2_bits_true in Hb by lia.
  destruct (Z.testbit (checksum key) k), (Z.testbit (checksum (nonce ++ ct)) k);
    discriminate Hb.
Qed.

#[export] Instance xor_gcm : GCM := {|
  ctr key nonce text := xor_stream (key ++ nonce) [] text;
  auth := xor_tag;
  ctr_length key nonce text := xor_stream_length (key ++ nonce) [] text;
  ctr_involutive key nonce text := xor_stream_involutive (key ++ nonce) [] text;
  auth_length key nonce ct := eq_refl
|}.

(** A [float64] that is the integer its literal denotes; literals with a
    fraction or an exponent are not read, and an integer outside the 64-bit
    range has no text (as the infinities have none). *)
#[export] Instance integer_float64 : Float64 := Z.

#[export] Instance integer_floats : Strconv := {|
  ParseFloat := JSONText.ParseInt;
  FormatFloat z :=
    if JSONText.in_int64 z then Some (JSONText.FormatInt z) else None
|}.

Lemma integer_floats_reparse : JSON.floats_reparse.
Proof.
  intros f lit H. cbn [FormatFloat integer_floats] in H.
  destruct (JSONText.in_int64 f) eqn:E; [|discriminate H].
  inversion H; subst. apply JSONText.ParseInt_FormatInt. exact E.
Qed.

End Reference.

(** * Properties *)

Section Properties.

Context {T : Float64} {F : Strconv} {G : GCM}.

Import JSON.

(** ** The cipher *)

(** What [Seal] appends to its destination: ciphertext, then tag. *)
Definition sealed (key nonce plaintext : list byte) : list byte :=
  ctr key nonce plaintext ++ auth key nonce (ctr key nonce plaintext).

Lemma bytes_eqb_refl (a : list byte) : bytes_eqb a a = true.
Proof. apply bytes_eqb_eq. reflexivity. Qed.

Lemma sealed_length (key nonce plaintext : list byte) :
  length (sealed key nonce plaintext) = (length plaintext + 16)%nat.
Proof.
  unfold sealed. rewrite length_app, ctr_length, auth_length. reflexivity.
Qed.

(** [Open] inverts [Seal]. *)
Lemma Open_sealed (g : Cipher.AEAD) (nonce plaintext : list byte) :
  Cipher.Open g nonce (sealed (Cipher.gcm_key g) nonce plaintext) = Some plaintext.
Proof.
  unfold Cipher.Open, Cipher.Overhead. rewrite sealed_length.
  replace (length plaintext + 16 <? 16)%nat with false
    by (symmetry; apply Nat.ltb_ge; lia).
  replace (length plaintext + 16 - 16)%nat with (length plaintext) by lia.
  unfold sealed. cbv zeta.
  pose proof (ctr_length (Cipher.gcm_key g) nonce plaintext) as Hl.
  pose proof (ctr_involutive (Cipher.gcm_key g) nonce plaintext) as Hi.
  set (ct := ctr (Cipher.gcm_key g) nonce plaintext) in *.
  rewrite <- Hl.
  rewrite firstn_app, skipn_app, Nat.sub_diag, firstn_all, skipn_all.
  cbn [firstn skipn app]. rewrite app_nil_r.
  rewrite bytes_eqb_refl, Hi. reflexivity.
Qed.

Lemma NewCipher_32 (key : list byte) :
  length key = 32%nat -> Cipher.NewCipher key = inl {| Cipher.block_key := key |}.
Proof.
  intros H. unfold Cipher.NewCipher. rewrite H. reflexivity.
Qed.

Lemma NewSecretClient_inv (key : list byte) (c : Client) :
  NewSecretClient key = (Some c, None) ->
  length key = 32%nat /\ encryptionKey c = key.
Proof.
  unfold NewSecretClient. destruct (length key =? 32)%nat eqn:E; cbn [negb].
  - intros H. inversion H; subst. apply Nat.eqb_eq in E. split; [exact E|reflexivity].
  - discriminate.
Qed.

(** ** Shroud, step by step *)

(** The token [Shroud] makes from the serialized value and the nonce. *)
Definition token (key nonce data : list byte) : string :=
  Base64.EncodeToString (nonce ++ sealed key nonce data).

(** [Shroud] succeeds exactly when the value serializes, the key has an AES
    length and the random source delivers a nonce; the secret then holds
    [token]. *)
Lemma Shroud_success (c : Client) (v : GoValue) (rand rand' : Reader) (s : Secret) :
  Shroud c v rand = ((Some s, None), rand') ->
  exists data,
    Marshal v = (data, None) /\ data <> [] /\
    (12 <= length rand)%nat /\ rand' = skipn 12 rand /\
    s = {| encrypted := token (encryptionKey c) (firstn 12 rand) data; client := c |}.
Proof.
  unfold Shroud. intros H.
  destruct (Marshal v) as [data [e|]]; cbv beta iota in H; [discriminate H|].
  destruct (length data =? 0)%nat eqn:El; cbv beta iota in H. 1: discriminate H.
  destruct (Cipher.NewCipher (encryptionKey c)) as [block|e] eqn:Ec;
    cbv beta iota in H; [|discriminate H].
  unfold Cipher.NewGCM, Cipher.NonceSize, ReadFull in H.
  destruct (12 <=? length rand)%nat eqn:Er; cbv beta iota in H; [|discriminate H].
  inversion H; subst. exists data.
  apply Nat.eqb_neq in El. apply Nat.leb_le in Er.
  repeat split; try assumption.
  - intros ->. apply El. reflexivity.
  - unfold token, Cipher.Seal, sealed. cbn [Cipher.gcm_key].
    unfold Cipher.NewCipher in Ec.
    assert (Hk : Cipher.block_key block = encryptionKey c).
    { repeat match type of Ec with
             | match ?n with _ => _ end = _ => destruct n; try discriminate Ec
             end; inversion Ec; reflexivity. }
    rewrite Hk. reflexivity.
Qed.

Lemma Shroud_ok (c : Client) (v : GoValue) (rand : Reader) (data : list byte) :
  length (encryptionKey c) = 32%nat ->
  Marshal v = (data, None) -> data <> [] -> (12 <= length rand)%nat ->
  Shroud c v rand
  = ((Some {| encrypted := token (encryptionKey c) (firstn 12 rand) data;
              client := c |}, None), skipn 12 rand).
Proof.
  intros Hk Hm Hd Hr. unfold Shroud. rewrite Hm.
  replace (length data =? 0)%nat with false
    by (symmetry; apply Nat.eqb_neq; destruct data; [congruence|discriminate]).
  rewrite NewCipher_32 by exact Hk.
  unfold Cipher.NewGCM, Cipher.NonceSize, ReadFull.
  replace (12 <=? length rand)%nat with true by (symmetry; apply Nat.leb_le; exact Hr).
  reflexivity.
Qed.

(** How [Expose] wraps the outcome of [Unmarshal]. *)
Definition wrap_unmarshal (r : Dest * option Error) : Dest * option error :=
  match r with
  | (dest', Some e) => (dest', Some (Errorf "failed to unmarshal value" (JSONError e)))
  | (dest', None) => (dest', None)
  end.

(** [Expose] on decoded bytes [blob], for a client with a 32-byte key. *)
Lemma Expose_decoded (s : Secret) (dest : Dest) (blob : list byte) :
  length (encryptionKey (client s)) = 32%nat ->
  Base64.DecodeString (encrypted s) = Some blob ->
  Expose s dest
  = if (length blob <? 12)%nat then (dest, Some ErrInvalidSecret)
    else
      match Cipher.Open {| Cipher.gcm_key := encryptionKey (client s) |}
              (firstn 12 blob) (skipn 12 blob) with
      | None => (dest, Some ErrInvalidSecret)
      | Some plaintext => wrap_unmarshal (Unmarshal plaintext dest)
      end.
Proof.
  intros Hk Hd. unfold Expose. rewrite Hd, NewCipher_32 by exact Hk.
  unfold Cipher.NewGCM, Cipher.NonceSize. cbn [Cipher.block_key].
  destruct (length blob <? 12)%nat; [reflexivity|].
  destruct (Cipher.Open _ _ _); [|reflexivity].
  unfold wrap_unmarshal. destruct (Unmarshal l dest) as [d [e|]]; reflexivity.
Qed.

(** Exposing a token made by [Shroud] is deserializing what was serialized:
    encoding and encryption cancel out. *)
Lemma Expose_token (c : Client) (nonce data : list byte) (dest : Dest) :
  length (encryptionKey c) = 32%nat -> length nonce = 12%nat ->
  Expose {| encrypted := token (encryptionKey c) nonce data; client := c |} dest
  = wrap_unmarshal (Unmarshal data dest).
Proof.
  intros Hk Hn.
  rewrite (Expose_decoded _ dest (nonce ++ sealed (encryptionKey c) nonce data))
    by (try exact Hk; apply Base64.DecodeString_EncodeToString).
  cbn [client]. rewrite length_app, Hn.
  replace (12 + _ <? 12)%nat with false by (symmetry; apply Nat.ltb_ge; lia).
  rewrite <- Hn. rewrite firstn_app, skipn_app, Nat.sub_diag, firstn_all, skipn_all.
  cbn [firstn skipn app]. rewrite app_nil_r.
  rewrite (Open_sealed {| Cipher.gcm_key := encryptionKey c |}). reflexivity.
Qed.

Lemma Open_app (g : Cipher.AEAD) (nonce ct tag : list byte) :
  length tag = 16%nat ->
  Cipher.Open g nonce (ct ++ tag)
  = if bytes_eqb (auth (Cipher.gcm_key g) nonce ct) tag
    then Some (ctr (Cipher.gcm_key g) nonce ct) else None.
Proof.
  intros Ht. unfold Cipher.Open, Cipher.Overhead. rewrite length_app, Ht.
  replace (length ct + 16 <? 16)%nat with false by (symmetry; apply Nat.ltb_ge; lia).
  replace (length ct + 16 - 16)%nat with (length ct) by lia.
  cbv zeta.
  rewrite firstn_app, skipn_app, Nat.sub_diag, firstn_all, skipn_all.
  cbn [firstn skipn app]. rewrite app_nil_r. reflexivity.
Qed.

(** ** The round trip *)


(** ** Fresh nonces *)

(** C3 (as amended) -- Nonce uniqueness: for every value that [Shroud]
    accepts, two calls of [Shroud] on the same client whose nonces differ
    give two different tokens, and the two secrets expose alike in every
    destination.  When the value is of the data model and nested at most
    10000 deep, each of the two secrets exposes to the value on its own (up
    to the numeric collapse). *)
Theorem fresh_nonce_fresh_token (key : list byte) (c : Client)
        (v : GoValue) (rand r1 r2 : Reader) (s1 s2 : Secret) :
  NewSecretClient key = (Some c, None) ->
  Shroud c v rand = ((Some s1, None), r1) ->
  Shroud c v r1 = ((Some s2, None), r2) ->
  firstn 12 rand <> firstn 12 r1 ->
  EncryptedValue s1 <> EncryptedValue s2 /\
  (forall dest, Expose s1 dest = Expose s2 dest) /\
  (forall t,
      in_model t v = true ->
      (nesting v <= JSONText.maxNestingDepth)%nat ->
      Expose s1 (DestPtr t (zero t)) = (DestPtr t (collapse t v), None) /\
      Expose s2 (DestPtr t (zero t)) = (DestPtr t (collapse t v), None) /\
      (floats_reparse -> numbers_typed t v = true -> collapse t v = v)).
Proof.
  intros Hc H1 H2 Hn. apply NewSecretClient_inv in Hc. destruct Hc as [Hk Hc].
  apply Shroud_success in H1. destruct H1 as (d1 & Hm1 & _ & Hr1 & _ & ->).
  apply Shroud_success in H2. destruct H2 as (d2 & Hm2 & _ & Hr2 & _ & ->).
  assert (d2 = d1) by congruence. subst d2.
  assert (Hl1 : length (firstn 12 rand) = 12%nat) by (rewrite length_firstn; lia).
  assert (Hl2 : length (firstn 12 r1) = 12%nat) by (rewrite length_firstn; lia).
  assert (Hk' : length (encryptionKey c) = 32%nat) by congruence.
  split; [|split].
  - unfold EncryptedValue, token. cbn [encrypted]. intros E.
    apply Base64.EncodeToString_inj in E.
    apply Hn. apply (f_equal (firstn 12)) in E.
    rewrite !firstn_app_len in E by assumption. exact E.
  - intros dest. rewrite !Expose_token by assumption. reflexivity.
  - intros t Hm Hd.
    destruct (Unmarshal_Marshal t v Hm Hd) as (data & Hma & Hne & Hun).
    assert (d1 = data) by congruence. subst d1.
    rewrite !Expose_token by assumption. rewrite Hun.
    split; [reflexivity|]. split; [reflexivity|].
    intros Hf. apply collapse_numbers_typed. exact Hf.
Qed.

(** ** Tampering *)

Lemma bytes_eqb_neq (a b : list byte) : a <> b -> bytes_eqb a b = false.
Proof.
  intros H. destruct (bytes_eqb a b) eqn:E; [|reflexivity].
  apply bytes_eqb_eq in E. contradiction.
Qed.

(** The authenticator under [key] tells apart a nonce and ciphertext from
    the same with one bit inverted.  (A GCM tag is a polynomial of the
    ciphertext in the hash subkey, masked by the encrypted nonce: it has
    this property for every key whose hash subkey is not zero.) *)
Definition authentic (key : list byte) : Prop :=
  forall nonce ct i,
    length nonce = 12%nat -> (i < 8 * (12 + length ct))%nat ->
    auth key (firstn 12 (flip_bit i (nonce ++ ct)))
             (skipn 12 (flip_bit i (nonce ++ ct)))
    <> auth key nonce ct.

(** C2 -- Tamper detection: under a client with a valid key whose
    authenticator tells single-bit changes apart, (1) every token whose
    decoded bytes are fewer than the 12 bytes of a nonce makes [Expose] fail
    with [ErrInvalidSecret], and (2) for every token made by [Shroud],
    inverting any single bit of its decoded bytes gives a token that
    [CreateFromEncrypted] accepts and on which [Expose] fails with
    [ErrInvalidSecret]; in both cases the destination is left as it was, so
    no other value is ever delivered. *)
Theorem tamper_detection (key : list byte) (c : Client) :
  NewSecretClient key = (Some c, None) ->
  authentic key ->
  (forall tok blob dest,
      Base64.DecodeString tok = Some blob -> (length blob < 12)%nat ->
      Expose {| encrypted := tok; client := c |} dest = (dest, Some ErrInvalidSecret)) /\
  (forall v rand rand' s blob i dest,
      Shroud c v rand = ((Some s, None), rand') ->
      Base64.DecodeString (EncryptedValue s) = Some blob ->
      (i < 8 * length blob)%nat ->
      exists s',
        CreateFromEncrypted c (Base64.EncodeToString (flip_bit i blob)) = (Some s', None) /\
        Expose s' dest = (dest, Some ErrInvalidSecret)).
Proof.
  intros Hc Ha. apply NewSecretClient_inv in Hc. destruct Hc as [Hk Hc].
  subst key. rename Hk into Hk'.
  split.
  - intros tok blob dest Hd Hl.
    rewrite (Expose_decoded _ dest blob) by assumption.
    replace (length blob <? 12)%nat with true by (symmetry; apply Nat.ltb_lt; exact Hl).
    reflexivity.
  - intros v rand rand' s blob i dest Hs Hd Hi.
    apply Shroud_success in Hs. destruct Hs as (data & _ & _ & Hr & _ & ->).
    unfold EncryptedValue, token in Hd. cbn [encrypted] in Hd.
    rewrite Base64.DecodeString_EncodeToString in Hd.
    assert (Hn : length (firstn 12 rand) = 12%nat) by (rewrite length_firstn; lia).
    remember (firstn 12 rand) as nonce eqn:En. clear En.
    assert (Hb : blob = nonce ++ sealed (encryptionKey c) nonce data) by congruence.
    clear Hd. subst blob. unfold sealed in *.
    set (ct := ctr (encryptionKey c) nonce data) in *.
    set (tag := auth (encryptionKey c) nonce ct) in *.
    assert (Ht : length tag = 16%nat) by apply auth_length.
    set (blob' := flip_bit i (nonce ++ ct ++ tag)).
    assert (Hlen : length blob' = (12 + length ct + 16)%nat).
    { subst blob'. rewrite flip_bit_length, !length_app. lia. }
    exists {| encrypted := Base64.EncodeToString blob'; client := c |}.
    split.
    + unfold CreateFromEncrypted.
      rewrite Base64.DecodeString_EncodeToString.
      replace (String.eqb (Base64.EncodeToString blob') EmptyString) with false;
        [reflexivity|].
      symmetry. apply String.eqb_neq. apply Base64.EncodeToString_nonempty.
      intros E. rewrite E in Hlen. cbn [length] in Hlen. lia.
    + rewrite (Expose_decoded _ dest blob')
        by (try exact Hk'; apply Base64.DecodeString_EncodeToString).
      cbn [client].
      replace (length blob' <? 12)%nat with false by (symmetry; apply Nat.ltb_ge; lia).
      rewrite length_app, length_app in Hi.
      destruct (Nat.lt_ge_cases i (8 * (12 + length ct))) as [Hlt|Hge].
      * assert (E : blob' = flip_bit i (nonce ++ ct) ++ tag).
        { subst blob'. rewrite app_assoc. apply flip_bit_app_l.
          rewrite length_app. lia. }
        set (m := flip_bit i (nonce ++ ct)) in *.
        assert (Hm : length m = (12 + length ct)%nat).
        { subst m. rewrite flip_bit_length, length_app. lia. }
        rewrite E.
        rewrite firstn_app, skipn_app.
        replace (12 - length m)%nat with 0%nat by lia.
        cbn [firstn skipn]. rewrite app_nil_r.
        rewrite Open_app by exact Ht. cbn [Cipher.gcm_key].
        rewrite bytes_eqb_neq; [reflexivity|].
        apply Ha; assumption.
      * assert (E : blob' = nonce ++ ct ++ flip_bit (i - 8 * (12 + length ct)) tag).
        { subst blob'. rewrite app_assoc, flip_bit_app_r by (rewrite length_app; lia).
          rewrite length_app, Hn, <- app_assoc. reflexivity. }
        rewrite E.
        rewrite firstn_app_len, skipn_app_len by exact Hn.
        rewrite Open_app by (rewrite flip_bit_length; exact Ht). cbn [Cipher.gcm_key].
        rewrite bytes_eqb_neq; [reflexivity|].
        intros E'. symmetry in E'. revert E'. apply flip_bit_neq.
        fold ct tag. lia.
Qed.

(** ** Failures *)

(** C7 (as amended) -- Failure of [Expose]: whenever [Expose] returns an
    error that is not a type mismatch found while deserializing (so: the
    token does not decode, the cipher cannot be made, the token is short,
    authentication fails, the text is not JSON, or the destination is nil),
    the destination is left as it was; and whenever [Shroud] returns an
    error it returns no secret. *)
Theorem failure_leaves_no_result :
  (forall s dest dest' e,
      Expose s dest = (dest', Some e) ->
      (forall value type,
          e <> Errorf "failed to unmarshal value"
                 (JSONError (UnmarshalTypeError value type))) ->
      dest' = dest) /\
  (forall c v rand secret e rand',
      Shroud c v rand = ((secret, Some e), rand') -> secret = None).
Proof.
  split.
  - intros s dest dest' e H Hne. unfold Expose in H.
    destruct (Base64.DecodeString (encrypted s)) as [blob|];
      [|inversion H; reflexivity].
    destruct (Cipher.NewCipher (encryptionKey (client s))) as [block|ke];
      [|inversion H; reflexivity].
    unfold Cipher.NewGCM, Cipher.NonceSize in H.
    destruct (length blob <? 12)%nat; [inversion H; reflexivity|].
    destruct (Cipher.Open _ _ _) as [plaintext|]; [|inversion H; reflexivity].
    destruct (Unmarshal plaintext dest) as [d [je|]] eqn:Eu; [|discriminate H].
    inversion H; subst. clear H.
    destruct (Unmarshal_failure _ _ _ _ Eu) as [[_ Hd]|[[_ Hd]|Ht]];
      [exact Hd|exact Hd|].
    destruct je; try destruct Ht. exfalso. apply (Hne value type). reflexivity.
  - intros c v rand secret e rand' H. unfold Shroud in H.
    destruct (Marshal v) as [data [je|]]; cbv beta iota in H;
      [inversion H; reflexivity|].
    destruct (length data =? 0)%nat; [inversion H; reflexivity|].
    destruct (Cipher.NewCipher (encryptionKey c)) as [block|ke];
      [|inversion H; reflexivity].
    unfold Cipher.NewGCM, Cipher.NonceSize, ReadFull in H.
    destruct (12 <=? length rand)%nat; cbv beta iota in H;
      [discriminate H|inversion H; reflexivity].
Qed.

(** C8 (as amended) -- Nil destination: for every secret, [Expose] with a
    nil destination fails.  When the token decodes, authenticates and
    decrypts to a JSON text, the error is the deserialization error of the
    package, "failed to unmarshal value", around [InvalidUnmarshalError] of
    the JSON library: the same wrapping as for a shape mismatch, and no
    error kind of its own.  For other secrets the decoding, authentication
    or syntax error comes first. *)
Theorem Expose_nil_destination (s : Secret) :
  (exists e, Expose s DestNil = (DestNil, Some e)) /\
  (forall blob plaintext j,
      length (encryptionKey (client s)) = 32%nat ->
      Base64.DecodeString (encrypted s) = Some blob ->
      (12 <= length blob)%nat ->
      Cipher.Open {| Cipher.gcm_key := encryptionKey (client s) |}
        (firstn 12 blob) (skipn 12 blob) = Some plaintext ->
      JSONText.parse plaintext = Some j ->
      Expose s DestNil
      = (DestNil, Some (Errorf "failed to unmarshal value"
                          (JSONError InvalidUnmarshalError)))).
Proof.
  split.
  - unfold Expose.
    destruct (Base64.DecodeString (encrypted s)) as [blob|]; [|eexists; reflexivity].
    destruct (Cipher.NewCipher (encryptionKey (client s))) as [block|ke];
      [|eexists; reflexivity].
    unfold Cipher.NewGCM, Cipher.NonceSize.
    destruct (length blob <? 12)%nat; [eexists; reflexivity|].
    destruct (Cipher.Open _ _ _) as [plaintext|]; [|eexists; reflexivity].
    unfold Unmarshal. destruct (JSONText.parse plaintext); eexists; reflexivity.
  - intros blob plaintext j Hk Hd Hl Ho Hp.
    rewrite (Expose_decoded s DestNil blob Hk Hd).
    replace (length blob <? 12)%nat with false by (symmetry; apply Nat.ltb_ge; exact Hl).
    rewrite Ho. unfold Unmarshal. rewrite Hp. reflexivity.
Qed.

(** C9 (as amended) -- Values that cannot be serialized: for every value in
    which the encoder reaches a function, a channel or a complex number
    (the value itself, an element of a slice, a value of a map, an exported
    field of a struct), [Shroud] fails with the serialization error of the
    package, "failed to marshal value" around the error of [Marshal],
    returns no secret and reads nothing from the random source. *)
Theorem Shroud_rejects_unsupported (c : Client) (v : GoValue) (rand : Reader) :
  reaches_unsupported v = true ->
  exists e,
    Shroud c v rand
    = ((None, Some (Errorf "failed to marshal value" (JSONError e))), rand).
Proof.
  intros H. destruct (to_json_unsupported v H) as [e He].
  exists e. unfold Shroud, Marshal. rewrite He. reflexivity.
Qed.

(** ** Key validation *)

(** C4 -- Key validation: for every byte sequence [key],
    [NewSecretClient key] succeeds if and only if [key] is 32 bytes long;
    then it returns the client that holds the key, and for any other length
    it returns no client and [ErrInvalidKey]. *)
Theorem NewSecretClient_iff_32 (key : list byte) :
  ((exists c, NewSecretClient key = (Some c, None)) <-> length key = 32%nat) /\
  (length key = 32%nat ->
   NewSecretClient key = (Some {| encryptionKey := key |}, None)) /\
  (length key <> 32%nat -> NewSecretClient key = (None, Some ErrInvalidKey)).
Proof.
  unfold NewSecretClient.
  destruct (length key =? 32)%nat eqn:E; cbn [negb].
  - apply Nat.eqb_eq in E. repeat split; try congruence.
    exists {| encryptionKey := key |}. reflexivity.
  - apply Nat.eqb_neq in E. repeat split; try congruence.
    intros [c H]. discriminate H.
Qed.

(** The lengths on both sides of the boundary that the tests try. *)
Example NewSecretClient_lengths :
  map (fun n => NewSecretClient (repeat x00 n)) [0; 16; 64; 32]%nat
  = [ (None, Some ErrInvalidKey); (None, Some ErrInvalidKey);
      (None, Some ErrInvalidKey);
      (Some {| encryptionKey := repeat x00 32 |}, None) ].
Proof. reflexivity. Qed.

(** ** Tokens *)

(** C5 -- Token format: whenever [Shroud] succeeds, the secret's token is
    the standard base64 encoding of nonce, ciphertext and tag in this order,
    where the nonce is the 12 bytes read from the random source, the
    ciphertext is as long as the serialized value and the tag is 16 bytes
    long; so the decoded token has 12 + len(serialized value) + 16 bytes. *)
Theorem Shroud_token_format (c : Client) (v : GoValue) (rand rand' : Reader)
        (s : Secret) :
  Shroud c v rand = ((Some s, None), rand') ->
  exists data nonce ct tag,
    Marshal v = (data, None) /\
    nonce = firstn 12 rand /\ length nonce = 12%nat /\
    ct = ctr (encryptionKey c) nonce data /\ length ct = length data /\
    tag = auth (encryptionKey c) nonce ct /\ length tag = 16%nat /\
    EncryptedValue s = Base64.EncodeToString (nonce ++ ct ++ tag) /\
    Base64.DecodeString (EncryptedValue s) = Some (nonce ++ ct ++ tag) /\
    length (nonce ++ ct ++ tag) = (12 + length data + 16)%nat.
Proof.
  intros H. apply Shroud_success in H.
  destruct H as (data & Hm & Hd & Hr & _ & ->).
  exists data, (firstn 12 rand),
    (ctr (encryptionKey c) (firstn 12 rand) data),
    (auth (encryptionKey c) (firstn 12 rand)
       (ctr (encryptionKey c) (firstn 12 rand) data)).
  assert (Hn : length (firstn 12 rand) = 12%nat) by (rewrite length_firstn; lia).
  repeat split; try assumption; try reflexivity.
  - apply ctr_length.
  - apply auth_length.
  - unfold EncryptedValue. cbn [encrypted]. unfold token, sealed.
    apply Base64.DecodeString_EncodeToString.
  - rewrite !length_app, Hn, ctr_length, auth_length. lia.
Qed.

(** C10 -- Every secret made by [Shroud] or by [CreateFromEncrypted] holds
    a token that [DecodeString] accepts: the first step of [Expose] cannot
    fail on it, and [EncryptedValue] returns valid base64. *)
Theorem stored_token_is_base64 (c : Client) :
  (forall v rand rand' s,
      Shroud c v rand = ((Some s, None), rand') ->
      exists blob, Base64.DecodeString (EncryptedValue s) = Some blob) /\
  (forall tok s,
      CreateFromEncrypted c tok = (Some s, None) ->
      exists blob, Base64.DecodeString (EncryptedValue s) = Some blob).
Proof.
  split.
  - intros v rand rand' s H.
    apply Shroud_success in H. destruct H as (data & _ & _ & _ & _ & ->).
    eexists. unfold EncryptedValue. cbn [encrypted]. unfold token.
    apply Base64.DecodeString_EncodeToString.
  - intros tok s. unfold CreateFromEncrypted.
    destruct (String.eqb tok EmptyString); [discriminate|].
    destruct (Base64.DecodeString tok) as [blob|] eqn:E; [|discriminate].
    intros H. inversion H; subst. exists blob. exact E.
Qed.

(** C6 -- [CreateFromEncrypted]: an empty token is refused with
    [ErrEmptyValue], a non-empty token that is not standard base64 with
    [ErrInvalidSecret], and every other token gives a secret that holds it,
    whatever it decodes to.  Nothing is decrypted: the token AAAA is valid
    base64 of three bytes, it gives a secret, and the error shows only when
    the secret is exposed. *)
Theorem CreateFromEncrypted_cases (c : Client) (tok : string) :
  (tok = EmptyString -> CreateFromEncrypted c tok = (None, Some ErrEmptyValue)) /\
  (tok <> EmptyString -> Base64.DecodeString tok = None ->
   CreateFromEncrypted c tok = (None, Some ErrInvalidSecret)) /\
  (tok <> EmptyString -> forall blob, Base64.DecodeString tok = Some blob ->
   CreateFromEncrypted c tok = (Some {| encrypted := tok; client := c |}, None)) /\
  (CreateFromEncrypted c "AAAA" = (Some {| encrypted := "AAAA"; client := c |}, None) /\
   (length (encryptionKey c) = 32%nat ->
    forall dest, Expose {| encrypted := "AAAA"; client := c |} dest
                 = (dest, Some ErrInvalidSecret))).
Proof.
  unfold CreateFromEncrypted. repeat split.
  - intros ->. reflexivity.
  - intros Hne Hd. apply String.eqb_neq in Hne. rewrite Hne, Hd. reflexivity.
  - intros Hne blob Hd. apply String.eqb_neq in Hne. rewrite Hne, Hd. reflexivity.
  - intros Hk dest.
    rewrite (Expose_decoded _ dest [x00; x00; x00]) by (exact Hk || reflexivity).
    reflexivity.
Qed.

End Properties.

(** * More of the package: what each call can return *)

Section Outcomes.

Context {T : Float64} {F : Strconv} {G : GCM}.

Import JSON.

(** The encoder's texts of floats are not empty (a [float64] that has a
    text has at least one digit). *)
Definition floats_have_text : Prop :=
  forall f lit, FormatFloat f = Some lit -> lit <> [].

Lemma FormatInt_nonempty (n : Z) : JSONText.FormatInt n <> [].
Proof.
  intros E. pose proof (JSONText.is_number_FormatInt n) as H.
  rewrite E in H. discriminate H.
Qed.

(** The text [Marshal] returns without an error is never empty. *)
Lemma Marshal_nonempty (v : GoValue) (data : list byte) :
  floats_have_text -> Marshal v = (data, None) -> data <> [].
Proof.
  intros Hf. unfold Marshal.
  destruct (to_json v) as [e|j] eqn:Ej; [discriminate|].
  intros H. inversion H; subst. clear H.
  destruct v; cbn [to_json] in Ej.
  - inversion Ej. discriminate.
  - inversion Ej. destruct b; discriminate.
  - inversion Ej. cbn [JSONText.print]. apply FormatInt_nonempty.
  - destruct (FormatFloat f) as [lit|] eqn:Ef; [|discriminate Ej].
    inversion Ej. cbn [JSONText.print]. exact (Hf f lit Ef).
  - inversion Ej. discriminate.
  - match type of Ej with
    | match ?x with _ => _ end = _ => destruct x; [discriminate Ej|]
    end.
    inversion Ej. discriminate.
  - match type of Ej with
    | match ?x with _ => _ end = _ => destruct x; [discriminate Ej|]
    end.
    inversion Ej. discriminate.
  - match type of Ej with
    | match ?x with _ => _ end = _ => destruct x; [discriminate Ej|]
    end.
    inversion Ej. discriminate.
  - discriminate Ej.
  - discriminate Ej.
  - discriminate Ej.
Qed.

(** X1 -- [Shroud] never returns [ErrEmptyValue]: the text of a value that
    serializes is not empty, so the test of its length never fires. *)
Theorem Shroud_never_ErrEmptyValue (c : Client) (v : GoValue) (rand : Reader) :
  floats_have_text ->
  snd (fst (Shroud c v rand)) <> Some ErrEmptyValue.
Proof.
  intros Hf. unfold Shroud.
  destruct (Marshal v) as [data [e|]] eqn:Em; cbn [fst snd]; [discriminate|].
  pose proof (Marshal_nonempty v data Hf Em) as Hd.
  destruct data as [|b data]; [contradiction|]. cbn [length Nat.eqb].
  destruct (Cipher.NewCipher (encryptionKey c)); cbn [fst snd]; [|discriminate].
  unfold Cipher.NewGCM, Cipher.NonceSize, ReadFull.
  destruct (12 <=? length rand)%nat; cbn [fst snd]; discriminate.
Qed.

(** X2 -- With a client made by [NewSecretClient], [Shroud] fails in two ways
    only: the value does not serialize (and nothing is read from the random
    source), or the random source has fewer than 12 bytes left.  The cipher
    is always made: the errors "failed to create cipher" and "failed to
    create GCM" never come back. *)
Theorem Shroud_failures (key : list byte) (c : Client) (v : GoValue)
        (rand rand' : Reader) (o : option Secret) (e : error) :
  NewSecretClient key = (Some c, None) ->
  floats_have_text ->
  Shroud c v rand = ((o, Some e), rand') ->
  o = None /\
  ((exists data je, Marshal v = (data, Some je) /\
                    e = Errorf "failed to marshal value" (JSONError je) /\
                    rand' = rand) \/
   (exists data re, Marshal v = (data, None) /\ (length rand < 12)%nat /\
                    e = Errorf "failed to generate nonce" (RandError re) /\
                    rand' = [])).
Proof.
  intros Hc Hf H. apply NewSecretClient_inv in Hc. destruct Hc as [Hk Hc]. subst key.
  unfold Shroud in H.
  destruct (Marshal v) as [data [je|]] eqn:Em.
  - inversion H; subst. split; [reflexivity|]. left. exists data, je. auto.
  - pose proof (Marshal_nonempty v data Hf Em) as Hd.
    destruct data as [|b data]; [contradiction|]. cbn [length Nat.eqb] in H.
    rewrite NewCipher_32 in H by exact Hk.
    unfold Cipher.NewGCM, Cipher.NonceSize, ReadFull in H.
    destruct (12 <=? length rand)%nat eqn:Er; [discriminate H|].
    inversion H; subst. split; [reflexivity|]. right.
    apply Nat.leb_gt in Er. eexists; eexists. repeat split; exact Er || reflexivity.
Qed.

(** X3 -- A random source that runs dry: with a value that serializes and fewer
    than 12 bytes to read, [Shroud] returns no secret and the error of
    [io.ReadFull] inside "failed to generate nonce": [EOF] when nothing
    could be read, [ErrUnexpectedEOF] when some bytes could. *)
Theorem Shroud_short_random_source (key : list byte) (c : Client) (v : GoValue)
        (data : list byte) (rand : Reader) :
  NewSecretClient key = (Some c, None) ->
  floats_have_text ->
  Marshal v = (data, None) ->
  (length rand < 12)%nat ->
  Shroud c v rand
  = ((None, Some (Errorf "failed to generate nonce"
                    (RandError (match rand with
                                | [] => EOF
                                | _ => ErrUnexpectedEOF
                                end)))), []).
Proof.
  intros Hc Hf Hm Hr. apply NewSecretClient_inv in Hc. destruct Hc as [Hk Hc].
  subst key. unfold Shroud. rewrite Hm.
  pose proof (Marshal_nonempty v data Hf Hm) as Hd.
  destruct data as [|b data]; [contradiction|]. cbn [length Nat.eqb].
  rewrite NewCipher_32 by exact Hk.
  unfold Cipher.NewGCM, Cipher.NonceSize, ReadFull.
  replace (12 <=? length rand)%nat with false
    by (symmetry; apply Nat.leb_gt; exact Hr).
  reflexivity.
Qed.

(** X4 -- With a client that holds a key of 32 bytes, [Expose] fails in two ways
    only: [ErrInvalidSecret], which leaves the destination as it was, or
    "failed to unmarshal value" around an error of the JSON decoder. *)
Theorem Expose_failures (s : Secret) (dest dest' : Dest) (e : error) :
  length (encryptionKey (client s)) = 32%nat ->
  Expose s dest = (dest', Some e) ->
  (e = ErrInvalidSecret /\ dest' = dest) \/
  (exists je, e = Errorf "failed to unmarshal value" (JSONError je)).
Proof.
  intros Hk H. unfold Expose in H.
  destruct (Base64.DecodeString (encrypted s)) as [blob|];
    [|inversion H; left; split; reflexivity].
  rewrite NewCipher_32 in H by exact Hk.
  unfold Cipher.NewGCM, Cipher.NonceSize in H.
  destruct (length blob <? 12)%nat; [inversion H; left; split; reflexivity|].
  destruct (Cipher.Open _ _ _) as [plaintext|];
    [|inversion H; left; split; reflexivity].
  destruct (Unmarshal plaintext dest) as [d [je|]]; [|discriminate H].
  inversion H; subst. right. exists je. reflexivity.
Qed.

(** X5 -- The deserializer only sees authenticated text: when [Expose] returns
    anything but [ErrInvalidSecret], the token decodes to a nonce of 12
    bytes, a ciphertext and the tag of the two under the client's key, and
    the outcome is that of [Unmarshal] on the decrypted ciphertext. *)
Theorem Expose_authenticates_first (s : Secret) (dest : Dest) :
  length (encryptionKey (client s)) = 32%nat ->
  snd (Expose s dest) <> Some ErrInvalidSecret ->
  exists nonce ct,
    Base64.DecodeString (encrypted s)
    = Some (nonce ++ ct ++ auth (encryptionKey (client s)) nonce ct) /\
    length nonce = 12%nat /\
    Expose s dest
    = wrap_unmarshal (Unmarshal (ctr (encryptionKey (client s)) nonce ct) dest).
Proof.
  intros Hk H.
  destruct (Base64.DecodeString (encrypted s)) as [blob|] eqn:Ed;
    [|unfold Expose in H; rewrite Ed in H; contradiction H; reflexivity].
  rewrite (Expose_decoded s dest blob Hk Ed) in H |- *.
  destruct (length blob <? 12)%nat eqn:El; [contradiction H; reflexivity|].
  apply Nat.ltb_ge in El.
  unfold Cipher.Open, Cipher.Overhead in *. cbn [Cipher.gcm_key] in *.
  destruct (length (skipn 12 blob) <? 16)%nat eqn:Et; [contradiction H; reflexivity|].
  apply Nat.ltb_ge in Et. cbv zeta in *.
  set (rest := skipn 12 blob) in *.
  set (ct := firstn (length rest - 16) rest) in *.
  set (tag := skipn (length rest - 16) rest) in *.
  destruct (bytes_eqb (auth (encryptionKey (client s)) (firstn 12 blob) ct) tag)
    eqn:Ea; [|contradiction H; reflexivity].
  apply bytes_eqb_eq in Ea.
  exists (firstn 12 blob), ct. split; [|split].
  - f_equal. rewrite Ea. subst ct tag rest.
    rewrite firstn_skipn, firstn_skipn. reflexivity.
  - rewrite length_firstn. lia.
  - reflexivity.
Qed.

(** X6 -- A token too short for a nonce and a tag: when the decoded bytes are
    fewer than 28, [Expose] fails with [ErrInvalidSecret] and leaves the
    destination as it was. *)
Theorem Expose_short_token (s : Secret) (blob : list byte) (dest : Dest) :
  length (encryptionKey (client s)) = 32%nat ->
  Base64.DecodeString (encrypted s) = Some blob ->
  (length blob < 28)%nat ->
  Expose s dest = (dest, Some ErrInvalidSecret).
Proof.
  intros Hk Hd Hl. rewrite (Expose_decoded s dest blob Hk Hd).
  destruct (length blob <? 12)%nat eqn:El; [reflexivity|].
  apply Nat.ltb_ge in El.
  unfold Cipher.Open, Cipher.Overhead.
  replace (length (skipn 12 blob) <? 16)%nat with true; [reflexivity|].
  symmetry. apply Nat.ltb_lt. rewrite length_skipn. lia.
Qed.

End Outcomes.

(** * More of the package: encryption is transparent *)

Section Transparency.

Context {T : Float64} {F : Strconv} {G : GCM}.

Import JSON.

(** X7 -- Between [Marshal] and [Unmarshal] the package adds nothing and loses
    nothing: for every value that serializes (structs and floats too),
    with a client made by [NewSecretClient] and 12 bytes of randomness,
    [Shroud] succeeds and [Expose] on its secret returns, in every
    destination, what [Unmarshal] returns on the text of [Marshal], its
    error inside "failed to unmarshal value". *)
Theorem Expose_Shroud_is_Unmarshal_Marshal (key : list byte) (c : Client)
        (v : GoValue) (data : list byte) (rand : Reader) :
  NewSecretClient key = (Some c, None) ->
  floats_have_text ->
  Marshal v = (data, None) ->
  (12 <= length rand)%nat ->
  exists s,
    Shroud c v rand = ((Some s, None), skipn 12 rand) /\
    forall dest,
      Expose s dest
      = match Unmarshal data dest with
        | (dest', Some e) =>
            (dest', Some (Errorf "failed to unmarshal value" (JSONError e)))
        | (dest', None) => (dest', None)
        end.
Proof.
  intros Hc Hf Hm Hr.
  apply NewSecretClient_inv in Hc. destruct Hc as [Hk Hc]. subst key.
  eexists. split.
  - apply Shroud_ok; try eassumption. exact (Marshal_nonempty v data Hf Hm).
  - intros dest. rewrite Expose_token by (try exact Hk; rewrite length_firstn; lia).
    reflexivity.
Qed.

(** X8 -- A token tells its text: two secrets of [Shroud] under one key with the
    same token were made from the same serialized text with the same
    nonce. *)
Theorem Shroud_token_injective (c : Client) (v1 v2 : GoValue)
        (rand1 rand1' rand2 rand2' : Reader) (s1 s2 : Secret) :
  Shroud c v1 rand1 = ((Some s1, None), rand1') ->
  Shroud c v2 rand2 = ((Some s2, None), rand2') ->
  EncryptedValue s1 = EncryptedValue s2 ->
  Marshal v1 = Marshal v2 /\ firstn 12 rand1 = firstn 12 rand2.
Proof.
  intros H1 H2 E.
  apply Shroud_success in H1. destruct H1 as (d1 & Hm1 & _ & Hr1 & _ & ->).
  apply Shroud_success in H2. destruct H2 as (d2 & Hm2 & _ & Hr2 & _ & ->).
  unfold EncryptedValue, token in E. cbn [encrypted] in E.
  apply Base64.EncodeToString_inj in E.
  assert (Hl1 : length (firstn 12 rand1) = 12%nat) by (rewrite length_firstn; lia).
  assert (Hl2 : length (firstn 12 rand2) = 12%nat) by (rewrite length_firstn; lia).
  assert (En : firstn 12 rand1 = firstn 12 rand2).
  { apply (f_equal (firstn 12)) in E.
    rewrite !firstn_app_len in E by assumption. exact E. }
  split; [|exact En].
  apply (f_equal (skipn 12)) in E.
  rewrite !skipn_app_len in E by assumption. rewrite <- En in E.
  set (key := encryptionKey c) in *. set (nonce := firstn 12 rand1) in *.
  assert (Ho : Cipher.Open {| Cipher.gcm_key := key |} nonce (sealed key nonce d1)
               = Cipher.Open {| Cipher.gcm_key := key |} nonce (sealed key nonce d2))
    by (rewrite E; reflexivity).
  rewrite (Open_sealed {| Cipher.gcm_key := key |} nonce d1) in Ho.
  rewrite (Open_sealed {| Cipher.gcm_key := key |} nonce d2) in Ho.
  congruence.
Qed.

End Transparency.

(** * More of the package: the shape of a token *)

(** ** Base64 texts *)

Module Base64Text.

Import Base64.

(** Lists three elements at a time, as [Encode] reads its source. *)
Lemma triples_ind {A : Type} (P : list A -> Prop) :
  P [] -> (forall a, P [a]) -> (forall a b, P [a; b]) ->
  (forall a b c l, P l -> P (a :: b :: c :: l)) ->
  forall l, P l.
Proof.
  intros H0 H1 H2 H3.
  assert (H : forall n (l : list A), (length l < n)%nat -> P l).
  { induction n as [|n IH]; intros l Hl; [lia|].
    destruct l as [|a [|b [|c l]]]; auto.
    apply H3. apply IH. cbn [length] in Hl. lia. }
  intros l. apply (H (S (length l))). lia.
Qed.

(** [EncodedLen]: four characters for every three bytes, the last group
    padded. *)
Lemma length_encode_chars (src : list byte) :
  length (encode_chars src) = (4 * ((length src + 2) / 3))%nat.
Proof.
  induction src as [|a|a b|a b c l IH] using triples_ind; try reflexivity.
  change (encode_chars (a :: b :: c :: l)) with (encode3 a b c ++ encode_chars l).
  rewrite length_app, IH. cbn [encode3 length].
  replace (S (S (S (length l))) + 2)%nat with ((length l + 2) + 1 * 3)%nat by lia.
  rewrite Nat.div_add by lia. lia.
Qed.

Lemma length_string_of_list_ascii (l : list ascii) :
  String.length (string_of_list_ascii l) = length l.
Proof.
  induction l as [|c l IH]; [reflexivity|]. cbn. rewrite IH. reflexivity.
Qed.

Lemma length_EncodeToString (src : list byte) :
  String.length (EncodeToString src) = (4 * ((length src + 2) / 3))%nat.
Proof.
  unfold EncodeToString. rewrite length_string_of_list_ascii.
  apply length_encode_chars.
Qed.

(** The characters of an encoded text: the 64 of the alphabet and the
    padding character. *)
Definition in_alphabet (c : ascii) : bool :=
  match decodeMap c with
  | Some _ => true
  | None => Ascii.eqb c padChar
  end.

Lemma in_alphabet_encode_char (v : Z) : in_alphabet (encode_char (v mod 64)) = true.
Proof.
  unfold in_alphabet.
  rewrite decodeMap_encode_char by (apply Z.mod_pos_bound; lia). reflexivity.
Qed.

Lemma encode_chars_alphabet (src : list byte) :
  forallb in_alphabet (encode_chars src) = true.
Proof.
  induction src as [|a|a b|a b c l IH] using triples_ind.
  - reflexivity.
  - cbn [encode_chars forallb]. rewrite !in_alphabet_encode_char. reflexivity.
  - cbn [encode_chars forallb]. rewrite !in_alphabet_encode_char. reflexivity.
  - change (encode_chars (a :: b :: c :: l)) with (encode3 a b c ++ encode_chars l).
    rewrite forallb_app, IH. unfold encode3. cbn [forallb].
    rewrite !in_alphabet_encode_char. reflexivity.
Qed.

(** Encoding goes group by group: a source whose length is a multiple of
    three is encoded on its own, whatever follows. *)
Lemma encode_chars_app (a b : list byte) (k : nat) :
  length a = (3 * k)%nat ->
  encode_chars (a ++ b) = encode_chars a ++ encode_chars b.
Proof.
  revert k. induction a as [|x|x y|x y z l IH] using triples_ind; intros k Hk.
  - reflexivity.
  - cbn [length] in Hk. lia.
  - cbn [length] in Hk. lia.
  - change ((x :: y :: z :: l) ++ b) with (x :: y :: z :: (l ++ b)).
    change (encode_chars (x :: y :: z :: l ++ b))
      with (encode3 x y z ++ encode_chars (l ++ b)).
    change (encode_chars (x :: y :: z :: l))
      with (encode3 x y z ++ encode_chars l).
    rewrite (IH (k - 1)%nat) by (cbn [length] in Hk; lia).
    rewrite app_assoc. reflexivity.
Qed.

Lemma substring_string_of_list_ascii (n : nat) (l : list ascii) :
  substring 0 n (string_of_list_ascii l) = string_of_list_ascii (firstn n l).
Proof.
  revert l. induction n as [|n IH]; intros [|c l]; try reflexivity.
  cbn [string_of_list_ascii substring firstn]. rewrite IH. reflexivity.
Qed.

(** *** Decoding *)

(** A character [Decode] has no use for: not of the alphabet, not the
    padding character, not a line break. *)
Definition foreign (c : ascii) : bool :=
  negb (in_alphabet c) && negb (is_newline c).

Lemma skip_newlines_nil (s : list ascii) :
  skip_newlines s = [] -> forallb is_newline s = true.
Proof.
  induction s as [|c s IH]; [reflexivity|]. cbn [skip_newlines forallb].
  destruct (is_newline c); [exact IH|discriminate].
Qed.

Lemma skip_newlines_cons (s : list ascii) (c : ascii) (r : list ascii) :
  skip_newlines s = c :: r ->
  exists p, s = p ++ c :: r /\ forallb is_newline p = true /\ is_newline c = false.
Proof.
  induction s as [|d s IH]; [discriminate|]. cbn [skip_newlines].
  destruct (is_newline d) eqn:Ed.
  - intros H. destruct (IH H) as (p & -> & Hp & Hc).
    exists (d :: p). cbn [app forallb]. rewrite Ed, Hp. auto.
  - intros H. inversion H; subst. exists []. auto.
Qed.

Lemma foreign_not_newline (c : ascii) : foreign c = true -> is_newline c = false.
Proof.
  unfold foreign. intros H. apply andb_true_iff in H. destruct H as [_ H].
  destruct (is_newline c); [discriminate H|reflexivity].
Qed.

Lemma existsb_foreign_newlines (p : list ascii) :
  forallb is_newline p = true -> existsb foreign p = false.
Proof.
  induction p as [|c p IH]; [reflexivity|]. cbn [forallb existsb].
  intros H. apply andb_true_iff in H. destruct H as [Hc Hp].
  rewrite (IH Hp). unfold foreign. rewrite Hc, andb_false_r. reflexivity.
Qed.

(** After the padding nothing but line breaks may follow. *)
Lemma skip_newlines_foreign (s : list ascii) :
  existsb foreign s = true -> skip_newlines s <> [].
Proof.
  intros H E. apply skip_newlines_nil in E.
  rewrite (existsb_foreign_newlines s E) in H. discriminate H.
Qed.

(** [Decode] reports corrupt input when it meets a foreign character. *)
Lemma decode_chars_foreign (s : list ascii) :
  forall dbuf, existsb foreign s = true -> decode_chars dbuf s = None.
Proof.
  induction s as [|c s IH]; intros dbuf H; [discriminate H|].
  cbn [existsb] in H. cbn [decode_chars].
  destruct (decodeMap c) as [out|] eqn:Ec.
  - assert (Hs : existsb foreign s = true).
    { unfold foreign, in_alphabet in H. rewrite Ec in H. exact H. }
    destruct (length dbuf =? 3)%nat; rewrite IH by exact Hs; reflexivity.
  - destruct (is_newline c) eqn:En.
    + apply IH. unfold foreign in H. rewrite En, andb_false_r in H. exact H.
    + destruct (Ascii.eqb c padChar) eqn:Ep; [|reflexivity].
      assert (Hs : existsb foreign s = true).
      { unfold foreign, in_alphabet in H. rewrite Ec, Ep in H. exact H. }
      destruct dbuf as [|d1 [|d2 [|d3 [|d4 dbuf]]]]; try reflexivity.
      * destruct (skip_newlines s) as [|c2 s2] eqn:E2; [reflexivity|].
        destruct (Ascii.eqb c2 padChar) eqn:Ep2; [|reflexivity].
        destruct (skip_newlines s2) eqn:E3; [|reflexivity].
        exfalso.
        destruct (skip_newlines_cons s c2 s2 E2) as (p & -> & Hp & Hc2).
        rewrite existsb_app in Hs. rewrite (existsb_foreign_newlines p Hp) in Hs.
        cbn [orb existsb] in Hs.
        apply skip_newlines_nil in E3.
        rewrite (existsb_foreign_newlines s2 E3), orb_false_r in Hs.
        unfold foreign, in_alphabet in Hs.
        destruct (decodeMap c2); [discriminate Hs|].
        rewrite Ep2 in Hs. discriminate Hs.
      * destruct (skip_newlines s) eqn:E2; [|reflexivity].
        exfalso. exact (skip_newlines_foreign s Hs E2).
Qed.

(** Line breaks make no difference to [Decode]: a text decodes as the
    text without its line breaks. *)
Definition strip (s : list ascii) : list ascii :=
  filter (fun c => negb (is_newline c)) s.

Lemma strip_newlines (p : list ascii) : forallb is_newline p = true -> strip p = [].
Proof.
  induction p as [|c p IH]; [reflexivity|]. cbn [forallb strip filter].
  intros H. apply andb_true_iff in H. destruct H as [Hc Hp].
  rewrite Hc. cbn [negb]. apply IH. exact Hp.
Qed.

Lemma strip_skip_newlines (s : list ascii) : strip (skip_newlines s) = strip s.
Proof.
  induction s as [|c s IH]; [reflexivity|]. cbn [skip_newlines].
  destruct (is_newline c) eqn:E; [|reflexivity].
  unfold strip at 2. cbn [filter]. rewrite E. cbn [negb]. exact IH.
Qed.

Lemma skip_newlines_strip (s : list ascii) : skip_newlines (strip s) = strip s.
Proof.
  induction s as [|c s IH]; [reflexivity|]. unfold strip. cbn [filter].
  destruct (is_newline c) eqn:E; cbn [negb]; [exact IH|].
  cbn [skip_newlines]. rewrite E. reflexivity.
Qed.

(** The first character after line breaks, and what follows it. *)
Lemma skip_newlines_strip_head (s : list ascii) :
  match skip_newlines s with
  | [] => strip s = []
  | c :: r => strip s = c :: strip r
  end.
Proof.
  destruct (skip_newlines s) as [|c r] eqn:E.
  - apply strip_newlines. apply skip_newlines_nil. exact E.
  - destruct (skip_newlines_cons s c r E) as (p & -> & Hp & Hc).
    unfold strip. rewrite filter_app. fold (strip p). rewrite (strip_newlines p Hp).
    cbn [app filter]. rewrite Hc. reflexivity.
Qed.

Lemma decode_chars_strip (s : list ascii) :
  forall dbuf, decode_chars dbuf (strip s) = decode_chars dbuf s.
Proof.
  induction s as [|c s IH]; intros dbuf; [reflexivity|].
  unfold strip. cbn [filter]. fold (strip s).
  destruct (is_newline c) eqn:En; cbn [negb].
  - cbn [decode_chars].
    assert (Ec : decodeMap c = None).
    { unfold is_newline in En. apply orb_true_iff in En.
      destruct En as [En|En]; apply Ascii.eqb_eq in En; subst c; reflexivity. }
    rewrite Ec, En. apply IH.
  - cbn [decode_chars]. rewrite En.
    destruct (decodeMap c) as [out|].
    + rewrite !IH. reflexivity.
    + destruct (Ascii.eqb c padChar); [|reflexivity].
      pose proof (skip_newlines_strip_head s) as H1.
      rewrite skip_newlines_strip.
      destruct dbuf as [|d1 [|d2 [|d3 [|d4 dbuf]]]]; try reflexivity.
      * destruct (skip_newlines s) as [|c2 s2]; rewrite H1; [reflexivity|].
        destruct (Ascii.eqb c2 padChar); [|reflexivity].
        pose proof (skip_newlines_strip_head s2) as H2.
        rewrite skip_newlines_strip.
        destruct (skip_newlines s2); rewrite H2; reflexivity.
      * destruct (skip_newlines s); rewrite H1; reflexivity.
Qed.

End Base64Text.

(** ** Tokens *)

Section Tokens.

Context {T : Float64} {F : Strconv} {G : GCM}.

Import JSON.

(** X9 -- The length of a token: 12 bytes of nonce, the serialized value and 16
    bytes of tag, four characters for every three bytes.  A token is a
    multiple of four and at least 40 characters long, and its length tells
    the length of the serialized value to within three bytes. *)
Theorem Shroud_token_length (c : Client) (v : GoValue) (rand rand' : Reader)
        (s : Secret) :
  Shroud c v rand = ((Some s, None), rand') ->
  exists data,
    Marshal v = (data, None) /\
    String.length (EncryptedValue s) = (4 * ((length data + 30) / 3))%nat /\
    (40 <= String.length (EncryptedValue s))%nat.
Proof.
  intros H. apply Shroud_success in H.
  destruct H as (data & Hm & Hd & Hr & _ & ->).
  exists data. split; [exact Hm|].
  assert (E : String.length
                (EncryptedValue
                   {| encrypted := token (encryptionKey c) (firstn 12 rand) data;
                      client := c |})
              = (4 * ((length data + 30) / 3))%nat).
  { unfold EncryptedValue, token. cbn [encrypted].
    rewrite Base64Text.length_EncodeToString.
    rewrite length_app, sealed_length, length_firstn.
    do 2 f_equal. lia. }
  split; [exact E|]. rewrite E.
  assert (1 <= length data)%nat by (destruct data; [congruence|cbn [length]; lia]).
  assert (10 <= (length data + 30) / 3)%nat
    by (apply Nat.div_le_lower_bound; lia).
  lia.
Qed.

(** X10 -- A token is printable: each of its characters is one of the 64 of the
    standard alphabet or the padding character. *)
Theorem Shroud_token_alphabet (c : Client) (v : GoValue) (rand rand' : Reader)
        (s : Secret) :
  Shroud c v rand = ((Some s, None), rand') ->
  forallb Base64Text.in_alphabet (list_ascii_of_string (EncryptedValue s)) = true.
Proof.
  intros H. apply Shroud_success in H.
  destruct H as (data & _ & _ & _ & _ & ->).
  unfold EncryptedValue, token, Base64.EncodeToString. cbn [encrypted].
  rewrite list_ascii_of_string_of_list_ascii.
  apply Base64Text.encode_chars_alphabet.
Qed.

(** X11 -- A token shows its nonce: its first 16 characters are the encoding of
    the 12 bytes read from the random source, whatever the value and the
    key. *)
Theorem Shroud_token_nonce (c : Client) (v : GoValue) (rand rand' : Reader)
        (s : Secret) :
  Shroud c v rand = ((Some s, None), rand') ->
  substring 0 16 (EncryptedValue s) = Base64.EncodeToString (firstn 12 rand).
Proof.
  intros H. apply Shroud_success in H.
  destruct H as (data & _ & _ & Hr & _ & ->).
  unfold EncryptedValue, token, Base64.EncodeToString. cbn [encrypted].
  rewrite Base64Text.substring_string_of_list_ascii. f_equal.
  assert (Hn : length (firstn 12 rand) = (3 * 4)%nat)
    by (rewrite length_firstn; lia).
  remember (firstn 12 rand) as nonce eqn:En. clear En.
  rewrite (Base64Text.encode_chars_app _ _ 4 Hn).
  assert (Hl : length (Base64.encode_chars nonce) = 16%nat)
    by (rewrite Base64Text.length_encode_chars, Hn; reflexivity).
  apply firstn_app_len. exact Hl.
Qed.

(** X12 -- Storing and loading: [CreateFromEncrypted] on the [EncryptedValue] of
    a secret made by [Shroud] gives that secret back, so exposing the
    loaded secret is exposing the one that was stored. *)
Theorem CreateFromEncrypted_EncryptedValue (c : Client) (v : GoValue)
        (rand rand' : Reader) (s : Secret) :
  Shroud c v rand = ((Some s, None), rand') ->
  CreateFromEncrypted c (EncryptedValue s) = (Some s, None).
Proof.
  intros H. apply Shroud_success in H.
  destruct H as (data & _ & _ & Hr & _ & ->).
  unfold CreateFromEncrypted, EncryptedValue, token. cbn [encrypted].
  rewrite Base64.DecodeString_EncodeToString.
  replace (String.eqb _ EmptyString) with false; [reflexivity|].
  symmetry. apply String.eqb_neq. apply Base64.EncodeToString_nonempty.
  intros E. apply (f_equal (@length byte)) in E.
  rewrite length_app, length_firstn in E. cbn [length] in E. lia.
Qed.

(** X13 -- A character that is neither of the alphabet, nor the padding
    character, nor a line break (a space, say) anywhere in a token makes
    [CreateFromEncrypted] refuse it with [ErrInvalidSecret]. *)
Theorem CreateFromEncrypted_foreign_character (c : Client) (tok : string) :
  existsb Base64Text.foreign (list_ascii_of_string tok) = true ->
  CreateFromEncrypted c tok = (None, Some ErrInvalidSecret).
Proof.
  intros H. unfold CreateFromEncrypted.
  destruct (String.eqb tok EmptyString) eqn:E.
  - apply String.eqb_eq in E. subst tok. discriminate H.
  - unfold Base64.DecodeString.
    rewrite (Base64Text.decode_chars_foreign _ [] H). reflexivity.
Qed.

(** X14 -- Line breaks in a token do not count: two tokens that are the same
    once carriage returns and line feeds are left out expose alike, and
    [CreateFromEncrypted] takes both or neither. *)
Theorem line_breaks_ignored (c : Client) (tok tok' : string) :
  Base64Text.strip (list_ascii_of_string tok)
  = Base64Text.strip (list_ascii_of_string tok') ->
  (forall dest,
      Expose {| encrypted := tok; client := c |} dest
      = Expose {| encrypted := tok'; client := c |} dest) /\
  (tok <> EmptyString -> tok' <> EmptyString ->
   snd (CreateFromEncrypted c tok) = snd (CreateFromEncrypted c tok')).
Proof.
  intros H.
  assert (E : Base64.DecodeString tok = Base64.DecodeString tok').
  { unfold Base64.DecodeString.
    rewrite <- (Base64Text.decode_chars_strip (list_ascii_of_string tok)).
    rewrite <- (Base64Text.decode_chars_strip (list_ascii_of_string tok')).
    rewrite H. reflexivity. }
  split.
  - intros dest. unfold Expose. cbn [encrypted client]. rewrite E. reflexivity.
  - intros Hn Hn'. unfold CreateFromEncrypted.
    apply String.eqb_neq in Hn. apply String.eqb_neq in Hn'.
    rewrite Hn, Hn', E. destruct (Base64.DecodeString tok'); reflexivity.
Qed.

End Tokens.

(** * More of the package: destinations *)

Section Destinations.

Context {T : Float64} {F : Strconv} {G : GCM}.

Import JSON.

(** [Expose] on a secret made by [Shroud] under a key of 32 bytes is
    [Unmarshal] on what [Marshal] returned. *)
Lemma Expose_shrouded (c : Client) (v : GoValue) (rand rand' : Reader) (s : Secret) :
  length (encryptionKey c) = 32%nat ->
  Shroud c v rand = ((Some s, None), rand') ->
  exists data, Marshal v = (data, None) /\
               forall dest, Expose s dest = wrap_unmarshal (Unmarshal data dest).
Proof.
  intros Hk H. apply Shroud_success in H.
  destruct H as (data & Hm & _ & Hr & _ & ->).
  exists data. split; [exact Hm|]. intros dest.
  apply Expose_token; [exact Hk|]. rewrite length_firstn. lia.
Qed.

(** For a value of the data model, it is [store] on the tree of the value. *)
Lemma Expose_stores_tree (c : Client) (v : GoValue) (t0 : GoType)
      (rand rand' : Reader) (s : Secret) (t : GoType) (old : GoValue) :
  length (encryptionKey c) = 32%nat ->
  in_model t0 v = true -> (nesting v <= JSONText.maxNestingDepth)%nat ->
  Shroud c v rand = ((Some s, None), rand') ->
  Expose s (DestPtr t old)
  = wrap_unmarshal (DestPtr t (fst (store t (tree v) old)),
                    hd_error (snd (store t (tree v) old))).
Proof.
  intros Hk Hm Hd H.
  destruct (Expose_shrouded c v rand rand' s Hk H) as (data & Hma & He).
  rewrite He. unfold Marshal in Hma. rewrite (to_json_tree v t0 Hm) in Hma.
  inversion Hma; subst. unfold Unmarshal.
  rewrite JSONText.parse_print
    by (try apply (wf_json_tree v t0 Hm); rewrite (depth_tree v t0 Hm); exact Hd).
  reflexivity.
Qed.

(** ** The nil value *)

(** X15 -- The secret of nil (the text null) exposes without an error into every
    destination: a slice, a map or an empty interface becomes nil, and a
    boolean, an integer or a string is left as it was. *)
Theorem Expose_nil_value (key : list byte) (c : Client) (rand rand' : Reader)
        (s : Secret) (t : GoType) (old : GoValue) :
  NewSecretClient key = (Some c, None) ->
  Shroud c VNil rand = ((Some s, None), rand') ->
  Expose s (DestPtr t old)
  = (DestPtr t match t with
               | TSlice _ | TMap _ | TAny => VNil
               | _ => old
               end, None).
Proof.
  intros Hc H. apply NewSecretClient_inv in Hc. destruct Hc as [Hk Hc]. subst key.
  rewrite (Expose_stores_tree c VNil TAny rand rand' s t old Hk eq_refl
             (Nat.le_0_l _) H).
  destruct t; reflexivity.
Qed.

(** ** A destination of another kind *)

(** The JSON kind of a scalar of the model, as the decoder names it. *)
Definition kind_name (v : GoValue) : string :=
  match v with
  | VBool _ => "bool"
  | VInt _ => "number"
  | VString _ => "string"
  | _ => EmptyString
  end.

(** X16 -- A boolean, an integer or a string exposed into a destination of a type
    that does not take it (an integer into a string, say): [Expose] returns
    "failed to unmarshal value" around the decoder's [UnmarshalTypeError],
    which names the kind of the value and the type of the destination, and
    the destination is left as it was. *)
Theorem Expose_scalar_mismatch (key : list byte) (c : Client) (v : GoValue)
        (rand rand' : Reader) (s : Secret) (t : GoType) (old : GoValue) :
  NewSecretClient key = (Some c, None) ->
  in_model TAny v = true -> kind_name v <> EmptyString ->
  in_model t v = false ->
  Shroud c v rand = ((Some s, None), rand') ->
  Expose s (DestPtr t old)
  = (DestPtr t old,
     Some (Errorf "failed to unmarshal value"
             (JSONError (UnmarshalTypeError (kind_name v) (type_name t))))).
Proof.
  intros Hc Ha Hk0 Ht H.
  apply NewSecretClient_inv in Hc. destruct Hc as [Hk Hc]. subst key.
  assert (Hn : (nesting v <= JSONText.maxNestingDepth)%nat).
  { destruct v; try (cbn [nesting]; lia); contradiction Hk0; reflexivity. }
  rewrite (Expose_stores_tree c v TAny rand rand' s t old Hk Ha Hn H).
  destruct v; try (contradiction Hk0; reflexivity).
  - destruct t; try discriminate Ht; reflexivity.
  - destruct t; try reflexivity.
    + cbn [in_model] in Ht. cbn [in_model] in Ha.
      apply andb_true_iff in Ha. destruct Ha as [Ha _]. congruence.
    + cbn [in_model] in Ht, Ha. congruence.
    + congruence.
  - destruct t; try reflexivity; cbn [in_model] in Ht, Ha; congruence.
Qed.

(** ** A destination that holds something already *)

(** Types without a map inside: booleans, integers, floats, strings,
    empty interfaces, and slices of these. *)
Fixpoint no_map (t : GoType) : bool :=
  match t with
  | TMap _ => false
  | TSlice e => no_map e
  | _ => true
  end.

Lemma store_replaces (v : GoValue) :
  forall t old, no_map t = true -> in_model t v = true ->
                store t (tree v) old = (collapse t v, []).
Proof.
  induction v as [ |b|n|f|s|l IH|m IH|m IH| | | ] using GoValue_ind;
    intros t old Hn Hm; try discriminate Hm.
  - destruct t; (discriminate Hm || discriminate Hn || reflexivity).
  - destruct t; (discriminate Hm || reflexivity).
  - destruct t; try discriminate Hm.
    + cbn [in_model] in Hm. cbn [tree store collapse].
      rewrite JSONText.ParseInt_FormatInt by exact Hm. reflexivity.
    + apply store_float_tree. exact Hm.
    + rewrite store_any_tree by exact Hm. apply valueInterface_tree. exact Hm.
  - destruct t; try discriminate Hm.
    + apply store_float_tree. exact Hm.
    + rewrite store_any_tree by exact Hm. apply valueInterface_tree. exact Hm.
  - destruct t; (discriminate Hm || reflexivity).
  - destruct t; try discriminate Hm.
    + apply in_model_slice in Hm. cbn [elem_type] in Hm. cbn [no_map] in Hn.
      cbn [tree store collapse elem_type].
      rewrite forallb_forall in Hm. rewrite Forall_forall in IH.
      assert (E : forall l' olds, (forall x, In x l' -> In x l) ->
                store_elems (store t) (zero t) (map tree l') olds
                = (map (collapse t) l', [])).
      { induction l' as [|x l' IHl]; intros olds Hin; [reflexivity|].
        cbn [map store_elems].
        rewrite IH by (try apply Hm; try exact Hn; apply Hin; left; reflexivity).
        rewrite IHl by (intros y Hy; apply Hin; right; exact Hy).
        reflexivity. }
      rewrite E by auto. reflexivity.
    + rewrite store_any_tree by exact Hm. apply valueInterface_tree. exact Hm.
  - destruct t; try discriminate Hm; try discriminate Hn.
    rewrite store_any_tree by exact Hm. apply valueInterface_tree. exact Hm.
Qed.

(** X17 -- [Expose] into a destination whose type has no map inside replaces
    what the destination held: the result is the value (up to the numeric
    collapse), whatever was there before. *)
Theorem Expose_replaces (key : list byte) (c : Client) (v : GoValue)
        (rand rand' : Reader) (s : Secret) (t : GoType) (old : GoValue) :
  NewSecretClient key = (Some c, None) ->
  no_map t = true -> in_model t v = true ->
  (nesting v <= JSONText.maxNestingDepth)%nat ->
  Shroud c v rand = ((Some s, None), rand') ->
  Expose s (DestPtr t old) = (DestPtr t (collapse t v), None).
Proof.
  intros Hc Hn Hm Hd H.
  apply NewSecretClient_inv in Hc. destruct Hc as [Hk Hc]. subst key.
  rewrite (Expose_stores_tree c v t rand rand' s t old Hk Hm Hd H).
  rewrite store_replaces by assumption. reflexivity.
Qed.

(** *** Maps *)

(** The entry of a key in a map. *)
Fixpoint map_lookup {A : Type} (k : string) (m : list (string * A)) : option A :=
  match m with
  | [] => None
  | (k', v) :: m' => if String.eqb k k' then Some v else map_lookup k m'
  end.

Lemma compare_refl (k : string) : String.compare k k = Eq.
Proof.
  pose proof (String.compare_antisym k k) as H.
  destruct (String.compare k k); (reflexivity || discriminate H).
Qed.

Lemma compare_eqb (k k' : string) :
  String.eqb k k' = match String.compare k k' with Eq => true | _ => false end.
Proof.
  destruct (String.compare k k') eqn:E.
  - apply String.compare_eq_iff in E. subst. apply String.eqb_refl.
  - apply String.eqb_neq. intros ->. rewrite compare_refl in E. discriminate E.
  - apply String.eqb_neq. intros ->. rewrite compare_refl in E. discriminate E.
Qed.

Lemma map_lookup_insert {A : Type} (k k' : string) (v : A) (m : list (string * A)) :
  map_lookup k (map_insert k' v m)
  = if String.eqb k k' then Some v else map_lookup k m.
Proof.
  induction m as [|[k0 v0] m IH]; [reflexivity|].
  cbn [map_insert]. destruct (String.compare k' k0) eqn:E.
  - apply String.compare_eq_iff in E. subst k0. cbn [map_lookup].
    destruct (String.eqb k k'); reflexivity.
  - cbn [map_lookup]. reflexivity.
  - cbn [map_lookup]. rewrite IH.
    destruct (String.eqb k k0) eqn:E0; [|reflexivity].
    apply String.eqb_eq in E0. subst k0.
    rewrite compare_eqb, String.compare_antisym, E. reflexivity.
Qed.

Lemma map_lookup_above {A : Type} (k : string) (m : list (string * A)) :
  forallb (fun kv => key_lt k (fst kv)) m = true -> map_lookup k m = None.
Proof.
  induction m as [|[k0 v0] m IH]; [reflexivity|].
  cbn [forallb fst map_lookup]. intros H. apply andb_true_iff in H.
  destruct H as [H1 H2]. rewrite compare_eqb. unfold key_lt in H1.
  destruct (String.compare k k0); try discriminate H1. apply IH. exact H2.
Qed.

(** Putting the entries of one map into another, as the decoder does. *)
Definition merge {A B : Type} (f : A -> B) (m : list (string * A))
    (old : list (string * B)) : list (string * B) :=
  fold_left (fun acc kv => map_insert (fst kv) (f (snd kv)) acc) m old.

Lemma map_lookup_merge {A B : Type} (f : A -> B) (k : string)
      (m : list (string * A)) :
  forall old, keys_increasing m = true ->
  map_lookup k (merge f m old)
  = match map_lookup k m with
    | Some x => Some (f x)
    | None => map_lookup k old
    end.
Proof.
  induction m as [|[k0 x0] m IH]; intros old Hk; [reflexivity|].
  cbn [keys_increasing] in Hk. apply andb_true_iff in Hk. destruct Hk as [H1 H2].
  unfold merge in *. cbn [fold_left fst snd map_lookup].
  rewrite IH by exact H2. rewrite map_lookup_insert.
  destruct (String.eqb k k0) eqn:E; [|reflexivity].
  apply String.eqb_eq in E. subst k0.
  rewrite (map_lookup_above k m H1). reflexivity.
Qed.

Lemma store_members_merge (e : GoType) (m : list (string * GoValue)) :
  forall acc,
    forallb (fun kv => in_model e (snd kv)) m = true ->
    store_members (fun x => store e x (zero e))
      (map (fun kv => (fst kv, tree (snd kv))) m) acc
    = (merge (collapse e) m acc, []).
Proof.
  induction m as [|[k x] m IH]; intros acc Hm; [reflexivity|].
  cbn [forallb snd] in Hm. apply andb_true_iff in Hm. destruct Hm as [Hx Hm].
  cbn [map fst snd store_members]. rewrite (store_tree x e Hx).
  cbn [fst snd app]. rewrite IH by exact Hm. reflexivity.
Qed.

(** X18 -- [Expose] into a map that holds entries already does not empty it: the
    entries of the secret are put into the map, and an entry under a key
    that the secret does not have stays. *)
Theorem Expose_merges_into_map (key : list byte) (c : Client)
        (m : list (string * GoValue)) (e : GoType) (rand rand' : Reader)
        (s : Secret) (old : list (string * GoValue)) :
  NewSecretClient key = (Some c, None) ->
  in_model (TMap e) (VMap m) = true ->
  (nesting (VMap m) <= JSONText.maxNestingDepth)%nat ->
  Shroud c (VMap m) rand = ((Some s, None), rand') ->
  Expose s (DestPtr (TMap e) (VMap old))
  = (DestPtr (TMap e) (VMap (merge (collapse e) m old)), None) /\
  forall k,
    map_lookup k (merge (collapse e) m old)
    = match map_lookup k m with
      | Some x => Some (collapse e x)
      | None => map_lookup k old
      end.
Proof.
  intros Hc Hm Hd H.
  apply NewSecretClient_inv in Hc. destruct Hc as [Hk Hc]. subst key.
  pose proof (in_model_map _ _ Hm) as [Hks Hin]. cbn [elem_type] in Hin.
  split.
  - rewrite (Expose_stores_tree c (VMap m) (TMap e) rand rand' s (TMap e)
               (VMap old) Hk Hm Hd H).
    cbn [tree store]. rewrite store_members_merge; [reflexivity|].
    rewrite forallb_forall in Hin |- *. intros kv Hkv.
    specialize (Hin kv Hkv). apply andb_true_iff in Hin. apply Hin.
  - intros k. apply map_lookup_merge. exact Hks.
Qed.

End Destinations.

(** * The helpers of the tests *)

(** How [t.Fatal] ends [setupTestClient]: on the error of [io.ReadFull] or
    on the error of [NewSecretClient]. *)
Inductive fatal : Type :=
| FatalRead (e : ReadError)
| FatalClient (e : error).

(** [func setupTestClient(t *testing.T) *Client]: a key of 32 bytes from the
    random source, and the client for it. *)
Definition setupTestClient (rand : Reader) : (option Client + fatal) * Reader :=
  match ReadFull rand 32 with
  | (inr e, rand') => (inr (FatalRead e), rand')
  | (inl key, rand') =>
      match NewSecretClient key with
      | (_, Some e) => (inr (FatalClient e), rand')
      | (client, None) => (inl client, rand')
      end
  end.

Section TestHelpers.

Context {T : Float64} {F : Strconv} {G : GCM}.

Import JSON.

(** [func createDeeplyNested(depth int) interface{}], for a depth that is
    not negative: the string value inside [depth] maps under the key
    nested. *)
Fixpoint createDeeplyNested (depth : nat) : GoValue :=
  match depth with
  | O => VString "value"
  | S d => VMap [("nested"%string, createDeeplyNested d)]
  end.

Lemma createDeeplyNested_in_model (depth : nat) :
  in_model TAny (createDeeplyNested depth) = true.
Proof.
  induction depth as [|d IH]; [vm_compute; reflexivity|].
  change (createDeeplyNested (S d))
    with (VMap [("nested"%string, createDeeplyNested d)]).
  cbn [in_model keys_increasing forallb fst snd elem_type].
  rewrite IH. vm_compute. reflexivity.
Qed.

Lemma createDeeplyNested_nesting (depth : nat) :
  nesting (createDeeplyNested depth) = depth.
Proof.
  induction depth as [|d IH]; [reflexivity|].
  cbn [createDeeplyNested nesting map snd list_max fold_right]. rewrite IH. lia.
Qed.

Lemma createDeeplyNested_collapse (depth : nat) :
  collapse TAny (createDeeplyNested depth) = createDeeplyNested depth.
Proof.
  induction depth as [|d IH]; [reflexivity|].
  cbn [createDeeplyNested collapse map fst snd elem_type]. rewrite IH. reflexivity.
Qed.

(** X19 -- The structure the tests nest 100 deep goes through [Shroud] and
    [Expose] into an empty interface unchanged at every depth up to 10000,
    whatever the interface held before. *)
Theorem createDeeplyNested_roundtrip (key : list byte) (c : Client) (depth : nat)
        (rand : Reader) :
  NewSecretClient key = (Some c, None) ->
  (depth <= JSONText.maxNestingDepth)%nat ->
  (12 <= length rand)%nat ->
  exists s,
    Shroud c (createDeeplyNested depth) rand = ((Some s, None), skipn 12 rand) /\
    forall old,
      Expose s (DestPtr TAny old) = (DestPtr TAny (createDeeplyNested depth), None).
Proof.
  intros Hc Hd Hr.
  apply NewSecretClient_inv in Hc. destruct Hc as [Hk Hc]. subst key.
  pose proof (createDeeplyNested_in_model depth) as Hm.
  assert (Hn : (nesting (createDeeplyNested depth) <= JSONText.maxNestingDepth)%nat)
    by (rewrite createDeeplyNested_nesting; exact Hd).
  destruct (Unmarshal_Marshal TAny _ Hm Hn) as (data & Hma & Hne & _).
  eexists. split.
  - apply Shroud_ok; eassumption.
  - intros old.
    rewrite (Expose_stores_tree c _ TAny rand (skipn 12 rand) _ TAny old Hk Hm Hn)
      by (apply Shroud_ok; eassumption).
    rewrite store_replaces by (reflexivity || exact Hm).
    rewrite createDeeplyNested_collapse. reflexivity.
Qed.

End TestHelpers.

(** X20 -- [setupTestClient] never stops on the error of [NewSecretClient]: it
    returns the client for the first 32 bytes of the random source, or
    stops on the read when the source has fewer. *)
Theorem setupTestClient_outcomes (rand : Reader) :
  match setupTestClient rand with
  | (inl client, rand') =>
      client = Some {| encryptionKey := firstn 32 rand |} /\
      rand' = skipn 32 rand /\ (32 <= length rand)%nat
  | (inr (FatalRead _), _) => (length rand < 32)%nat
  | (inr (FatalClient _), _) => False
  end.
Proof.
  unfold setupTestClient, ReadFull.
  destruct (32 <=? length rand)%nat eqn:E.
  - apply Nat.leb_le in E. unfold NewSecretClient.
    rewrite length_firstn. replace (Nat.min 32 (length rand)) with 32%nat by lia.
    cbn [Nat.eqb negb]. auto.
  - apply Nat.leb_gt in E. exact E.
Qed.

(** * The package on concrete inputs

    The reference instances, the key of 32 zero bytes and a random source
    that delivers two different nonces. *)

Section Examples.

Import JSON Reference.

Definition zero_key : list byte := repeat x00 32.

Definition demo_client : Client := {| encryptionKey := zero_key |}.

Definition demo_rand : Reader := JSONText.bytes "twelve bytesanother 12 b".

(** The secret of the first [Shroud] with [demo_rand], if there is one. *)
Definition shrouded (v : GoValue) : option Secret :=
  fst (fst (Shroud demo_client v demo_rand)).

(** Exposing the first [Shroud] of [v] into [dest]. *)
Definition shroud_then_expose (v : GoValue) (dest : Dest)
  : option (Dest * option error) :=
  match shrouded v with
  | Some s => Some (Expose s dest)
  | None => None
  end.

Definition settings : GoValue :=
  VMap [("tags"%string, VSlice [VString "a"; VString "b"]);
        ("visits"%string, VInt 100)].

Definition settings_type : GoType := TMap TAny.

(** A map that holds a string, a float and a slice of strings. *)
Definition profile : GoValue :=
  VMap [("name"%string, VString "Ada");
        ("score"%string, VFloat64 99);
        ("tags"%string, VSlice [VString "a"; VString "b"])].

Definition profile_type : GoType := TMap TAny.

(** Slices nested [n] deep around nil, and maps nested [n] deep. *)
Definition nested_slices (n : nat) : GoValue :=
  Nat.iter n (fun v => VSlice [v]) VNil.

Definition nested_maps (n : nat) : GoValue :=
  Nat.iter n (fun v => VMap [("nested"%string, v)]) VNil.



Definition unmarshal_failure (e : JSON.Error) : error :=
  Errorf "failed to unmarshal value" (JSONError e).

(** The secret [Shroud] makes of hello with the first nonce of [demo_rand]. *)
Definition hello_secret : Secret :=
  {| encrypted := "dHdlbHZlIGJ5dGVzImhlbGxvIiIAAAAAAAAAAAAAAAAAAAA=";
     client := demo_client |}.

Example hello_secret_shrouded : shrouded (VString "hello") = Some hello_secret.
Proof. vm_compute. reflexivity. Qed.

(** The deterministic example of the specification: under the key of 32
    zero bytes the string hello comes back; 42 exposed into a string fails
    with a type mismatch and leaves the string as it was. *)
Example hello_roundtrip :
  shroud_then_expose (VString "hello") (DestPtr TString (VString EmptyString))
  = Some (DestPtr TString (VString "hello"), None).
Proof. vm_compute. reflexivity. Qed.

Example number_into_string :
  shroud_then_expose (VInt 42) (DestPtr TString (VString EmptyString))
  = Some (DestPtr TString (VString EmptyString),
          Some (unmarshal_failure (UnmarshalTypeError "number" "string"))).
Proof. vm_compute. reflexivity. Qed.

(** A structure nested 100 deep, as the tests build it, comes back. *)
Example nested_100_roundtrip :
  shroud_then_expose (nested_maps 100) (DestPtr TAny VNil)
  = Some (DestPtr TAny (nested_maps 100), None).
Proof. vm_compute. reflexivity. Qed.

(** The integer of [settings] comes back from a map of interfaces as a
    float: the numeric collapse. *)
Example settings_roundtrip :
  shroud_then_expose settings (DestPtr settings_type VNil)
  = Some (DestPtr settings_type
            (VMap [("tags"%string, VSlice [VString "a"; VString "b"]);
                   ("visits"%string, VFloat64 100)]), None).
Proof. vm_compute. reflexivity. Qed.

(** A float exposed into a [float64] and an integer exposed into a
    [float64]. *)
Example float_roundtrip :
  shroud_then_expose (VFloat64 99) (DestPtr TFloat64 (zero TFloat64))
  = Some (DestPtr TFloat64 (VFloat64 99), None) /\
  shroud_then_expose (VInt 42) (DestPtr TFloat64 (zero TFloat64))
  = Some (DestPtr TFloat64 (VFloat64 42), None).
Proof. split; vm_compute; reflexivity. Qed.


(** The text of slices nested [n] deep around nil: [n] opening brackets,
    null, [n] closing brackets. *)
Definition brackets (n : nat) : list byte :=
  repeat "["%byte n ++ JSONText.bytes "null" ++ repeat "]"%byte n.

Lemma Marshal_nested_slices (n : nat) :
  Marshal (nested_slices n) = (brackets n, None).
Proof.
  assert (H : to_json (nested_slices n)
              = inr (Nat.iter n (fun j => JSONText.JArray [j]) JSONText.JNull)).
  { induction n as [|n IH]; [reflexivity|].
    change (nested_slices (S n)) with (VSlice [nested_slices n]).
    cbn [to_json]. rewrite IH. reflexivity. }
  unfold Marshal. rewrite H. f_equal. clear H.
  induction n as [|n IH]; [reflexivity|].
  change (Nat.iter (S n) (fun j => JSONText.JArray [j]) JSONText.JNull)
    with (JSONText.JArray [Nat.iter n (fun j => JSONText.JArray [j]) JSONText.JNull]).
  cbn [JSONText.print map JSONText.join]. rewrite IH. unfold brackets.
  cbn [repeat app]. f_equal. rewrite <- !app_assoc. do 2 f_equal.
  symmetry. apply (repeat_cons n "]"%byte).
Qed.

Lemma Shroud_nested_slices (n : nat) (rand : Reader) :
  (12 <= length rand)%nat ->
  Shroud demo_client (nested_slices n) rand
  = ((Some {| encrypted := token (encryptionKey demo_client) (firstn 12 rand) (brackets n);
              client := demo_client |}, None), skipn 12 rand).
Proof.
  intros Hr. apply Shroud_ok.
  - reflexivity.
  - apply Marshal_nested_slices.
  - intros E. apply (f_equal (@length byte)) in E. unfold brackets in E.
    rewrite !length_app in E. cbn [JSONText.bytes length] in E.
    vm_compute JSONText.bytes in E. cbn [length] in E. lia.
  - exact Hr.
Qed.


(** C2, witness: tamper detection under the key of zero bytes, whose
    checksum tag tells single-bit changes apart. *)
Lemma tamper_detection_witness :
  (forall tok blob dest,
      Base64.DecodeString tok = Some blob -> (length blob < 12)%nat ->
      Expose {| encrypted := tok; client := demo_client |} dest
      = (dest, Some ErrInvalidSecret)) /\
  (forall v rand rand' s blob i dest,
      Shroud demo_client v rand = ((Some s, None), rand') ->
      Base64.DecodeString (EncryptedValue s) = Some blob ->
      (i < 8 * length blob)%nat ->
      exists s',
        CreateFromEncrypted demo_client (Base64.EncodeToString (flip_bit i blob))
        = (Some s', None) /\
        Expose s' dest = (dest, Some ErrInvalidSecret)).
Proof.
  apply (tamper_detection zero_key demo_client).
  - reflexivity.
  - intros nonce ct i Hn Hi. apply xor_tag_single_bit.
    rewrite length_app, Hn. exact Hi.
Defined.

(** One inverted bit of the token of hello, bit 3 of byte 20, is detected. *)
Example tampered_hello :
  match shrouded (VString "hello") with
  | Some s =>
      match Base64.DecodeString (EncryptedValue s) with
      | Some blob =>
          Expose {| encrypted := Base64.EncodeToString (flip_bit 163 blob);
                    client := demo_client |} (DestPtr TString (VString "old"))
      | None => (DestNil, None)
      end
  | None => (DestNil, None)
  end = (DestPtr TString (VString "old"), Some ErrInvalidSecret).
Proof. vm_compute. reflexivity. Qed.

(** The two secrets [Shroud] makes of [v] from [demo_rand], one after the
    other. *)
Definition shrouded_twice (v : GoValue) : option (Secret * Secret) :=
  let r1 := Shroud demo_client v demo_rand in
  let r2 := Shroud demo_client v (snd r1) in
  match fst (fst r1), fst (fst r2) with
  | Some s1, Some s2 => Some (s1, s2)
  | _, _ => None
  end.

Definition first_secret : Secret :=
  {| encrypted :=
       token zero_key (firstn 12 demo_rand) (fst (Marshal profile));
     client := demo_client |}.

Definition second_secret : Secret :=
  {| encrypted :=
       token zero_key (firstn 12 (skipn 12 demo_rand)) (fst (Marshal profile));
     client := demo_client |}.

(** C3, witness: two calls of [Shroud] on [profile] with the two nonces
    of [demo_rand]. *)
Lemma fresh_nonce_fresh_token_witness :
  EncryptedValue first_secret <> EncryptedValue second_secret /\
  (forall dest, Expose first_secret dest = Expose second_secret dest) /\
  Expose first_secret (DestPtr profile_type (zero profile_type))
  = (DestPtr profile_type profile, None) /\
  Expose second_secret (DestPtr profile_type (zero profile_type))
  = (DestPtr profile_type profile, None).
Proof.
  assert (H1 : Shroud demo_client profile demo_rand
               = ((Some first_secret, None), skipn 12 demo_rand))
    by (vm_compute; reflexivity).
  assert (H2 : Shroud demo_client profile (skipn 12 demo_rand)
               = ((Some second_secret, None), []))
    by (vm_compute; reflexivity).
  assert (Hn : firstn 12 demo_rand <> firstn 12 (skipn 12 demo_rand))
    by (vm_compute; discriminate).
  destruct (fresh_nonce_fresh_token zero_key demo_client profile demo_rand
              (skipn 12 demo_rand) [] first_secret second_secret
              eq_refl H1 H2 Hn) as (Hne & Hsame & Hrt).
  assert (Hm : in_model profile_type profile = true) by (vm_compute; reflexivity).
  assert (Hd : (nesting profile <= JSONText.maxNestingDepth)%nat)
    by (apply Nat.leb_le; vm_compute; reflexivity).
  destruct (Hrt profile_type Hm Hd) as (E1 & E2 & E3).
  rewrite (E3 integer_floats_reparse eq_refl) in E1, E2.
  split; [exact Hne|]. split; [exact Hsame|]. split; [exact E1|exact E2].
Defined.

(** C3, counterexample: two calls of [Shroud] on slices nested 10001 deep
    give two different tokens, and neither secret exposes. *)
Lemma fresh_tokens_beyond_limit :
  in_model TAny (nested_slices (Z.to_nat 10001)) = true /\
  match shrouded_twice (nested_slices (Z.to_nat 10001)) with
  | Some (s1, s2) =>
      String.eqb (EncryptedValue s1) (EncryptedValue s2) = false /\
      snd (Expose s1 (DestPtr TAny VNil)) = Some (unmarshal_failure SyntaxError) /\
      snd (Expose s2 (DestPtr TAny VNil)) = Some (unmarshal_failure SyntaxError)
  | None => False
  end.
Proof.
  split; [vm_compute; reflexivity|].
  unfold shrouded_twice. cbv zeta.
  rewrite (Shroud_nested_slices _ demo_rand) by (apply Nat.leb_le; reflexivity).
  cbn [fst snd].
  rewrite (Shroud_nested_slices _ (skipn 12 demo_rand))
    by (apply Nat.leb_le; reflexivity).
  cbn [fst snd].
  split; [|split].
  - apply String.eqb_neq. unfold EncryptedValue, token. cbn [encrypted].
    intros E. apply Base64.EncodeToString_inj in E.
    apply (f_equal (firstn 12)) in E.
    rewrite !firstn_app_len in E by reflexivity.
    vm_compute in E. discriminate E.
  - rewrite Expose_token by reflexivity. vm_compute. reflexivity.
  - rewrite Expose_token by reflexivity. vm_compute. reflexivity.
Qed.

(** C5, witness: the format of the token of hello. *)
Lemma Shroud_token_format_witness :
  exists data nonce ct tag,
    Marshal (VString "hello") = (data, None) /\
    nonce = firstn 12 demo_rand /\ length nonce = 12%nat /\
    ct = ctr (encryptionKey demo_client) nonce data /\ length ct = length data /\
    tag = auth (encryptionKey demo_client) nonce ct /\ length tag = 16%nat /\
    EncryptedValue hello_secret = Base64.EncodeToString (nonce ++ ct ++ tag) /\
    Base64.DecodeString (EncryptedValue hello_secret) = Some (nonce ++ ct ++ tag) /\
    length (nonce ++ ct ++ tag) = (12 + length data + 16)%nat.
Proof.
  apply (Shroud_token_format demo_client (VString "hello") demo_rand
           (skipn 12 demo_rand)).
  vm_compute. reflexivity.
Defined.

(** C10, witness: the token of the secret of hello, made by [Shroud], and
    the token AAAA, taken by [CreateFromEncrypted], decode. *)
Lemma stored_token_is_base64_witness :
  (exists blob, Base64.DecodeString (EncryptedValue hello_secret) = Some blob) /\
  (exists blob,
      Base64.DecodeString
        (EncryptedValue {| encrypted := "AAAA"; client := demo_client |})
      = Some blob).
Proof.
  split.
  - apply (proj1 (stored_token_is_base64 demo_client)
             (VString "hello") demo_rand (skipn 12 demo_rand)).
    vm_compute. reflexivity.
  - apply (proj2 (stored_token_is_base64 demo_client) "AAAA"%string).
    vm_compute. reflexivity.
Defined.

(** C4, witness: a key of 32 bytes and a key of 16 bytes. *)
Lemma NewSecretClient_iff_32_witness :
  NewSecretClient zero_key = (Some demo_client, None) /\
  NewSecretClient (repeat x00 16) = (None, Some ErrInvalidKey).
Proof.
  split.
  - apply (proj1 (proj2 (NewSecretClient_iff_32 zero_key))). reflexivity.
  - apply (proj2 (proj2 (NewSecretClient_iff_32 (repeat x00 16)))).
    cbn [repeat length]. lia.
Defined.

(** C6, witness: the empty token, a token outside the alphabet, and the
    token of hello. *)
Lemma CreateFromEncrypted_cases_witness :
  CreateFromEncrypted demo_client EmptyString = (None, Some ErrEmptyValue) /\
  CreateFromEncrypted demo_client "not base64!" = (None, Some ErrInvalidSecret) /\
  CreateFromEncrypted demo_client (encrypted hello_secret) = (Some hello_secret, None).
Proof.
  split; [|split].
  - apply (proj1 (CreateFromEncrypted_cases demo_client EmptyString)). reflexivity.
  - apply (proj1 (proj2 (CreateFromEncrypted_cases demo_client "not base64!"))).
    + discriminate.
    + vm_compute. reflexivity.
  - eapply (proj1 (proj2 (proj2 (CreateFromEncrypted_cases demo_client
                                   (encrypted hello_secret))))).
    + discriminate.
    + vm_compute. reflexivity.
Defined.

(** C7, witness: a token that is too short leaves a string destination as
    it was, and [Shroud] of a channel returns no secret. *)
Lemma failure_leaves_no_result_witness :
  fst (Expose {| encrypted := "AAAA"; client := demo_client |}
         (DestPtr TString (VString "old")))
  = DestPtr TString (VString "old") /\
  fst (fst (Shroud demo_client VChan demo_rand)) = None.
Proof.
  split.
  - apply (proj1 failure_leaves_no_result
             {| encrypted := "AAAA"; client := demo_client |}
             (DestPtr TString (VString "old")) _ ErrInvalidSecret).
    + vm_compute. reflexivity.
    + intros value type. discriminate.
  - eapply (proj2 failure_leaves_no_result demo_client VChan demo_rand).
    vm_compute. reflexivity.
Defined.

(** C7, counterexample: the text of a slice holding 1 and a string, exposed
    into a nil slice of integers, fails with a type mismatch and leaves the
    slice written: it holds 1 and 0. *)
Lemma Expose_failure_writes_destination :
  shroud_then_expose (VSlice [VInt 1; VString "x"]) (DestPtr (TSlice TInt64) VNil)
  = Some (DestPtr (TSlice TInt64) (VSlice [VInt 1; VInt 0]),
          Some (unmarshal_failure (UnmarshalTypeError "string" "int64"))).
Proof. vm_compute. reflexivity. Qed.

(** C8, counterexample: with a nil destination, a secret whose token is
    too short fails with [ErrInvalidSecret], and the secret of hello fails
    with the same "failed to unmarshal value" error that a shape mismatch
    gives, around the library's [InvalidUnmarshalError]. *)
Lemma Expose_nil_has_no_kind_of_its_own :
  Expose {| encrypted := "AAAA"; client := demo_client |} DestNil
  = (DestNil, Some ErrInvalidSecret) /\
  shroud_then_expose (VString "hello") DestNil
  = Some (DestNil, Some (Errorf "failed to unmarshal value"
                           (JSONError InvalidUnmarshalError))) /\
  shroud_then_expose (VInt 42) (DestPtr TString (VString EmptyString))
  = Some (DestPtr TString (VString EmptyString),
          Some (Errorf "failed to unmarshal value"
                  (JSONError (UnmarshalTypeError "number" "string")))).
Proof. repeat split; vm_compute; reflexivity. Qed.

(** C8, witness: the secret of hello exposed into a nil destination. *)
Lemma Expose_nil_destination_witness :
  (exists e, Expose hello_secret DestNil = (DestNil, Some e)) /\
  Expose hello_secret DestNil
  = (DestNil, Some (Errorf "failed to unmarshal value"
                      (JSONError InvalidUnmarshalError))).
Proof.
  split.
  - apply (proj1 (Expose_nil_destination hello_secret)).
  - eapply (proj2 (Expose_nil_destination hello_secret)).
    + reflexivity.
    + vm_compute. reflexivity.
    + apply Nat.leb_le. vm_compute. reflexivity.
    + vm_compute. reflexivity.
    + vm_compute. reflexivity.
Defined.

(** C9, witness: a slice that holds a channel. *)
Lemma Shroud_rejects_unsupported_witness :
  exists e,
    Shroud demo_client (VSlice [VInt 1; VChan]) demo_rand
    = ((None, Some (Errorf "failed to marshal value" (JSONError e))), demo_rand).
Proof.
  apply (Shroud_rejects_unsupported demo_client (VSlice [VInt 1; VChan]) demo_rand).
  reflexivity.
Defined.

(** C9, counterexample: a struct whose unexported field holds a function
    contains a function, and [Shroud] makes a secret of it: the encoder
    leaves the field out and writes an empty object. *)
Lemma Shroud_accepts_unexported_function :
  contains_unsupported (VStruct [("callback"%string, VFunc)]) = true /\
  Marshal (VStruct [("callback"%string, VFunc)]) = (JSONText.bytes "{}", None) /\
  Shroud demo_client (VStruct [("callback"%string, VFunc)]) demo_rand
  = ((Some {| encrypted := "dHdlbHZlIGJ5dGVze31GAAAAAAAAAAAAAAAAAAAA";
              client := demo_client |}, None), skipn 12 demo_rand).
Proof. repeat split; vm_compute; reflexivity. Qed.

End Examples.

(** * More of the package on concrete inputs *)

Section MoreExamples.

Import JSON Reference.

Lemma integer_floats_have_text : floats_have_text.
Proof.
  intros f lit H. cbn [FormatFloat integer_floats] in H.
  destruct (JSONText.in_int64 f); [|discriminate H].
  inversion H; subst. apply FormatInt_nonempty.
Qed.

(** X1, witness: the empty string serializes to two quotation marks. *)
Lemma Shroud_never_ErrEmptyValue_witness :
  floats_have_text /\
  snd (fst (Shroud demo_client (VString EmptyString) demo_rand))
  <> Some ErrEmptyValue.
Proof.
  split; [exact integer_floats_have_text|].
  apply (Shroud_never_ErrEmptyValue demo_client (VString EmptyString) demo_rand).
  exact integer_floats_have_text.
Defined.

(** X2, witness: a channel does not serialize. *)
Lemma Shroud_failures_witness :
  @None Secret = None /\
  ((exists data je,
       Marshal VChan = (data, Some je) /\
       Errorf "failed to marshal value" (JSONError (UnsupportedTypeError "chan"))
       = Errorf "failed to marshal value" (JSONError je) /\
       demo_rand = demo_rand) \/
   (exists data re,
       Marshal VChan = (data, None) /\ (length demo_rand < 12)%nat /\
       Errorf "failed to marshal value" (JSONError (UnsupportedTypeError "chan"))
       = Errorf "failed to generate nonce" (RandError re) /\
       demo_rand = [])).
Proof.
  apply (Shroud_failures zero_key demo_client VChan demo_rand demo_rand None
           (Errorf "failed to marshal value"
              (JSONError (UnsupportedTypeError "chan")))).
  - reflexivity.
  - exact integer_floats_have_text.
  - reflexivity.
Defined.

(** X3, witness: a random source of one byte. *)
Lemma Shroud_short_random_source_witness :
  Shroud demo_client (VString "hello") [x01]
  = ((None, Some (Errorf "failed to generate nonce" (RandError ErrUnexpectedEOF))),
     []).
Proof.
  apply (Shroud_short_random_source zero_key demo_client (VString "hello")
           (JSONText.text "'hello'") [x01]).
  - reflexivity.
  - exact integer_floats_have_text.
  - vm_compute. reflexivity.
  - cbn [length]. lia.
Defined.

(** X4, witness: the token AAAA, three bytes. *)
Lemma Expose_failures_witness :
  (ErrInvalidSecret = ErrInvalidSecret /\
   DestPtr TString (VString "old") = DestPtr TString (VString "old")) \/
  (exists je,
      ErrInvalidSecret = Errorf "failed to unmarshal value" (JSONError je)).
Proof.
  apply (Expose_failures {| encrypted := "AAAA"; client := demo_client |}
           (DestPtr TString (VString "old")) (DestPtr TString (VString "old"))
           ErrInvalidSecret).
  - reflexivity.
  - vm_compute. reflexivity.
Defined.

(** X5, witness: the secret of hello. *)
Lemma Expose_authenticates_first_witness :
  exists nonce ct,
    Base64.DecodeString (encrypted hello_secret)
    = Some (nonce ++ ct ++ auth (encryptionKey (client hello_secret)) nonce ct) /\
    length nonce = 12%nat /\
    Expose hello_secret (DestPtr TString (VString EmptyString))
    = wrap_unmarshal
        (Unmarshal (ctr (encryptionKey (client hello_secret)) nonce ct)
           (DestPtr TString (VString EmptyString))).
Proof.
  apply (Expose_authenticates_first hello_secret
           (DestPtr TString (VString EmptyString))).
  - reflexivity.
  - vm_compute. discriminate.
Defined.

(** X6, witness: a token of 20 bytes, enough for a nonce and not for a tag. *)
Lemma Expose_short_token_witness :
  Expose {| encrypted := Base64.EncodeToString (repeat x00 20);
            client := demo_client |} DestNil
  = (DestNil, Some ErrInvalidSecret).
Proof.
  apply (Expose_short_token _ (repeat x00 20)).
  - reflexivity.
  - apply Base64.DecodeString_EncodeToString.
  - cbn [repeat length]. lia.
Defined.

Lemma hello_shrouded :
  Shroud demo_client (VString "hello") demo_rand
  = ((Some hello_secret, None), skipn 12 demo_rand).
Proof. vm_compute. reflexivity. Qed.

(** X9, witness: the token of hello has 48 characters, for 7 bytes of text. *)
Lemma Shroud_token_length_witness :
  exists data,
    Marshal (VString "hello") = (data, None) /\
    String.length (EncryptedValue hello_secret)
    = (4 * ((length data + 30) / 3))%nat /\
    (40 <= String.length (EncryptedValue hello_secret))%nat.
Proof.
  apply (Shroud_token_length demo_client (VString "hello") demo_rand
           (skipn 12 demo_rand)).
  exact hello_shrouded.
Defined.

(** X10, witness: the token of hello. *)
Lemma Shroud_token_alphabet_witness :
  forallb Base64Text.in_alphabet (list_ascii_of_string (EncryptedValue hello_secret))
  = true.
Proof.
  apply (Shroud_token_alphabet demo_client (VString "hello") demo_rand
           (skipn 12 demo_rand)).
  exact hello_shrouded.
Defined.

(** X11, witness: the token of hello starts with the first nonce. *)
Lemma Shroud_token_nonce_witness :
  substring 0 16 (EncryptedValue hello_secret)
  = Base64.EncodeToString (firstn 12 demo_rand).
Proof.
  apply (Shroud_token_nonce demo_client (VString "hello") demo_rand
           (skipn 12 demo_rand)).
  exact hello_shrouded.
Defined.

(** X12, witness: the secret of hello, stored and loaded. *)
Lemma CreateFromEncrypted_EncryptedValue_witness :
  CreateFromEncrypted demo_client (EncryptedValue hello_secret)
  = (Some hello_secret, None).
Proof.
  apply (CreateFromEncrypted_EncryptedValue demo_client (VString "hello")
           demo_rand (skipn 12 demo_rand)).
  exact hello_shrouded.
Defined.

(** X13, witness: the token the tests try, with a space in it. *)
Lemma CreateFromEncrypted_foreign_character_witness :
  CreateFromEncrypted demo_client "invalid base64" = (None, Some ErrInvalidSecret).
Proof.
  apply (CreateFromEncrypted_foreign_character demo_client "invalid base64").
  vm_compute. reflexivity.
Defined.

(** The token of hello broken into two lines. *)
Definition hello_two_lines : string :=
  String.append "dHdlbHZlIGJ5dGVzImhlbGxv"
    (String "010" "IiIAAAAAAAAAAAAAAAAAAAA=").

(** X14, witness: the token of hello in one line and in two. *)
Lemma line_breaks_ignored_witness :
  (forall dest,
      Expose {| encrypted := hello_two_lines; client := demo_client |} dest
      = Expose {| encrypted := encrypted hello_secret; client := demo_client |} dest) /\
  (hello_two_lines <> EmptyString -> encrypted hello_secret <> EmptyString ->
   snd (CreateFromEncrypted demo_client hello_two_lines)
   = snd (CreateFromEncrypted demo_client (encrypted hello_secret))).
Proof.
  apply (line_breaks_ignored demo_client hello_two_lines (encrypted hello_secret)).
  vm_compute. reflexivity.
Defined.

Example hello_two_lines_exposed :
  Expose {| encrypted := hello_two_lines; client := demo_client |}
    (DestPtr TString (VString EmptyString))
  = (DestPtr TString (VString "hello"), None).
Proof. vm_compute. reflexivity. Qed.

(** The secret of nil. *)
Definition nil_secret : Secret :=
  {| encrypted := token zero_key (firstn 12 demo_rand) (JSONText.bytes "null");
     client := demo_client |}.

(** X15, witness: nil exposed into a string leaves the string. *)
Lemma Expose_nil_value_witness :
  Expose nil_secret (DestPtr TString (VString "old"))
  = (DestPtr TString (VString "old"), None).
Proof.
  apply (Expose_nil_value zero_key demo_client demo_rand (skipn 12 demo_rand)
           nil_secret TString (VString "old")).
  - reflexivity.
  - vm_compute. reflexivity.
Defined.

(** The secret of 42. *)
Definition secret_42 : Secret :=
  {| encrypted := token zero_key (firstn 12 demo_rand) (JSONText.bytes "42");
     client := demo_client |}.

(** X16, witness: the test "wrong type on expose", 42 into a string. *)
Lemma Expose_scalar_mismatch_witness :
  Expose secret_42 (DestPtr TString (VString "old"))
  = (DestPtr TString (VString "old"),
     Some (Errorf "failed to unmarshal value"
             (JSONError (UnmarshalTypeError (kind_name (VInt 42))
                           (type_name TString))))).
Proof.
  apply (Expose_scalar_mismatch zero_key demo_client (VInt 42) demo_rand
           (skipn 12 demo_rand) secret_42 TString (VString "old")).
  - reflexivity.
  - vm_compute. reflexivity.
  - discriminate.
  - reflexivity.
  - vm_compute. reflexivity.
Defined.

(** The secret of a slice of two strings. *)
Definition tags : GoValue := VSlice [VString "a"; VString "b"].

Definition tags_secret : Secret :=
  {| encrypted := token zero_key (firstn 12 demo_rand) (fst (Marshal tags));
     client := demo_client |}.

(** X17, witness: two strings exposed into a slice that held three. *)
Lemma Expose_replaces_witness :
  Expose tags_secret
    (DestPtr (TSlice TString) (VSlice [VString "x"; VString "y"; VString "z"]))
  = (DestPtr (TSlice TString) (collapse (TSlice TString) tags), None).
Proof.
  apply (Expose_replaces zero_key demo_client tags demo_rand (skipn 12 demo_rand)).
  - reflexivity.
  - reflexivity.
  - vm_compute. reflexivity.
  - apply Nat.leb_le. vm_compute. reflexivity.
  - vm_compute. reflexivity.
Defined.

(** A map of two counters, and a destination that holds a third. *)
Definition counts : list (string * GoValue) :=
  [("posts"%string, VInt 50); ("visits"%string, VInt 100)].

Definition counts_secret : Secret :=
  {| encrypted := token zero_key (firstn 12 demo_rand) (fst (Marshal (VMap counts)));
     client := demo_client |}.

(** X18, witness: two counters exposed into a map that holds a third. *)
Lemma Expose_merges_into_map_witness :
  Expose counts_secret
    (DestPtr (TMap TInt64) (VMap [("likes"%string, VInt 7); ("posts"%string, VInt 1)]))
  = (DestPtr (TMap TInt64)
       (VMap (merge (collapse TInt64) counts
                [("likes"%string, VInt 7); ("posts"%string, VInt 1)])), None) /\
  forall k,
    map_lookup k (merge (collapse TInt64) counts
                    [("likes"%string, VInt 7); ("posts"%string, VInt 1)])
    = match map_lookup k counts with
      | Some x => Some (collapse TInt64 x)
      | None => map_lookup k [("likes"%string, VInt 7); ("posts"%string, VInt 1)]
      end.
Proof.
  apply (Expose_merges_into_map zero_key demo_client counts TInt64 demo_rand
           (skipn 12 demo_rand)).
  - reflexivity.
  - vm_compute. reflexivity.
  - apply Nat.leb_le. vm_compute. reflexivity.
  - vm_compute. reflexivity.
Defined.

Example counts_merged :
  merge (collapse TInt64) counts
    [("likes"%string, VInt 7); ("posts"%string, VInt 1)]
  = [("likes"%string, VInt 7); ("posts"%string, VInt 50);
     ("visits"%string, VInt 100)].
Proof. vm_compute. reflexivity. Qed.

(** X19, witness: the depth of the tests, 100. *)
Lemma createDeeplyNested_roundtrip_witness :
  exists s,
    Shroud demo_client (createDeeplyNested 100) demo_rand
    = ((Some s, None), skipn 12 demo_rand) /\
    forall old,
      Expose s (DestPtr TAny old) = (DestPtr TAny (createDeeplyNested 100), None).
Proof.
  apply (createDeeplyNested_roundtrip zero_key demo_client 100 demo_rand).
  - reflexivity.
  - apply Nat.leb_le. vm_compute. reflexivity.
  - apply Nat.leb_le. vm_compute. reflexivity.
Defined.

(** A struct with the fields of the example program. *)
Definition user : GoValue :=
  VStruct [("Username"%string, VString "john_doe");
           ("ApiKey"%string, VString "secret-api-key")].

(** X7, witness: the struct of the example program. *)
Lemma Expose_Shroud_is_Unmarshal_Marshal_witness :
  exists s,
    Shroud demo_client user demo_rand = ((Some s, None), skipn 12 demo_rand) /\
    forall dest,
      Expose s dest
      = match Unmarshal (fst (Marshal user)) dest with
        | (dest', Some e) =>
            (dest', Some (Errorf "failed to unmarshal value" (JSONError e)))
        | (dest', None) => (dest', None)
        end.
Proof.
  apply (Expose_Shroud_is_Unmarshal_Marshal zero_key demo_client user
           (fst (Marshal user)) demo_rand).
  - reflexivity.
  - exact integer_floats_have_text.
  - vm_compute. reflexivity.
  - apply Nat.leb_le. vm_compute. reflexivity.
Defined.

Example user_text :
  Marshal user = (JSONText.text "{'Username':'john_doe','ApiKey':'secret-api-key'}", None).
Proof. vm_compute. reflexivity. Qed.

(** X8, witness: the secret of hello, twice. *)
Lemma Shroud_token_injective_witness :
  Marshal (VString "hello") = Marshal (VString "hello") /\
  firstn 12 demo_rand = firstn 12 demo_rand.
Proof.
  apply (Shroud_token_injective demo_client (VString "hello") (VString "hello")
           demo_rand (skipn 12 demo_rand) demo_rand (skipn 12 demo_rand)
           hello_secret hello_secret).
  - exact hello_shrouded.
  - exact hello_shrouded.
  - reflexivity.
Defined.

End MoreExamples.
